(** * Connect 4 with an alpha-beta opponent: the board and the search

    A shallow embedding of [Projet_connect4_AI.py] (class [Board] and the
    function [alpha_beta]) and the properties of its specification.

    Layout of the development:
    - [Py]     : the Python values the code computes with (exceptions,
                 numpy indexing, the scores [float('-inf')], integers and
                 [float('inf')]);
    - [Board]  : the methods of class [Board] as functions of the value of
                 the numpy array [self.grid];
    - [AlphaBeta] : [alpha_beta], and the exhaustive minimax it is compared
                 to;
    - [Lines]  : the specification's description of the 4-cell windows;
    - [Heap]   : objects, the class attribute [Board.grid] and aliasing;
    - [Position] : the grids that alternate play leaves;
    - [Gui]    : the canvas items that [add_disk] and [reinit] fill;
    - [Game]   : class [Connect4], its search threads and the events of
                 the window. *)

From stdpp Require Import gmap list.
From Stdlib Require Import ZArith Lia.

Local Open Scope Z_scope.

(* ===================================================================== *)
(** ** Python values *)
(* ===================================================================== *)

Module Py.

(** The two exceptions the modelled code can raise: numpy raises
    [IndexError] for an index outside an axis, and [OverflowError] when a
    Python integer stored into an [int64] array does not fit. *)
Inductive exn := IndexError | OverflowError.

Inductive result (A : Type) : Type :=
  | Ok (a : A)
  | Raise (e : exn).
Global Arguments Ok {A} a.
Global Arguments Raise {A} e.

Global Instance result_ret : MRet result := @Ok.
Global Instance result_bind : MBind result := λ A B f m,
  match m with
  | Ok a => f a
  | Raise e => Raise e
  end.

(** [a[i]] on an axis of length [n]: negative indices count from the end. *)
Definition np_index (n : nat) (i : Z) : result nat :=
  if bool_decide (0 ≤ i < Z.of_nat n) then Ok (Z.to_nat i)
  else if bool_decide (- Z.of_nat n ≤ i < 0) then Ok (Z.to_nat (i + Z.of_nat n))
  else Raise IndexError.

(** Storing a Python integer into an array of dtype [int] (int64). *)
Definition store_int64 (v : Z) : result Z :=
  if bool_decide (- 2 ^ 63 ≤ v < 2 ^ 63) then Ok v else Raise OverflowError.

(** Scores: [alpha_beta] mixes the integers returned by [eval] with
    [float('-inf')] and [float('inf')]. *)
Inductive Score := NegInf | Fin (z : Z) | PosInf.

Global Instance Score_eq_dec : EqDecision Score.
Proof. solve_decision. Defined.

(** [a < b] *)
Definition score_lt (a b : Score) : bool :=
  match a, b with
  | NegInf, NegInf => false
  | NegInf, _ => true
  | Fin _, NegInf => false
  | Fin x, Fin y => bool_decide (x < y)
  | Fin _, PosInf => true
  | PosInf, _ => false
  end.

(** [a <= b] *)
Definition score_le (a b : Score) : bool :=
  match a, b with
  | NegInf, _ => true
  | Fin _, NegInf => false
  | Fin x, Fin y => bool_decide (x ≤ y)
  | Fin _, PosInf => true
  | PosInf, PosInf => true
  | PosInf, _ => false
  end.

(** [max(a, b)]: the first argument unless the second is greater. *)
Definition score_max (a b : Score) : Score := if score_lt a b then b else a.

(** [min(a, b)]: the first argument unless the second is smaller. *)
Definition score_min (a b : Score) : Score := if score_lt b a then b else a.

(** The same comparisons as propositions. *)
Definition sle (a b : Score) : Prop :=
  match a, b with
  | NegInf, _ => True
  | Fin x, Fin y => x ≤ y
  | _, PosInf => True
  | _, _ => False
  end.

Definition slt (a b : Score) : Prop :=
  match a, b with
  | NegInf, NegInf => False
  | NegInf, _ => True
  | Fin x, Fin y => x < y
  | Fin _, PosInf => True
  | _, _ => False
  end.

Definition same_score (a b : Score) : Prop :=
  match a, b with
  | NegInf, NegInf => True
  | Fin x, Fin y => x = y
  | PosInf, PosInf => True
  | _, _ => False
  end.

(** [for x in xs: s = body(x, s)] *)
Definition for_each {A S : Type} (xs : list A) (s : S) (body : A → S → S) : S :=
  foldl (λ s x, body x s) s xs.

(** [range(lo, hi)] *)
Definition range (lo hi : nat) : list nat := seq lo (hi - lo).

(** [w.count(x)] *)
Definition count (x : Z) (w : list Z) : nat :=
  length (filter (λ y, y = x) w).

End Py.
Export Py.

(* ===================================================================== *)
(** ** class Board *)
(* ===================================================================== *)

(** The value of [self.grid]: a numpy array of shape (7, 6), indexed
    [grid[column][row]], row 0 at the bottom. *)
Abbreviation Grid := (list (list Z)).

Module Board.

Definition shape_ok (g : Grid) : Prop :=
  length g = 7%nat ∧ Forall (λ col, length col = 6%nat) g.

(** [np.zeros((7, 6), dtype=int)] *)
Definition zeros : Grid := replicate 7 (replicate 6 0).

(** [grid[c][r]] for indices inside the shape. *)
Definition cell (g : Grid) (c r : nat) : Z :=
  default 0 (col ← g !! c; col !! r).

(** [grid[c][r] = v], in place. *)
Definition set_cell (g : Grid) (c r : nat) (v : Z) : Grid :=
  alter (λ col, <[r := v]> col) c g.

Definition eval_window (window : list Z) (player : Z) : Z :=
  let opponent := 3 - player in
  if bool_decide (count player window = 4%nat) then 10000
  else if bool_decide (count opponent window = 4%nat) then -10000
  else if bool_decide (count player window = 3%nat)
          && bool_decide (count 0 window = 1%nat) then 20
  else if bool_decide (count opponent window = 3%nat)
          && bool_decide (count 0 window = 1%nat) then -20
  else 0.

Definition evaluation_table : list (list Z) :=
  [ [3; 4; 5; 7; 5; 4; 3];
    [4; 6; 8; 10; 8; 6; 4];
    [5; 8; 11; 13; 11; 8; 5];
    [5; 8; 11; 13; 11; 8; 5];
    [4; 6; 8; 10; 8; 6; 4];
    [3; 4; 5; 7; 5; 4; 3] ].

(** [evaluation_table[row][col]] *)
Definition table_at (row col : nat) : Z :=
  default 0 (line ← evaluation_table !! row; line !! col).

(** [list(self.grid[col:col + 4, row])] *)
Definition window_horizontal (g : Grid) (col row : nat) : list Z :=
  (λ i, cell g (col + i) row) <$> range 0 4.

(** [list(self.grid[col, row:row + 4])] *)
Definition window_vertical (g : Grid) (col row : nat) : list Z :=
  (λ i, cell g col (row + i)) <$> range 0 4.

(** [[self.grid[col + i][row + i] for i in range(4)]] *)
Definition window_diagonal1 (g : Grid) (col row : nat) : list Z :=
  (λ i, cell g (col + i) (row + i)) <$> range 0 4.

(** [[self.grid[col + i][row - i] for i in range(4)]] *)
Definition window_diagonal2 (g : Grid) (col row : nat) : list Z :=
  (λ i, cell g (col + i) (row - i)) <$> range 0 4.

Definition eval (g : Grid) (player : Z) : Z :=
  let score := 0 in
  let opponent := 3 - player in
  (* Horizontal alignment *)
  let score :=
    for_each (range 0 6) score (λ row score,
      for_each (range 0 4) score (λ col score,
        score + eval_window (window_horizontal g col row) player)) in
  (* Vertical alignment *)
  let score :=
    for_each (range 0 7) score (λ col score,
      for_each (range 0 3) score (λ row score,
        score + eval_window (window_vertical g col row) player)) in
  (* First diagonal alignment *)
  let score :=
    for_each (range 0 4) score (λ col score,
      for_each (range 0 3) score (λ row score,
        score + eval_window (window_diagonal1 g col row) player)) in
  (* Second diagonal alignment *)
  let score :=
    for_each (range 0 4) score (λ col score,
      for_each (range 3 6) score (λ row score,
        score + eval_window (window_diagonal2 g col row) player)) in
  (* Central positioning *)
  let score :=
    for_each (range 0 6) score (λ row score,
      for_each (range 0 7) score (λ col score,
        if bool_decide (cell g col row = player) then score + table_at row col
        else if bool_decide (cell g col row = opponent) then score - table_at row col
        else score)) in
  score.

Definition get_possible_moves (g : Grid) : list Z :=
  let possible_moves := [] in
  let possible_moves :=
    if bool_decide (cell g 3 5 = 0) then possible_moves ++ [3]
    else possible_moves in
  for_each (range 1 4) possible_moves (λ shift_from_center possible_moves,
    let possible_moves :=
      if bool_decide (cell g (3 + shift_from_center) 5 = 0)
      then possible_moves ++ [Z.of_nat (3 + shift_from_center)]
      else possible_moves in
    if bool_decide (cell g (3 - shift_from_center) 5 = 0)
    then possible_moves ++ [Z.of_nat (3 - shift_from_center)]
    else possible_moves).

(** The loop of [add_disk] over the rows [js] still to visit; [c] is the
    column index once numpy has resolved it. *)
Fixpoint add_disk_rows (g : Grid) (c : nat) (player : Z) (js : list nat)
    : result Grid :=
  match js with
  | [] => Ok g
  | j :: js' =>
      if bool_decide (cell g c j = 0)
      then v ← store_int64 player; Ok (set_cell g c j v)   (* break *)
      else add_disk_rows g c player js'
  end.

(** [add_disk(column, player, update_display=False)]. With
    [update_display=True] the method goes on to recolour one canvas item,
    which is no part of the board. *)
Definition add_disk (g : Grid) (column player : Z) : result Grid :=
  c ← np_index 7 column;
  add_disk_rows g c player (range 0 6).

Definition column_filled (g : Grid) (column : Z) : result bool :=
  c ← np_index 7 column;
  Ok (bool_decide (cell g c 5 ≠ 0)).

(** [a == b == c == d != 0] *)
Definition aligned (a b c d : Z) : bool :=
  bool_decide (a = b) && bool_decide (b = c) && bool_decide (c = d)
  && bool_decide (d ≠ 0).

Definition check_victory (g : Grid) : bool :=
  (* Horizontal alignment check *)
  existsb (λ line,
    existsb (λ horizontal_shift,
      aligned (cell g horizontal_shift line)
              (cell g (horizontal_shift + 1) line)
              (cell g (horizontal_shift + 2) line)
              (cell g (horizontal_shift + 3) line))
      (range 0 4)) (range 0 6)
  (* Vertical alignment check *)
  || existsb (λ column,
    existsb (λ vertical_shift,
      aligned (cell g column vertical_shift)
              (cell g column (vertical_shift + 1))
              (cell g column (vertical_shift + 2))
              (cell g column (vertical_shift + 3)))
      (range 0 3)) (range 0 7)
  (* Diagonal alignment check *)
  || existsb (λ horizontal_shift,
    existsb (λ vertical_shift,
      aligned (cell g horizontal_shift vertical_shift)
              (cell g (horizontal_shift + 1) (vertical_shift + 1))
              (cell g (horizontal_shift + 2) (vertical_shift + 2))
              (cell g (horizontal_shift + 3) (vertical_shift + 3))
      || aligned (cell g horizontal_shift (5 - vertical_shift))
                 (cell g (horizontal_shift + 1) (4 - vertical_shift))
                 (cell g (horizontal_shift + 2) (3 - vertical_shift))
                 (cell g (horizontal_shift + 3) (2 - vertical_shift)))
      (range 0 3)) (range 0 4).

(** Gravity: inside the grid, no disk rests on an empty cell. *)
Definition gravity (g : Grid) : Prop :=
  ∀ c r, (c < 7)%nat → (r < 5)%nat → cell g c r = 0 → cell g c (S r) = 0.

(** Number of occupied cells of column [c]. *)
Definition height (g : Grid) (c : nat) : nat :=
  length (filter (λ r, cell g c r ≠ 0) (range 0 6)).

End Board.

(* ===================================================================== *)
(** ** The search *)
(* ===================================================================== *)

Module AlphaBeta.
Import Board.

(** A search result [(score, move)]; the move [None] is Python's [None]. *)
Abbreviation Outcome := (Score * option Z)%type.

(** In [alpha_beta] every child is [board.copy()] followed by [add_disk] on
    the copy, so the parent's array is never written: the children are
    values computed from the parent's grid (see [copy_then_add_disk] below).

    [max_loop] is the [for move in possible_moves] loop of the maximizing
    branch, entered with the moves still to visit and the current values of
    [max_value], [best_move] and [alpha]; [rec] is the recursive call one
    ply lower. *)
Fixpoint max_loop (rec : Grid → Score → Score → result Outcome)
    (board : Grid) (current_player : Z) (beta : Score) (moves : list Z)
    (max_value : Score) (best_move : option Z) (alpha : Score)
    : result Outcome :=
  match moves with
  | [] => Ok (max_value, best_move)
  | move :: moves' =>
      child_board ← add_disk board move current_player;
      '(value, _) ← rec child_board alpha beta;
      let '(max_value, best_move) :=
        if score_lt max_value value then (value, Some move)
        else (max_value, best_move) in
      let alpha := score_max alpha value in
      if score_le beta alpha then Ok (max_value, best_move)   (* Beta cutoff *)
      else max_loop rec board current_player beta moves' max_value best_move alpha
  end.

(** The loop of the minimizing branch. *)
Fixpoint min_loop (rec : Grid → Score → Score → result Outcome)
    (board : Grid) (current_player : Z) (alpha : Score) (moves : list Z)
    (min_value : Score) (best_move : option Z) (beta : Score)
    : result Outcome :=
  match moves with
  | [] => Ok (min_value, best_move)
  | move :: moves' =>
      let opponent_player := 3 - current_player in
      child_board ← add_disk board move opponent_player;
      '(value, _) ← rec child_board alpha beta;
      let '(min_value, best_move) :=
        if score_lt value min_value then (value, Some move)
        else (min_value, best_move) in
      let beta := score_min beta value in
      if score_le beta alpha then Ok (min_value, best_move)   (* Alpha cutoff *)
      else min_loop rec board current_player alpha moves' min_value best_move beta
  end.

(** [depth] is a natural number: the callers pass the AI level, 1 to 42, and
    the recursion stops at [depth == 0]. [turn] is passed along unused, as
    in the source. *)
Fixpoint alpha_beta (board : Grid) (turn : Z) (depth : nat)
    (alpha beta : Score) (current_player : Z) (maximizing_player : bool)
    {struct depth} : result Outcome :=
  match get_possible_moves board with
  | [only_move] =>
      (* len(board.get_possible_moves()) == 1 *)
      Ok (Fin (eval board current_player), Some only_move)
  | possible_moves =>
      match depth with
      | O => Ok (Fin (eval board current_player), None)
      | S depth' =>
          if check_victory board
          then Ok (Fin (eval board current_player), None)
          else if maximizing_player
          then max_loop
                 (λ child a b,
                    alpha_beta child turn depth' a b current_player false)
                 board current_player beta possible_moves NegInf None alpha
          else min_loop
                 (λ child a b,
                    alpha_beta child turn depth' a b current_player true)
                 board current_player alpha possible_moves PosInf None beta
      end
  end.

(** [alpha_beta_decision] puts this move in the queue. *)
Definition alpha_beta_decision (board : Grid) (turn : Z) (ai_level : nat)
    (max_player : Z) : result (option Z) :=
  '(_, best_move) ← alpha_beta board turn ai_level NegInf PosInf max_player true;
  Ok best_move.

(** *** Exhaustive search

    The specification's reference point for pruning correctness: the same
    recursion (same move order, terminal cases and tie-break rule) with
    [alpha], [beta] and the two cutoffs removed. *)
Fixpoint max_all (rec : Grid → result Outcome)
    (board : Grid) (current_player : Z) (moves : list Z)
    (max_value : Score) (best_move : option Z) : result Outcome :=
  match moves with
  | [] => Ok (max_value, best_move)
  | move :: moves' =>
      child_board ← add_disk board move current_player;
      '(value, _) ← rec child_board;
      let '(max_value, best_move) :=
        if score_lt max_value value then (value, Some move)
        else (max_value, best_move) in
      max_all rec board current_player moves' max_value best_move
  end.

Fixpoint min_all (rec : Grid → result Outcome)
    (board : Grid) (current_player : Z) (moves : list Z)
    (min_value : Score) (best_move : option Z) : result Outcome :=
  match moves with
  | [] => Ok (min_value, best_move)
  | move :: moves' =>
      child_board ← add_disk board move (3 - current_player);
      '(value, _) ← rec child_board;
      let '(min_value, best_move) :=
        if score_lt value min_value then (value, Some move)
        else (min_value, best_move) in
      min_all rec board current_player moves' min_value best_move
  end.

Fixpoint minimax (board : Grid) (turn : Z) (depth : nat)
    (current_player : Z) (maximizing_player : bool)
    {struct depth} : result Outcome :=
  match get_possible_moves board with
  | [only_move] => Ok (Fin (eval board current_player), Some only_move)
  | possible_moves =>
      match depth with
      | O => Ok (Fin (eval board current_player), None)
      | S depth' =>
          if check_victory board
          then Ok (Fin (eval board current_player), None)
          else if maximizing_player
          then max_all (λ child, minimax child turn depth' current_player false)
                 board current_player possible_moves NegInf None
          else min_all (λ child, minimax child turn depth' current_player true)
                 board current_player possible_moves PosInf None
      end
  end.

(** What a search with window [(alpha, beta)] that returned [v] says about
    the exhaustive value [mm]: an upper bound at or below [alpha], a lower
    bound at or above [beta], the value itself strictly inside. *)
Definition within (alpha beta v mm : Score) : Prop :=
  (score_le v alpha = true → score_le mm v = true)
  ∧ (score_le beta v = true → score_le v mm = true)
  ∧ (score_lt alpha v = true → score_lt v beta = true → v = mm).

End AlphaBeta.

(* ===================================================================== *)
(** ** The lines of the grid *)
(* ===================================================================== *)

Module Lines.
Import Board.

(** *** Windows, as the specification describes them

    A window is four contiguous cells in one of the four orientations, all
    of them inside the 7 x 6 grid. A cell is a pair (column, row). *)
Inductive orientation := Horizontal | Vertical | Ascending | Descending.

Global Instance orientation_eq_dec : EqDecision orientation.
Proof. solve_decision. Defined.

(** From one cell of a window to the next. *)
Definition step (o : orientation) : Z * Z :=
  match o with
  | Horizontal => (1, 0)
  | Vertical => (0, 1)
  | Ascending => (1, 1)
  | Descending => (1, -1)
  end.

Definition cells (o : orientation) (c r : Z) : list (Z * Z) :=
  (λ i, (c + i * (step o).1, r + i * (step o).2)) <$> [0; 1; 2; 3].

Definition in_grid (cr : Z * Z) : Prop := 0 ≤ cr.1 < 7 ∧ 0 ≤ cr.2 < 6.

Global Instance in_grid_dec cr : Decision (in_grid cr).
Proof. unfold in_grid. apply _. Defined.

Definition is_window (o : orientation) (c r : Z) : Prop :=
  Forall in_grid (cells o c r).

Definition columns : list Z := [0; 1; 2; 3; 4; 5; 6].
Definition rows : list Z := [0; 1; 2; 3; 4; 5].

Definition all_cells : list (Z * Z) := c ← columns; r ← rows; [(c, r)].

Definition all_windows : list (list (Z * Z)) :=
  o ← [Horizontal; Vertical; Ascending; Descending];
  c ← columns; r ← rows;
  if decide (is_window o c r) then [cells o c r] else [].

(** The owner of a cell, and the owners along a window. *)
Definition owner (g : Grid) (cr : Z * Z) : Z :=
  cell g (Z.to_nat cr.1) (Z.to_nat cr.2).

Definition content (g : Grid) (w : list (Z * Z)) : list Z := owner g <$> w.

(** All four cells belong to [q]. *)
Definition all_owned (q : Z) (w : list Z) : Prop := w = [q; q; q; q].

(** Exactly three cells belong to [q] and the fourth is empty. *)
Definition three_and_empty (q : Z) (w : list Z) : Prop :=
  w = [0; q; q; q] ∨ w = [q; 0; q; q] ∨ w = [q; q; 0; q] ∨ w = [q; q; q; 0].

Global Instance all_owned_dec q w : Decision (all_owned q w).
Proof. unfold all_owned. apply _. Defined.

Global Instance three_and_empty_dec q w : Decision (three_and_empty q w).
Proof. unfold three_and_empty. apply _. Defined.

Definition indicator (P : Prop) `{!Decision P} : Z := if decide P then 1 else 0.

(** The score of one window for [player], read off the specification: the
    four scoring cases, each counted when it applies. *)
Definition window_score (w : list Z) (player : Z) : Z :=
  let opponent := 3 - player in
  10000 * indicator (all_owned player w)
  - 10000 * indicator (all_owned opponent w)
  + 20 * indicator (three_and_empty player w)
  - 20 * indicator (three_and_empty opponent w).

(** The positional weight of a cell, with the sign of its owner. *)
Definition positional (g : Grid) (player : Z) (cr : Z * Z) : Z :=
  let weight := table_at (Z.to_nat cr.2) (Z.to_nat cr.1) in
  if decide (owner g cr = player) then weight
  else if decide (owner g cr = 3 - player) then - weight
  else 0.

Definition sumZ (l : list Z) : Z := foldr Z.add 0 l.

(** The evaluation as the specification states it. *)
Definition eval_spec (g : Grid) (player : Z) : Z :=
  sumZ ((λ w, window_score (content g w) player) <$> all_windows)
  + sumZ (positional g player <$> all_cells).

(** Some window holds four equal, non-empty cells. *)
Definition four_in_a_row (g : Grid) : Prop :=
  ∃ o c r, is_window o c r
           ∧ ∃ q, q ≠ 0 ∧ content g (cells o c r) = [q; q; q; q].

(** *** Windows, in the order the code visits them *)

Definition nat_cell (cr : nat * nat) : Z * Z := (Z.of_nat cr.1, Z.of_nat cr.2).

(** The windows of [Board.eval], loop by loop. *)
Definition eval_windows : list (list (nat * nat)) :=
  (row ← range 0 6; col ← range 0 4;
     [(λ i, (col + i, row)%nat) <$> range 0 4])
  ++ (col ← range 0 7; row ← range 0 3;
     [(λ i, (col, row + i)%nat) <$> range 0 4])
  ++ (col ← range 0 4; row ← range 0 3;
     [(λ i, (col + i, row + i)%nat) <$> range 0 4])
  ++ (col ← range 0 4; row ← range 3 6;
     [(λ i, (col + i, row - i)%nat) <$> range 0 4]).

(** The cells of the central-positioning loop of [Board.eval]. *)
Definition eval_cells : list (nat * nat) :=
  row ← range 0 6; col ← range 0 7; [(col, row)].

(** The windows of [Board.check_victory], in scan order. *)
Definition victory_windows : list (list (nat * nat)) :=
  (line ← range 0 6; h ← range 0 4;
     [[(h, line); (h + 1, line); (h + 2, line); (h + 3, line)]%nat])
  ++ (column ← range 0 7; v ← range 0 3;
     [[(column, v); (column, v + 1); (column, v + 2); (column, v + 3)]%nat])
  ++ (h ← range 0 4; v ← range 0 3;
     [[(h, v); (h + 1, v + 1); (h + 2, v + 2); (h + 3, v + 3)]%nat;
      [(h, 5 - v); (h + 1, 4 - v); (h + 2, 3 - v); (h + 3, 2 - v)]%nat]).

(** The owners along a window given in the code's coordinates. *)
Definition owners (g : Grid) (w : list (nat * nat)) : list Z :=
  (λ cr, cell g cr.1 cr.2) <$> w.

(** What the central-positioning loop adds for one cell. *)
Definition positional_term (g : Grid) (player : Z) (cr : nat * nat) : Z :=
  if bool_decide (cell g cr.1 cr.2 = player) then table_at cr.2 cr.1
  else if bool_decide (cell g cr.1 cr.2 = 3 - player) then - table_at cr.2 cr.1
  else 0.

(** The test [check_victory] applies to the four owners of a window. *)
Definition aligned_run (l : list Z) : bool :=
  match l with
  | [a; b; c; d] => aligned a b c d
  | _ => false
  end.

Definition window_aligned (g : Grid) (w : list (nat * nat)) : bool :=
  aligned_run (owners g w).

End Lines.

(* ===================================================================== *)
(** ** Objects and aliasing *)
(* ===================================================================== *)

Module Heap.

(** The store holds numpy arrays and [Board] instances, both by address.
    An instance is its attribute dictionary: either it binds [grid] to the
    address of an array, or it does not and [self.grid] finds the class
    attribute [Board.grid]. *)
Record Store := mkStore {
  arrays : gmap nat Grid;
  instances : gmap nat (option nat)
}.

(** The address of the array the [class Board] statement binds to
    [Board.grid]; the source never rebinds it. *)
Definition class_grid : nat := 0%nat.

(** The store once the class statement has run. *)
Definition at_import : Store :=
  {| arrays := {[ class_grid := Board.zeros ]}; instances := ∅ |}.

(** Running a method: it returns and leaves a store, raises, or is stuck
    on a reference to no object (which no Python program reaches). *)
Inductive outcome (A : Type) : Type :=
  | Done (a : A) (σ : Store)
  | Raised (e : exn)
  | Stuck.
Global Arguments Done {A} a σ.
Global Arguments Raised {A} e.
Global Arguments Stuck {A}.

Definition M (A : Type) : Type := Store → outcome A.

Global Instance M_ret : MRet M := λ A a σ, Done a σ.
Global Instance M_bind : MBind M := λ A B f m σ,
  match m σ with
  | Done a σ' => f a σ'
  | Raised e => Raised e
  | Stuck => Stuck
  end.

Definition lift {A} (r : result A) : M A := λ σ,
  match r with
  | Ok a => Done a σ
  | Raise e => Raised e
  end.

(** [Board()]: the class has no [__init__], the new instance binds nothing. *)
Definition Board_new : M nat := λ σ,
  let self := fresh (dom (instances σ)) in
  Done self {| arrays := arrays σ; instances := <[self := None]> (instances σ) |}.

(** [self.grid]: the instance attribute if there is one, else the class
    attribute. *)
Definition get_grid (self : nat) : M nat := λ σ,
  match instances σ !! self with
  | Some (Some a) => Done a σ
  | Some None => Done class_grid σ
  | None => Stuck
  end.

(** [self.grid = a] *)
Definition set_grid (self a : nat) : M unit := λ σ,
  match instances σ !! self with
  | Some _ =>
      Done () {| arrays := arrays σ; instances := <[self := Some a]> (instances σ) |}
  | None => Stuck
  end.

Definition read_array (a : nat) : M Grid := λ σ,
  match arrays σ !! a with
  | Some g => Done g σ
  | None => Stuck
  end.

Definition write_array (a : nat) (g : Grid) : M unit := λ σ,
  match arrays σ !! a with
  | Some _ => Done () {| arrays := <[a := g]> (arrays σ); instances := instances σ |}
  | None => Stuck
  end.

(** A new array holding [g]. *)
Definition new_array (g : Grid) : M nat := λ σ,
  let a := fresh (dom (arrays σ)) in
  Done a {| arrays := <[a := g]> (arrays σ); instances := instances σ |}.

(** [a.copy()] *)
Definition array_copy (a : nat) : M nat :=
  g ← read_array a; new_array g.

(** The grid a method of [self] works on. *)
Definition self_grid (self : nat) : M Grid :=
  a ← get_grid self; read_array a.

Definition copy (self : nat) : M nat :=
  new_board ← Board_new;
  a ← get_grid self;
  a' ← array_copy a;
  _ ← set_grid new_board a';
  mret new_board.

(** [add_disk] writes [self.grid] in place. *)
Definition add_disk (self : nat) (column player : Z) : M unit :=
  a ← get_grid self;
  g ← read_array a;
  g' ← lift (Board.add_disk g column player);
  write_array a g'.

Definition get_possible_moves (self : nat) : M (list Z) :=
  g ← self_grid self; mret (Board.get_possible_moves g).

Definition eval (self : nat) (player : Z) : M Z :=
  g ← self_grid self; mret (Board.eval g player).

Definition check_victory (self : nat) : M bool :=
  g ← self_grid self; mret (Board.check_victory g).

Definition column_filled (self : nat) (column : Z) : M bool :=
  g ← self_grid self; lift (Board.column_filled g column).

(** In store [σ] the observers of [self] answer as they do on grid [g]. *)
Definition observes (σ : Store) (self : nat) (g : Grid) : Prop :=
  get_possible_moves self σ = Done (Board.get_possible_moves g) σ
  ∧ (∀ player, eval self player σ = Done (Board.eval g player) σ)
  ∧ check_victory self σ = Done (Board.check_victory g) σ.

End Heap.

(* ===================================================================== *)
(** ** Boards used as examples *)
(* ===================================================================== *)

Module Fixtures.

(** Player 1 has just completed row 0, columns 0 to 3. *)
Definition won_row : Grid :=
  [ [1; 2; 0; 0; 0; 0]; [1; 2; 0; 0; 0; 0]; [1; 2; 0; 0; 0; 0];
    [1; 0; 0; 0; 0; 0]; [0; 0; 0; 0; 0; 0]; [0; 0; 0; 0; 0; 0];
    [0; 0; 0; 0; 0; 0] ].

(** Six disks in column 0. *)
Definition full_column : Grid :=
  [ [1; 2; 1; 2; 1; 2]; [0; 0; 0; 0; 0; 0]; [0; 0; 0; 0; 0; 0];
    [0; 0; 0; 0; 0; 0]; [0; 0; 0; 0; 0; 0]; [0; 0; 0; 0; 0; 0];
    [0; 0; 0; 0; 0; 0] ].

(** A full board without four in a row. *)
Definition drawn : Grid :=
  [ [1; 2; 1; 2; 1; 2]; [1; 2; 1; 2; 1; 2]; [2; 1; 2; 1; 2; 1];
    [2; 1; 2; 1; 2; 1]; [1; 2; 1; 2; 1; 2]; [1; 2; 1; 2; 1; 2];
    [2; 1; 2; 1; 2; 1] ].

(** The same board one disk earlier: only column 2 is open. *)
Definition one_left : Grid :=
  [ [1; 2; 1; 2; 1; 2]; [1; 2; 1; 2; 1; 2]; [2; 1; 2; 1; 2; 0];
    [2; 1; 2; 1; 2; 1]; [1; 2; 1; 2; 1; 2]; [1; 2; 1; 2; 1; 2];
    [2; 1; 2; 1; 2; 1] ].

End Fixtures.

(* ===================================================================== *)
(** ** Positions *)
(* ===================================================================== *)

Module Position.
Import Board Lines.

(** Every cell is empty or holds a disk of player 1 or 2. *)
Definition cells_ok (g : Grid) : Prop :=
  ∀ c r, cell g c r = 0 ∨ cell g c r = 1 ∨ cell g c r = 2.

(** The cells of the grid. *)
Definition grid_cells : list (nat * nat) :=
  c ← range 0 7; r ← range 0 6; [(c, r)].

(** How many cells hold [q]. *)
Definition disks_of (q : Z) (g : Grid) : nat :=
  length (filter (λ cr, cell g cr.1 cr.2 = q) grid_cells).

(** How many cells hold a disk. *)
Definition disks (g : Grid) : nat :=
  length (filter (λ cr, cell g cr.1 cr.2 ≠ 0) grid_cells).

(** A grid as alternate play from the empty grid leaves it: well shaped,
    under gravity, with disks of players 1 and 2 only, player 1 having
    played first. *)
Definition position_ok (g : Grid) : Prop :=
  shape_ok g ∧ gravity g ∧ cells_ok g
  ∧ disks_of 1 g = ((disks g + 1) / 2)%nat
  ∧ disks_of 2 g = (disks g / 2)%nat.

(** Every disk of [g] is still there in [g']. *)
Definition kept (g g' : Grid) : Prop :=
  ∀ c r, cell g c r ≠ 0 → cell g' c r = cell g c r.

(** Some window holds four disks of [q]. *)
Definition line_of (q : Z) (g : Grid) : Prop :=
  ∃ o c r, is_window o c r ∧ content g (cells o c r) = [q; q; q; q].

End Position.

Module Examples.

(** [Fixtures.won_row] before player 1's last disk. *)
Definition three_in_row : Grid :=
  [ [1; 2; 0; 0; 0; 0]; [1; 2; 0; 0; 0; 0]; [1; 2; 0; 0; 0; 0];
    [0; 0; 0; 0; 0; 0]; [0; 0; 0; 0; 0; 0]; [0; 0; 0; 0; 0; 0];
    [0; 0; 0; 0; 0; 0] ].

End Examples.

(* ===================================================================== *)
(** ** The board on the canvas *)
(* ===================================================================== *)

Module Gui.
Import Board.

(** [disk_color = ['white', 'red', 'orange']] *)
Inductive colour := White | Red | Orange.

Global Instance colour_eq_dec : EqDecision colour.
Proof. solve_decision. Defined.

Definition disk_color : list colour := [White; Red; Orange].

(** [l[i]] on a Python list: the index rule of [np_index]. *)
Definition list_index {A} (l : list A) (i : Z) : result A :=
  k ← np_index (length l) i;
  match l !! k with
  | Some x => Ok x
  | None => Raise IndexError
  end.

(** The module keeps the canvas items in [disks]: [disks[i][j]] is the oval
    of column [i], [j] places above the bottom one (the ovals of a column
    are created from the bottom of the screen up). What the program can
    change of an item is its fill colour. *)
Record World := mkWorld {
  grid : Grid;                   (* the array behind [game.board.grid] *)
  canvas : list (list colour)    (* fill of [disks[i][j]] *)
}.

(** A method runs to its end or an exception leaves it; either way it
    leaves a world behind. *)
Inductive run : Type :=
  | Returned (w : World)
  | Failed (e : exn) (w : World).

(** [canvas1.itemconfig(disks[i][j], fill=c)] *)
Definition itemconfig (cv : list (list colour)) (i j : nat) (c : colour)
    : list (list colour) :=
  alter (λ items, <[j := c]> items) i cv.

(** The fill of [disks[i][j]]. *)
Definition item (cv : list (list colour)) (i j : nat) : option colour :=
  items ← cv !! i; items !! j.

(** The value of [j] when the loop [for j in js] of [add_disk] is left:
    the row it broke at, or the last row of [js]. *)
Fixpoint loop_variable (g : Grid) (c : nat) (js : list nat) (j : nat) : nat :=
  match js with
  | [] => j
  | j' :: js' =>
      if bool_decide (cell g c j' = 0) then j'
      else loop_variable g c js' j'
  end.

(** [add_disk(column, player, update_display)]: the loop is
    [Board.add_disk]; with [update_display] the item [disks[column][j]] is
    then filled with [disk_color[player]]. *)
Definition add_disk (w : World) (column player : Z) (update_display : bool)
    : run :=
  match Board.add_disk (grid w) column player with
  | Raise e => Failed e w
  | Ok g' =>
      if update_display
      then
        match
          i ← np_index 7 column;                   (* disks[column] *)
          fill ← list_index disk_color player;     (* disk_color[player] *)
          Ok (itemconfig (canvas w) i
                (loop_variable (grid w) i (range 0 6) 0) fill)
        with
        | Ok cv => Returned {| grid := g'; canvas := cv |}
        | Raise e => Failed e {| grid := g'; canvas := canvas w |}
        end
      else Returned {| grid := g'; canvas := canvas w |}
  end.

(** [a.fill(v)] *)
Definition fill (g : Grid) (v : Z) : Grid :=
  (λ col : list Z, (λ _ : Z, v) <$> col) <$> g.

Definition reinit (w : World) : World :=
  let g := fill (grid w) 0 in
  let cv :=
    for_each (range 0 7) (canvas w) (λ i cv,
      for_each (range 0 6) cv (λ j cv,
        itemconfig cv i j White)) in             (* disk_color[0] *)
  {| grid := g; canvas := cv |}.

Definition canvas_ok (cv : list (list colour)) : Prop :=
  length cv = 7%nat ∧ Forall (λ items, length items = 6%nat) cv.

(** The canvas as the module draws it: [7] columns of [6] white ovals. *)
Definition blank : list (list colour) := replicate 7 (replicate 6 White).

(** The canvas shows the grid: every oval has the colour of its cell. *)
Definition shown (w : World) : Prop :=
  ∀ c r, (c < 7)%nat → (r < 6)%nat →
    ∃ fill, item (canvas w) c r = Some fill
            ∧ list_index disk_color (cell (grid w) c r) = Ok fill.

End Gui.

(* ===================================================================== *)
(** ** class Connect4 *)
(* ===================================================================== *)

Module Game.
Import Board AlphaBeta.

(** The label [information]: its colour and its text. *)
Inductive ink := DefaultInk | Black | RedInk.

Inductive message :=
  | NoText                         (* "" *)
  | Playing (turn player : Z)      (* "Turn t - Player p is playing" *)
  | Wins (player : Z)              (* "Player p wins !" *)
  | Draw.                          (* "This a draw !" *)

(** A search thread started by [ai_turn] that has not ended: the arguments
    [turn], [ai_level] and [max_player] it was started with, and whether
    the board has been left unwritten since. The thread reads the board of
    the game, not a copy, all along its search. *)
Record thread := mkThread {
  t_turn : Z;
  t_level : nat;
  t_player : Z;
  t_clean : bool
}.

(** The fields of the one [Connect4] object, the label, and what the event
    loop and the interpreter hold for it: the search threads that run, and
    the number of [window.after(100, self.ai_wait_for_move)] callbacks not
    yet run. [players] holds the two combobox indices: 0 is a human, [n]
    is the AI at depth [n]. [ai_move] is the queue, oldest move first. *)
Record Connect4 := mkGame {
  world : Gui.World;
  human_turn : bool;
  turn : Z;
  players : nat * nat;
  ai_move : list (option Z);
  threads : list thread;
  timers : nat;
  fg : ink;
  text : message
}.

(** What a callback leaves: the state, and the exception that escaped to
    the event loop, if any. *)
Abbreviation Outcome := (Connect4 * option exn)%type.

(** [Connect4()], before the first game. *)
Definition new_game : Connect4 :=
  {| world := {| Gui.grid := zeros; Gui.canvas := Gui.blank |};
     human_turn := false; turn := 0; players := (0, 0)%nat;
     ai_move := []; threads := []; timers := 0;
     fg := DefaultInk; text := NoText |}.

Definition current_player (s : Connect4) : Z := (turn s - 1) `mod` 2 + 1.

(** [self.players[self.current_player() - 1]] *)
Definition player_kind (s : Connect4) : nat :=
  if bool_decide (current_player s - 1 = 0) then (players s).1
  else (players s).2.

Definition set_world (w : Gui.World) (s : Connect4) : Connect4 :=
  mkGame w (human_turn s) (turn s) (players s) (ai_move s) (threads s)
    (timers s) (fg s) (text s).

Definition set_human_turn (b : bool) (s : Connect4) : Connect4 :=
  mkGame (world s) b (turn s) (players s) (ai_move s) (threads s)
    (timers s) (fg s) (text s).

Definition set_turn (t : Z) (s : Connect4) : Connect4 :=
  mkGame (world s) (human_turn s) t (players s) (ai_move s) (threads s)
    (timers s) (fg s) (text s).

Definition set_players (ps : nat * nat) (s : Connect4) : Connect4 :=
  mkGame (world s) (human_turn s) (turn s) ps (ai_move s) (threads s)
    (timers s) (fg s) (text s).

Definition set_ai_move (q : list (option Z)) (s : Connect4) : Connect4 :=
  mkGame (world s) (human_turn s) (turn s) (players s) q (threads s)
    (timers s) (fg s) (text s).

Definition set_threads (ts : list thread) (s : Connect4) : Connect4 :=
  mkGame (world s) (human_turn s) (turn s) (players s) (ai_move s) ts
    (timers s) (fg s) (text s).

Definition set_timers (n : nat) (s : Connect4) : Connect4 :=
  mkGame (world s) (human_turn s) (turn s) (players s) (ai_move s)
    (threads s) n (fg s) (text s).

Definition set_fg (c : ink) (s : Connect4) : Connect4 :=
  mkGame (world s) (human_turn s) (turn s) (players s) (ai_move s)
    (threads s) (timers s) c (text s).

Definition set_text (m : message) (s : Connect4) : Connect4 :=
  mkGame (world s) (human_turn s) (turn s) (players s) (ai_move s)
    (threads s) (timers s) (fg s) m.

(** *** The search threads

    A thread runs [alpha_beta_decision] on the board of the game and puts
    the move in the queue. The callbacks run one at a time in the event
    loop, a thread runs beside them and can end at any moment, also while
    a callback runs. *)

Definition spoil (th : thread) : thread :=
  mkThread (t_turn th) (t_level th) (t_player th) false.

(** [add_disk] and [reinit] of the board of the game, called by a callback:
    the board is written under the threads that run. *)
Definition board_written (w : Gui.World) (s : Connect4) : Connect4 :=
  set_threads (spoil <$> threads s) (set_world w s).

(** The running thread at place [i] ends. If the board was left unwritten
    while it ran, it has searched the grid as it is and puts the move of
    [alpha_beta_decision] (or raises with it and puts nothing). If not, it
    may have read any mix of the grids the board went through; what it
    does is then given by [answer]: [Some m] puts [m], [None] is an
    exception and nothing is put. *)
Definition thread_done (i : nat) (answer : option (option Z)) (s : Connect4)
    : Connect4 :=
  match threads s !! i with
  | None => s
  | Some th =>
      let s := set_threads (delete i (threads s)) s in
      let put :=
        if t_clean th
        then
          match
            alpha_beta_decision (Gui.grid (world s)) (t_turn th) (t_level th)
              (t_player th)
          with
          | Ok best_move => Some best_move
          | Raise _ => None
          end
        else answer in
      match put with
      | Some best_move => set_ai_move (ai_move s ++ [best_move]) s
      | None => s
      end
  end.

(** The end of a thread: its place among the running threads, and its
    answer. *)
Abbreviation ending := (nat * option (option Z))%type.

(** What the threads do while a callback runs: for each test of the queue
    by [ai_wait_for_move], in order, the threads that have ended since the
    test before (or since the callback began). A thread that ends after
    the last test of a callback is the event [ThreadDone] after it. *)
Abbreviation schedule := (list (list ending)).

Definition threads_end (l : list ending) (s : Connect4) : Connect4 :=
  foldl (λ s e, thread_done e.1 e.2 s) s l.

(** *** The methods

    [handle_turn], [ai_turn], [ai_wait_for_move] and [move] call one
    another. Their bodies are written with the call of [handle_turn] as a
    parameter, and with [ret] where a body returns; [R] is what a callback
    gives. *)
Section Methods.
Context {R : Type}.
Variable ret : Outcome → R.
Variable handle_turn : schedule → Connect4 → R.

Definition move_in (column : option Z) (sched : schedule) (s : Connect4)
    : R :=
  match column with
  | None =>
      (* grid[None] has one more axis, of length 1 *)
      ret (s, Some IndexError)
  | Some column =>
      match column_filled (Gui.grid (world s)) column with
      | Raise e => ret (s, Some e)
      | Ok true => ret (s, None)
      | Ok false =>
          match Gui.add_disk (world s) column (current_player s) true with
          | Gui.Failed e w => ret (board_written w s, Some e)
          | Gui.Returned w => handle_turn sched (board_written w s)
          end
      end
  end.

Definition ai_wait_for_move_in (sched : schedule) (s : Connect4) : R :=
  let s := threads_end (default [] (head sched)) s in
  match ai_move s with
  | [] => ret (set_timers (S (timers s)) s, None)
  | column :: queue => move_in column (tail sched) (set_ai_move queue s)
  end.

Definition ai_turn_in (ai_level : nat) (sched : schedule) (s : Connect4)
    : R :=
  let s :=
    set_threads
      (threads s ++ [mkThread (turn s) ai_level (current_player s) true])
      s in
  ai_wait_for_move_in sched s.

Definition handle_turn_in (sched : schedule) (s : Connect4) : R :=
  let s := set_human_turn false s in
  if check_victory (Gui.grid (world s))
  then
    let s := set_fg RedInk s in
    let s := set_text (Wins (current_player s)) s in
    ret (s, None)
  else if bool_decide (42 ≤ turn s)
  then
    let s := set_fg RedInk s in
    let s := set_text Draw s in
    ret (s, None)
  else
    let s := set_turn (turn s + 1) s in
    let s := set_text (Playing (turn s) (current_player s)) s in
    if bool_decide (player_kind s ≠ 0%nat)
    then
      let s := set_human_turn false s in
      ai_turn_in (player_kind s) sched s
    else ret (set_human_turn true s, None).

End Methods.

(** A call of [handle_turn] that leads to another has added 1 to a turn
    below 42, so from turn [t] the calls are at most [43 - t] deep.
    [handle_turn_from n] is [handle_turn] with calls at most [n + 1] deep,
    [None] if that is not enough; [handle_turn] gives it the depth its
    turn allows, which is enough ([handle_turn_returns] below), so the
    default is never taken. *)
Fixpoint handle_turn_from (n : nat) : schedule → Connect4 → option Outcome :=
  handle_turn_in Some
    (match n with
     | O => λ _ _, None
     | S n' => handle_turn_from n'
     end).

Definition handle_turn (sched : schedule) (s : Connect4) : Outcome :=
  default (s, None) (handle_turn_from (Z.to_nat (42 - turn s)) sched s).

Definition move : option Z → schedule → Connect4 → Outcome :=
  move_in id handle_turn.

Definition ai_wait_for_move : schedule → Connect4 → Outcome :=
  ai_wait_for_move_in id handle_turn.

Definition ai_turn : nat → schedule → Connect4 → Outcome :=
  ai_turn_in id handle_turn.

(** [row_width = width // 7] with [width = 700] *)
Definition row_width : Z := 700 `div` 7.

(** [click(event)], with [x] for [event.x]. *)
Definition click (x : Z) (sched : schedule) (s : Connect4) : Outcome :=
  if human_turn s
  then
    let column := x `div` row_width in
    move (Some column) sched s
  else (s, None).

(** [launch()], with [ps] for what the two comboboxes hold. *)
Definition launch (ps : nat * nat) (sched : schedule) (s : Connect4)
    : Outcome :=
  let s := board_written (Gui.reinit (world s)) s in
  let s := set_turn 0 s in
  let s := set_fg Black s in
  let s := set_text (Playing (turn s) (current_player s)) s in
  let s := set_human_turn false s in
  let s := set_players ps s in
  handle_turn sched s.

(** A callback scheduled by [window.after] comes due. *)
Definition timer (sched : schedule) (s : Connect4) : Outcome :=
  match timers s with
  | O => (s, None)
  | S n => ai_wait_for_move sched (set_timers n s)
  end.

(** *** The events

    What happens to the window: a click at [x], the button [New game]
    with the comboboxes at [ps], a timer coming due, each with what the
    threads do while the callback runs; and a thread ending between two
    callbacks. *)
Inductive event :=
  | Click (x : Z) (sched : schedule)
  | NewGame (ps : nat * nat) (sched : schedule)
  | Timer (sched : schedule)
  | ThreadDone (i : nat) (answer : option (option Z)).

Definition happens (e : event) (s : Connect4) : Outcome :=
  match e with
  | Click x sched => click x sched s
  | NewGame ps sched => launch ps sched s
  | Timer sched => timer sched s
  | ThreadDone i answer => (thread_done i answer s, None)
  end.

Definition step (e : event) (s : Connect4) : Connect4 := (happens e s).1.

(** The events [es] one after the other. *)
Definition play (es : list event) (s : Connect4) : Connect4 :=
  foldl (λ s e, step e s) s es.

(** The states the window can be in. *)
Inductive reachable : Connect4 → Prop :=
  | reachable_new : reachable new_game
  | reachable_step e s : reachable s → reachable (step e s).

(** Nothing is pending: no thread runs, the queue is empty, no timer is
    set. *)
Definition idle (s : Connect4) : Prop :=
  threads s = [] ∧ ai_move s = [] ∧ timers s = 0%nat.

(** [New game] does not stop a search that runs, nor its timer. The games
    in which it is only pressed when nothing is pending: before the first
    game, when a human is to click, or when a game is over. *)
Definition in_order (e : event) (s : Connect4) : Prop :=
  match e with
  | NewGame _ _ => idle s
  | _ => True
  end.

Inductive orderly : Connect4 → Prop :=
  | orderly_new : orderly new_game
  | orderly_step e s : orderly s → in_order e s → orderly (step e s).

(** *** The states of an orderly game

    While the game is on, the turn counter is one ahead of the disks and
    the label names the turn and the player; the game waits for a click,
    or for the search thread, or for the timer that will play the move the
    thread has put in the queue. *)
Definition awaiting_click (s : Connect4) : Prop :=
  human_turn s = true ∧ player_kind s = 0%nat ∧ idle s.

Definition searching (s : Connect4) : Prop :=
  human_turn s = false ∧ player_kind s ≠ 0%nat
  ∧ threads s
    = [mkThread (turn s) (player_kind s) (current_player s) true]
  ∧ ai_move s = [] ∧ timers s = 1%nat.

Definition move_found (s : Connect4) : Prop :=
  human_turn s = false ∧ player_kind s ≠ 0%nat
  ∧ threads s = []
  ∧ (∃ m, ai_move s = [Some m]
          ∧ alpha_beta_decision (Gui.grid (world s)) (turn s)
              (player_kind s) (current_player s) = Ok (Some m)
          ∧ m ∈ get_possible_moves (Gui.grid (world s)))
  ∧ timers s = 1%nat.

Definition in_play (s : Connect4) : Prop :=
  check_victory (Gui.grid (world s)) = false
  ∧ 1 ≤ turn s ≤ 42
  ∧ Z.of_nat (Position.disks (Gui.grid (world s))) = turn s - 1
  ∧ text s = Playing (turn s) (current_player s)
  ∧ fg s = Black
  ∧ (awaiting_click s ∨ searching s ∨ move_found s).

(** Once the game is over every disk has had its turn, nothing is pending,
    and the label names the player of the last turn, who has a line while
    the other has none, or a draw on a full board without a line. *)
Definition over (s : Connect4) : Prop :=
  human_turn s = false
  ∧ idle s
  ∧ fg s = RedInk
  ∧ 1 ≤ turn s ≤ 42
  ∧ Z.of_nat (Position.disks (Gui.grid (world s))) = turn s
  ∧ ((text s = Wins (current_player s)
      ∧ Position.line_of (current_player s) (Gui.grid (world s))
      ∧ ∀ q, q ≠ 0 → q ≠ current_player s
             → ¬ Position.line_of q (Gui.grid (world s)))
     ∨ (text s = Draw ∧ turn s = 42
        ∧ check_victory (Gui.grid (world s)) = false)).

(** The grid and the canvas are as the game can leave them. *)
Definition well_formed (w : Gui.World) : Prop :=
  shape_ok (Gui.grid w) ∧ gravity (Gui.grid w)
  ∧ Position.cells_ok (Gui.grid w)
  ∧ Gui.canvas_ok (Gui.canvas w) ∧ Gui.shown w.

(** Where [handle_turn] is called in an orderly game: nothing is pending,
    the board holds a disk for every turn so far, and a line on it was
    completed by the player of this turn. *)
Definition turn_played (s : Connect4) : Prop :=
  idle s ∧ fg s = Black
  ∧ Position.position_ok (Gui.grid (world s))
  ∧ Gui.canvas_ok (Gui.canvas (world s))
  ∧ Gui.shown (world s)
  ∧ 0 ≤ turn s ≤ 42
  ∧ Z.of_nat (Position.disks (Gui.grid (world s))) = turn s
  ∧ (check_victory (Gui.grid (world s)) = true →
     1 ≤ turn s
     ∧ Position.line_of (current_player s) (Gui.grid (world s))
     ∧ ∀ q, q ≠ 0 → q ≠ current_player s
            → ¬ Position.line_of q (Gui.grid (world s))).

(** Where [move] is called in an orderly game: nothing else is pending and
    the disk of this turn is still to be dropped. *)
Definition to_move (s : Connect4) : Prop :=
  idle s ∧ fg s = Black
  ∧ Position.position_ok (Gui.grid (world s))
  ∧ Gui.canvas_ok (Gui.canvas (world s))
  ∧ Gui.shown (world s)
  ∧ check_victory (Gui.grid (world s)) = false
  ∧ 1 ≤ turn s ≤ 42
  ∧ Z.of_nat (Position.disks (Gui.grid (world s))) = turn s - 1.

(** The player of the next turn is a human. *)
Definition human_next (s : Connect4) : Prop :=
  player_kind (set_turn (turn s + 1) s) = 0%nat.

(** A game has been launched. *)
Definition started (s : Connect4) : Prop :=
  Position.position_ok (Gui.grid (world s))
  ∧ Gui.canvas_ok (Gui.canvas (world s))
  ∧ Gui.shown (world s)
  ∧ (in_play s ∨ over s).

Definition invariant (s : Connect4) : Prop := s = new_game ∨ started s.

End Game.

(* ===================================================================== *)
(** ** Properties *)
(* ===================================================================== *)

Import Board AlphaBeta Lines Fixtures.

(** *** Order on scores *)

Lemma score_le_sle a b : score_le a b = true ↔ sle a b.
Proof. destruct a, b; simpl; rewrite ?bool_decide_eq_true; intuition congruence. Qed.

Lemma score_le_nsle a b : score_le a b = false ↔ ¬ sle a b.
Proof. rewrite <- score_le_sle. destruct (score_le a b); intuition congruence. Qed.

Lemma score_lt_slt a b : score_lt a b = true ↔ slt a b.
Proof. destruct a, b; simpl; rewrite ?bool_decide_eq_true; intuition congruence. Qed.

Lemma score_lt_nslt a b : score_lt a b = false ↔ ¬ slt a b.
Proof. rewrite <- score_lt_slt. destruct (score_lt a b); intuition congruence. Qed.

Lemma score_eq_same a b : a = b ↔ same_score a b.
Proof. destruct a, b; simpl; intuition congruence. Qed.

Lemma score_max_spec a b :
  (slt a b ∧ same_score (score_max a b) b)
  ∨ (¬ slt a b ∧ same_score (score_max a b) a).
Proof.
  unfold score_max. destruct (score_lt a b) eqn:H.
  - left. by rewrite <- score_lt_slt, <- score_eq_same.
  - right. by rewrite <- score_lt_nslt, <- score_eq_same.
Qed.

Lemma score_min_spec a b :
  (slt b a ∧ same_score (score_min a b) b)
  ∨ (¬ slt b a ∧ same_score (score_min a b) a).
Proof.
  unfold score_min. destruct (score_lt b a) eqn:H.
  - left. by rewrite <- score_lt_slt, <- score_eq_same.
  - right. by rewrite <- score_lt_nslt, <- score_eq_same.
Qed.

(** Goals about the order of a few scores: name [max] and [min] by what
    they satisfy, turn the comparisons into propositions, and go through
    the cases of each score. *)
Ltac score_solve :=
  intros;
  unfold within in *;
  repeat match goal with
         | |- context [score_max ?a ?b] =>
             pose proof (score_max_spec a b);
             generalize dependent (score_max a b); intros
         | |- context [score_min ?a ?b] =>
             pose proof (score_min_spec a b);
             generalize dependent (score_min a b); intros
         | H : context [score_max ?a ?b] |- _ =>
             pose proof (score_max_spec a b);
             generalize dependent (score_max a b); intros
         | H : context [score_min ?a ?b] |- _ =>
             pose proof (score_min_spec a b);
             generalize dependent (score_min a b); intros
         end;
  rewrite ?score_eq_same, ?score_le_sle, ?score_le_nsle,
    ?score_lt_slt, ?score_lt_nslt in *;
  repeat match goal with
         | H : _ ∧ _ |- _ => destruct H
         end;
  repeat match goal with
         | s : Score |- _ =>
             destruct s; cbn [sle slt same_score] in *; try contradiction
         end;
  lia.

Lemma score_le_refl a : score_le a a = true.
Proof. score_solve. Qed.

Lemma score_lt_of_not_le a b : score_le b a = false → score_lt a b = true.
Proof. score_solve. Qed.

(** *** The exception monad *)

Lemma bind_Ok {A B} (a : A) (f : A → result B) : (Ok a ≫= f) = f a.
Proof. reflexivity. Qed.

Lemma bind_Raise {A B} (e : exn) (f : A → result B) : (Raise e ≫= f) = Raise e.
Proof. reflexivity. Qed.

(** *** Moves *)

Lemma if_snoc {A} (b : bool) (l : list A) (x : A) :
  (if b then l ++ [x] else l) = l ++ (if b then [x] else []).
Proof. destruct b; [done | by rewrite app_nil_r]. Qed.

Lemma filter_cons_bool {A} (P : A → Prop) `{!∀ x, Decision (P x)} x l :
  filter P (x :: l) = (if bool_decide (P x) then [x] else []) ++ filter P l.
Proof. rewrite filter_cons. by case_bool_decide; case_decide. Qed.

Lemma get_possible_moves_filter g :
  get_possible_moves g
  = filter (λ c, cell g (Z.to_nat c) 5 = 0) [3; 4; 2; 5; 1; 6; 0].
Proof.
  unfold get_possible_moves, for_each, range.
  cbn [foldl seq Nat.sub Nat.add Z.of_nat Pos.of_succ_nat Pos.succ].
  rewrite !if_snoc, !filter_cons_bool, filter_nil.
  rewrite <- !app_assoc, app_nil_r. reflexivity.
Qed.

Lemma get_possible_moves_elem g m :
  m ∈ get_possible_moves g ↔ 0 ≤ m < 7 ∧ cell g (Z.to_nat m) 5 = 0.
Proof.
  rewrite get_possible_moves_filter, list_elem_of_filter.
  rewrite !elem_of_cons, elem_of_nil. split.
  - intros [H Hm]. split; [lia | done].
  - intros [Hm H]. split; [done | lia].
Qed.

Lemma store_int64_player p : p = 1 ∨ p = 2 → store_int64 p = Ok p.
Proof. intros [-> | ->]; reflexivity. Qed.

Lemma add_disk_rows_returns g c p js :
  store_int64 p = Ok p → ∃ g', add_disk_rows g c p js = Ok g'.
Proof.
  intros Hp. induction js as [|j js IH]; simpl; [eauto |].
  case_bool_decide; [| done]. rewrite Hp. simpl. eauto.
Qed.

Lemma np_index_in_range n i :
  0 ≤ i < Z.of_nat n → np_index n i = Ok (Z.to_nat i).
Proof. intros H. unfold np_index. by rewrite bool_decide_eq_true_2. Qed.

Lemma add_disk_returns g column p :
  0 ≤ column < 7 → store_int64 p = Ok p → ∃ g', add_disk g column p = Ok g'.
Proof.
  intros Hc Hp. unfold add_disk. rewrite np_index_in_range by lia.
  rewrite bind_Ok. by apply add_disk_rows_returns.
Qed.


(** *** Pruning *)

Section Pruning.
Variable rec_ab : Grid → Score → Score → result Outcome.
Variable rec_mm : Grid → result Outcome.
Variables (board : Grid) (p : Z).

Hypothesis rec_sound : ∀ child a b,
  score_lt a b = true →
  ∃ v m mm m', rec_ab child a b = Ok (v, m) ∧ rec_mm child = Ok (mm, m')
               ∧ within a b v mm.

Let playable (q : Z) (moves : list Z) : Prop :=
  Forall (λ mv, ∃ child, add_disk board mv q = Ok child) moves.

Lemma rec_mm_returns child : ∃ mm m', rec_mm child = Ok (mm, m').
Proof.
  destruct (rec_sound child NegInf PosInf eq_refl) as (v & m & mm & m' & _ & H & _).
  eauto.
Qed.

Lemma max_all_returns moves :
  playable p moves → ∀ M bestM,
  ∃ mm mmv, max_all rec_mm board p moves M bestM = Ok (mm, mmv)
            ∧ score_le M mm = true.
Proof.
  induction 1 as [|mv moves [child Hchild] _ IH]; intros M bestM; simpl.
  - eauto using score_le_refl.
  - rewrite Hchild, bind_Ok.
    destruct (rec_mm_returns child) as (c & m' & ->). rewrite bind_Ok.
    destruct (score_lt M c) eqn:Hlt.
    + destruct (IH c (Some mv)) as (mm & mmv & -> & Hle).
      exists mm, mmv. split; [done |]. revert Hlt Hle. clear. score_solve.
    + apply IH.
Qed.

Lemma min_all_returns moves :
  playable (3 - p) moves → ∀ M bestM,
  ∃ mm mmv, min_all rec_mm board p moves M bestM = Ok (mm, mmv)
            ∧ score_le mm M = true.
Proof.
  induction 1 as [|mv moves [child Hchild] _ IH]; intros M bestM; simpl.
  - eauto using score_le_refl.
  - rewrite Hchild, bind_Ok.
    destruct (rec_mm_returns child) as (c & m' & ->). rewrite bind_Ok.
    destruct (score_lt c M) eqn:Hlt.
    + destruct (IH c (Some mv)) as (mm & mmv & -> & Hle).
      exists mm, mmv. split; [done |]. revert Hlt Hle. clear. score_solve.
    + apply IH.
Qed.

(** The maximizing loop, entered with running maximum [m] and window
    [(a, beta)], against the exhaustive loop with running maximum [M];
    [alpha0] is the [alpha] the node was called with. *)
Lemma max_loop_within alpha0 beta moves :
  playable p moves → ∀ m best a M bestM,
  score_lt a beta = true →
  (a = alpha0 ∧ score_le m alpha0 = true ∧ score_le M m = true)
  ∨ (a = m ∧ score_lt alpha0 m = true ∧ M = m) →
  ∃ v mv mm mmv,
    max_loop rec_ab board p beta moves m best a = Ok (v, mv)
    ∧ max_all rec_mm board p moves M bestM = Ok (mm, mmv)
    ∧ within alpha0 beta v mm.
Proof.
  induction 1 as [|mv moves [child Hchild] Hmoves IH];
    intros m best a M bestM Hab Hinv; simpl.
  - exists m, best, M, bestM. split; [done |]. split; [done |].
    revert Hab Hinv. clear.
    intros Hab [(-> & H1 & H2) | (-> & H1 & ->)]; score_solve.
  - rewrite Hchild, !bind_Ok.
    destruct (rec_sound child a beta Hab) as (v & vm & c & cm & -> & -> & Hw).
    rewrite !bind_Ok.
    set (M' := if score_lt M c then c else M).
    set (m' := if score_lt m v then v else m).
    assert (∃ mm mmv bestM',
               (let '(max_value, best_move) :=
                  if score_lt M c then (c, Some mv) else (M, bestM) in
                max_all rec_mm board p moves max_value best_move)
               = max_all rec_mm board p moves M' bestM'
               ∧ max_all rec_mm board p moves M' bestM' = Ok (mm, mmv)
               ∧ score_le M' mm = true) as (mm & mmv & bestM' & -> & Hall & Hle).
    { subst M'. destruct (score_lt M c);
        [destruct (max_all_returns moves Hmoves c (Some mv)) as (mm & mmv & ? & ?)
        |destruct (max_all_returns moves Hmoves M bestM) as (mm & mmv & ? & ?)];
        eauto 10. }
    assert (∃ best',
               (let '(max_value, best_move) :=
                  if score_lt m v then (v, Some mv) else (m, best) in
                if score_le beta (score_max a v) then Ok (max_value, best_move)
                else max_loop rec_ab board p beta moves max_value best_move
                       (score_max a v))
               = if score_le beta (score_max a v) then Ok (m', best')
                 else max_loop rec_ab board p beta moves m' best'
                        (score_max a v)) as (best' & ->).
    { subst m'. destruct (score_lt m v); eauto. }
    destruct (score_le beta (score_max a v)) eqn:Hcut.
    + (* cutoff *)
      exists m', best', mm, mmv. split; [done |]. split; [done |].
      subst m' M'. revert Hab Hinv Hw Hcut Hle. clear.
      destruct (score_lt m v) eqn:Hmv; destruct (score_lt M c) eqn:HMc;
        intros Hab [(-> & H1 & H2) | (-> & H1 & ->)] (W1 & W2 & W3);
        score_solve.
    + destruct (IH m' best' (score_max a v) M' bestM') as (v1 & mv1 & mm1 & mmv1 & ? & ? & ?).
      * by apply score_lt_of_not_le.
      * subst m' M'. revert Hab Hinv Hw Hcut. clear.
        destruct (score_lt m v) eqn:Hmv; destruct (score_lt M c) eqn:HMc;
          intros Hab [(-> & H1 & H2) | (-> & H1 & ->)] (W1 & W2 & W3);
          score_solve.
      * exists v1, mv1, mm1, mmv1. split; [done |]. split; [congruence | done].
Qed.
(** The minimizing loop, symmetrically; [beta0] is the [beta] the node
    was called with. *)
Lemma min_loop_within alpha beta0 moves :
  playable (3 - p) moves → ∀ m best b M bestM,
  score_lt alpha b = true →
  (b = beta0 ∧ score_le beta0 m = true ∧ score_le m M = true)
  ∨ (b = m ∧ score_lt m beta0 = true ∧ M = m) →
  ∃ v mv mm mmv,
    min_loop rec_ab board p alpha moves m best b = Ok (v, mv)
    ∧ min_all rec_mm board p moves M bestM = Ok (mm, mmv)
    ∧ within alpha beta0 v mm.
Proof.
  induction 1 as [|mv moves [child Hchild] Hmoves IH];
    intros m best b M bestM Hab Hinv; simpl.
  - exists m, best, M, bestM. split; [done |]. split; [done |].
    revert Hab Hinv. clear.
    intros Hab [(-> & H1 & H2) | (-> & H1 & ->)]; score_solve.
  - rewrite Hchild, !bind_Ok.
    destruct (rec_sound child alpha b Hab) as (v & vm & c & cm & -> & -> & Hw).
    rewrite !bind_Ok.
    set (M' := if score_lt c M then c else M).
    set (m' := if score_lt v m then v else m).
    assert (∃ mm mmv bestM',
               (let '(min_value, best_move) :=
                  if score_lt c M then (c, Some mv) else (M, bestM) in
                min_all rec_mm board p moves min_value best_move)
               = min_all rec_mm board p moves M' bestM'
               ∧ min_all rec_mm board p moves M' bestM' = Ok (mm, mmv)
               ∧ score_le mm M' = true) as (mm & mmv & bestM' & -> & Hall & Hle).
    { subst M'. destruct (score_lt c M);
        [destruct (min_all_returns moves Hmoves c (Some mv)) as (mm & mmv & ? & ?)
        |destruct (min_all_returns moves Hmoves M bestM) as (mm & mmv & ? & ?)];
        eauto 10. }
    assert (∃ best',
               (let '(min_value, best_move) :=
                  if score_lt v m then (v, Some mv) else (m, best) in
                if score_le (score_min b v) alpha then Ok (min_value, best_move)
                else min_loop rec_ab board p alpha moves min_value best_move
                       (score_min b v))
               = if score_le (score_min b v) alpha then Ok (m', best')
                 else min_loop rec_ab board p alpha moves m' best'
                        (score_min b v)) as (best' & ->).
    { subst m'. destruct (score_lt v m); eauto. }
    destruct (score_le (score_min b v) alpha) eqn:Hcut.
    + (* cutoff *)
      exists m', best', mm, mmv. split; [done |]. split; [done |].
      subst m' M'. revert Hab Hinv Hw Hcut Hle. clear.
      destruct (score_lt v m) eqn:Hmv; destruct (score_lt c M) eqn:HMc;
        intros Hab [(-> & H1 & H2) | (-> & H1 & ->)] (W1 & W2 & W3);
        score_solve.
    + destruct (IH m' best' (score_min b v) M' bestM') as (v1 & mv1 & mm1 & mmv1 & ? & ? & ?).
      * by apply score_lt_of_not_le.
      * subst m' M'. revert Hab Hinv Hw Hcut. clear.
        destruct (score_lt v m) eqn:Hmv; destruct (score_lt c M) eqn:HMc;
          intros Hab [(-> & H1 & H2) | (-> & H1 & ->)] (W1 & W2 & W3);
          score_solve.
      * exists v1, mv1, mm1, mmv1. split; [done |]. split; [congruence | done].
Qed.
End Pruning.
(** *** Alpha-beta against exhaustive search *)

Lemma possible_moves_playable board q :
  store_int64 q = Ok q →
  Forall (λ mv, ∃ child, add_disk board mv q = Ok child)
    (get_possible_moves board).
Proof.
  intros Hq. apply Forall_forall. intros mv Hmv.
  apply get_possible_moves_elem in Hmv as [Hmv _].
  by apply add_disk_returns.
Qed.

Lemma within_leaf alpha beta v : within alpha beta v v.
Proof. unfold within. auto using score_le_refl. Qed.

Lemma alpha_beta_within turn p depth :
  store_int64 p = Ok p → store_int64 (3 - p) = Ok (3 - p) →
  ∀ board alpha beta maximizing_player,
  score_lt alpha beta = true →
  ∃ v m mm m',
    alpha_beta board turn depth alpha beta p maximizing_player = Ok (v, m)
    ∧ minimax board turn depth p maximizing_player = Ok (mm, m')
    ∧ within alpha beta v mm.
Proof.
  intros Hp Hq.
  induction depth as [|depth IH]; intros board alpha beta mx Hab; simpl.
  - destruct (get_possible_moves board) as [|m1 [|m2 l]];
      eauto 10 using within_leaf.
  - pose proof (possible_moves_playable board p Hp) as Hmax.
    pose proof (possible_moves_playable board (3 - p) Hq) as Hmin.
    destruct (get_possible_moves board) as [|m1 [|m2 l]] eqn:Hmoves;
      [| by eauto 10 using within_leaf |];
      (destruct (check_victory board); [by eauto 10 using within_leaf |]);
      destruct mx.
    all: first
      [ apply (max_loop_within _ _ board p
                 (λ child a b Hlt, IH child a b false Hlt)
                 alpha beta _ Hmax NegInf None alpha NegInf None Hab);
        left; split; [done |]; split; reflexivity
      | apply (min_loop_within _ _ board p
                 (λ child a b Hlt, IH child a b true Hlt)
                 alpha beta _ Hmin PosInf None beta PosInf None Hab);
        left; split; [done |]; split; [| reflexivity]; clear; score_solve ].
Qed.

(** C1. Started with the window (-inf, +inf), alpha-beta returns the score
    of the exhaustive minimax (same move order, terminal cases and
    tie-break), for every board, depth and player 1 or 2; both searches
    return. *)
Theorem alpha_beta_root_score_exhaustive board turn depth p :
  p = 1 ∨ p = 2 →
  ∃ score move move',
    alpha_beta board turn depth NegInf PosInf p true = Ok (score, move)
    ∧ minimax board turn depth p true = Ok (score, move').
Proof.
  intros Hp.
  destruct (alpha_beta_within turn p depth) with (board := board)
    (alpha := NegInf) (beta := PosInf) (maximizing_player := true)
    as (v & m & mm & m' & Hab & Hmm & Hw);
    [by apply store_int64_player | apply store_int64_player; lia | done |].
  exists v, m, m'. split; [done |]. rewrite Hmm. do 2 f_equal.
  revert Hw. clear. score_solve.
Qed.

Lemma alpha_beta_root_score_exhaustive_witness :
  (1 = 1 ∨ 1 = 2)
  ∧ ∃ score move move',
      alpha_beta zeros 1 3 NegInf PosInf 1 true = Ok (score, move)
      ∧ minimax zeros 1 3 1 true = Ok (score, move').
Proof.
  split; [by left |].
  apply (alpha_beta_root_score_exhaustive zeros 1 3 1). by left.
Defined.

(** *** The moves of a board *)

Lemma column_filled_in_range g c :
  0 ≤ c < 7 →
  column_filled g c = Ok (bool_decide (cell g (Z.to_nat c) 5 ≠ 0)).
Proof. intros Hc. unfold column_filled. by rewrite np_index_in_range by lia. Qed.

Lemma column_filled_false g c :
  0 ≤ c < 7 → column_filled g c = Ok false ↔ cell g (Z.to_nat c) 5 = 0.
Proof.
  intros Hc. rewrite column_filled_in_range by done.
  case_bool_decide; split; intros ?; first [done | congruence | lia].
Qed.

Lemma column_filled_true g c :
  0 ≤ c < 7 → column_filled g c = Ok true ↔ cell g (Z.to_nat c) 5 ≠ 0.
Proof.
  intros Hc. rewrite column_filled_in_range by done.
  case_bool_decide; split; intros ?; first [done | congruence | lia].
Qed.

Lemma filter_nil_Forall {A} (P : A → Prop) `{!∀ x, Decision (P x)} l :
  filter P l = [] ↔ Forall (λ x, ¬ P x) l.
Proof.
  induction l as [|x l IH]; [by rewrite filter_nil |].
  rewrite filter_cons, Forall_cons. case_decide; [split; [done | tauto] | tauto].
Qed.

Lemma filter_only {A} (P : A → Prop) `{!∀ x, Decision (P x)} l x :
  NoDup l → x ∈ l → P x → (∀ y, y ∈ l → y ≠ x → ¬ P y) → filter P l = [x].
Proof.
  induction 1 as [|y l Hy Hl IH]; intros Hx HP Hothers.
  - by apply elem_of_nil in Hx.
  - rewrite filter_cons. apply elem_of_cons in Hx as [<- | Hx].
    + rewrite decide_True by done. f_equal.
      apply (proj2 (filter_nil_Forall P l)), Forall_forall. intros z Hz. apply Hothers.
      * by right.
      * intros ->. done.
    + rewrite decide_False.
      * apply IH; [done | done |]. intros z Hz. apply Hothers. by right.
      * apply Hothers; [by left |]. intros ->. done.
Qed.

Lemma center_out_NoDup : NoDup [3; 4; 2; 5; 1; 6; 0].
Proof. apply (bool_decide_unpack _). by vm_compute. Qed.

Lemma center_out_elem c : c ∈ [3; 4; 2; 5; 1; 6; 0] ↔ 0 ≤ c < 7.
Proof. rewrite !elem_of_cons, elem_of_nil. lia. Qed.

Lemma get_possible_moves_single g c :
  0 ≤ c < 7 → column_filled g c = Ok false →
  (∀ c', 0 ≤ c' < 7 → c' ≠ c → column_filled g c' = Ok true) →
  get_possible_moves g = [c].
Proof.
  intros Hc Hfree Hfull. rewrite get_possible_moves_filter.
  apply filter_only.
  - apply center_out_NoDup.
  - by apply center_out_elem.
  - by apply column_filled_false.
  - intros c' Hc' Hne. apply center_out_elem in Hc'.
    by apply column_filled_true, Hfull.
Qed.

(** C2. On a board with exactly one non-full column, alpha_beta returns
    the evaluation of that board for the player and that column, whatever
    the depth (0 included), the window, the player and the side to move,
    and whether or not the board holds a victory. *)
Theorem alpha_beta_single_move board turn depth alpha beta p maximizing c :
  0 ≤ c < 7 →
  column_filled board c = Ok false →
  (∀ c', 0 ≤ c' < 7 → c' ≠ c → column_filled board c' = Ok true) →
  alpha_beta board turn depth alpha beta p maximizing
  = Ok (Fin (eval board p), Some c).
Proof.
  intros Hc Hfree Hfull.
  pose proof (get_possible_moves_single board c Hc Hfree Hfull) as Hmoves.
  destruct depth; simpl; by rewrite Hmoves.
Qed.

(** C7. The legal moves are the columns whose top cell (row 5) is empty,
    in the order 3, 4, 2, 5, 1, 6, 0; none of them is a full column; the
    list is empty exactly when all seven columns are full. *)
Theorem get_possible_moves_center_out g :
  get_possible_moves g
  = filter (λ c, cell g (Z.to_nat c) 5 = 0) [3; 4; 2; 5; 1; 6; 0]
  ∧ (∀ c, c ∈ get_possible_moves g → column_filled g c = Ok false)
  ∧ (get_possible_moves g = []
     ↔ ∀ c, 0 ≤ c < 7 → column_filled g c = Ok true).
Proof.
  split; [apply get_possible_moves_filter |]. split.
  - intros c Hc. apply get_possible_moves_elem in Hc as [Hc H0].
    by apply column_filled_false.
  - rewrite get_possible_moves_filter, filter_nil_Forall, Forall_forall.
    split.
    + intros H c Hc. apply column_filled_true; [done |].
      by apply H, center_out_elem.
    + intros H c Hc. apply center_out_elem in Hc.
      by apply column_filled_true, H.
Qed.

(** *** Reading and writing cells *)

Lemma cell_set_cell_other_column g c j v c' r :
  c' ≠ c → cell (set_cell g c j v) c' r = cell g c' r.
Proof.
  intros Hne. unfold cell, set_cell. by rewrite list_lookup_alter_ne.
Qed.

Lemma cell_set_cell_other_row g c j v r :
  r ≠ j → cell (set_cell g c j v) c r = cell g c r.
Proof.
  intros Hne. unfold cell, set_cell. rewrite list_lookup_alter_eq.
  destruct (g !! c) as [col|]; simpl; [| done].
  by rewrite list_lookup_insert_ne.
Qed.

Lemma cell_set_cell_other g c j v c' r :
  (c', r) ≠ (c, j) → cell (set_cell g c j v) c' r = cell g c' r.
Proof.
  intros Hne. destruct (decide (c' = c)) as [-> |].
  - apply cell_set_cell_other_row. congruence.
  - by apply cell_set_cell_other_column.
Qed.

Lemma shape_ok_column g c :
  shape_ok g → (c < 7)%nat → ∃ col, g !! c = Some col ∧ length col = 6%nat.
Proof.
  intros [Hlen Hcols] Hc.
  destruct (lookup_lt_is_Some_2 g c) as [col Hcol]; [lia |].
  exists col. split; [done |].
  by apply (Forall_lookup_1 _ _ _ _ Hcols Hcol).
Qed.

Lemma cell_set_cell_same g c j v :
  shape_ok g → (c < 7)%nat → (j < 6)%nat → cell (set_cell g c j v) c j = v.
Proof.
  intros Hg Hc Hj. destruct (shape_ok_column g c Hg Hc) as (col & Hcol & Hlen).
  unfold cell, set_cell. rewrite list_lookup_alter_eq, Hcol. simpl.
  by rewrite list_lookup_insert_eq by lia.
Qed.

Lemma shape_ok_set_cell g c j v : shape_ok g → shape_ok (set_cell g c j v).
Proof.
  intros [Hlen Hcols]. unfold set_cell. split.
  - by rewrite length_alter.
  - apply Forall_alter; [done |]. intros col _ Hcol.
    by rewrite length_insert.
Qed.

(** *** What add_disk does *)

Lemma store_int64_value p v : store_int64 p = Ok v → v = p.
Proof. unfold store_int64. case_bool_decide; congruence. Qed.

(** The loop either finds no empty row and leaves the grid alone, or
    writes the player into the first empty row of [js]. *)
Lemma add_disk_rows_result g c p js g' :
  add_disk_rows g c p js = Ok g' →
  (Forall (λ r, cell g c r ≠ 0) js ∧ g' = g)
  ∨ (∃ pre j post, js = pre ++ j :: post
       ∧ Forall (λ r, cell g c r ≠ 0) pre ∧ cell g c j = 0
       ∧ g' = set_cell g c j p).
Proof.
  induction js as [|j js IH]; simpl.
  - intros [= <-]. left. by split.
  - case_bool_decide as Hj.
    + destruct (store_int64 p) as [v|e] eqn:Hv; [| done].
      rewrite bind_Ok. intros [= <-]. apply store_int64_value in Hv as ->.
      right. exists [], j, js. by repeat split.
    + intros Hrun. destruct (IH Hrun) as [[Hall ->] | (pre & j' & post & -> & Hpre & Hj' & ->)].
      * left. split; [by constructor | done].
      * right. exists (j :: pre), j', post. repeat split; [by constructor | done].
Qed.

Lemma add_disk_rows_none g c p js :
  Forall (λ r, cell g c r ≠ 0) js → add_disk_rows g c p js = Ok g.
Proof.
  induction 1 as [|j js Hj _ IH]; simpl; [done |].
  by rewrite bool_decide_eq_false_2.
Qed.

Lemma add_disk_frame g column p g' :
  0 ≤ column < 7 → add_disk g column p = Ok g' →
  ∀ c r, c ≠ Z.to_nat column → cell g' c r = cell g c r.
Proof.
  intros Hc. unfold add_disk. rewrite np_index_in_range, bind_Ok by lia.
  intros Hrun c r Hne.
  destruct (add_disk_rows_result _ _ _ _ _ Hrun)
    as [[_ ->] | (pre & j & post & _ & _ & _ & ->)]; [done |].
  by apply cell_set_cell_other_column.
Qed.

Lemma no_possible_moves g :
  (∀ c, 0 ≤ c < 7 → column_filled g c = Ok true) → get_possible_moves g = [].
Proof.
  intros H. rewrite get_possible_moves_filter.
  apply filter_nil_Forall, Forall_forall. intros c Hc.
  apply center_out_elem in Hc. by apply column_filled_true, H.
Qed.

(** *** The search proposes a move *)

Lemma get_possible_moves_NoDup g : NoDup (get_possible_moves g).
Proof. rewrite get_possible_moves_filter. apply NoDup_filter, center_out_NoDup. Qed.

Lemma child_has_move board m1 m2 l mv q child :
  get_possible_moves board = m1 :: m2 :: l →
  mv ∈ get_possible_moves board →
  add_disk board mv q = Ok child →
  get_possible_moves child ≠ [].
Proof.
  intros Hmoves Hmv Hchild.
  pose proof (get_possible_moves_NoDup board) as Hnd. rewrite Hmoves in Hnd.
  assert (∃ m', m' ∈ get_possible_moves board ∧ m' ≠ mv) as (m' & Hm' & Hne).
  { rewrite Hmoves. destruct (decide (m1 = mv)) as [<- |].
    - exists m2. split; [set_solver |]. intros ->.
      apply NoDup_cons in Hnd as [Hnd _]. set_solver.
    - exists m1. split; [set_solver | done]. }
  apply get_possible_moves_elem in Hmv as [Hmv _].
  apply get_possible_moves_elem in Hm' as [Hm' H0].
  assert (m' ∈ get_possible_moves child) as Hin.
  { apply get_possible_moves_elem. split; [done |].
    rewrite (add_disk_frame board mv q child Hmv Hchild); [done | lia]. }
  intros Hnil. rewrite Hnil in Hin. by apply elem_of_nil in Hin.
Qed.

Section Proposes.
Variable rec : Grid → Score → Score → result Outcome.
Variables (board : Grid) (p : Z).

Let finite_children (q : Z) (moves : list Z) : Prop :=
  Forall (λ mv, ∃ child, add_disk board mv q = Ok child
                         ∧ ∀ a b, ∃ z m, rec child a b = Ok (Fin z, m)) moves.

Lemma max_loop_keeps_move beta moves :
  finite_children p moves → ∀ z0 mv0 a,
  ∃ z mv, max_loop rec board p beta moves (Fin z0) (Some mv0) a
          = Ok (Fin z, Some mv).
Proof.
  induction 1 as [|m moves (child & Hchild & Hrec) _ IH]; intros z0 mv0 a; simpl.
  - eauto.
  - rewrite Hchild, bind_Ok. destruct (Hrec a beta) as (z & vm & ->).
    rewrite bind_Ok. simpl.
    case_bool_decide; destruct (score_le beta (score_max a (Fin z))); eauto.
Qed.

Lemma max_loop_proposes beta moves a :
  finite_children p moves → moves ≠ [] →
  ∃ z mv, max_loop rec board p beta moves NegInf None a = Ok (Fin z, Some mv).
Proof.
  intros Hmoves Hne. destruct Hmoves as [|m moves (child & Hchild & Hrec) Hmoves];
    [done |]. simpl.
  rewrite Hchild, bind_Ok. destruct (Hrec a beta) as (z & vm & ->).
  rewrite bind_Ok. simpl.
  destruct (score_le beta (score_max a (Fin z))); [eauto |].
  by apply max_loop_keeps_move.
Qed.

Lemma min_loop_keeps_move alpha moves :
  finite_children (3 - p) moves → ∀ z0 mv0 b,
  ∃ z mv, min_loop rec board p alpha moves (Fin z0) (Some mv0) b
          = Ok (Fin z, Some mv).
Proof.
  induction 1 as [|m moves (child & Hchild & Hrec) _ IH]; intros z0 mv0 b; simpl.
  - eauto.
  - rewrite Hchild, bind_Ok. destruct (Hrec alpha b) as (z & vm & ->).
    rewrite bind_Ok. simpl.
    case_bool_decide; destruct (score_le (score_min b (Fin z)) alpha); eauto.
Qed.

Lemma min_loop_proposes alpha moves b :
  finite_children (3 - p) moves → moves ≠ [] →
  ∃ z mv, min_loop rec board p alpha moves PosInf None b = Ok (Fin z, Some mv).
Proof.
  intros Hmoves Hne. destruct Hmoves as [|m moves (child & Hchild & Hrec) Hmoves];
    [done |]. simpl.
  rewrite Hchild, bind_Ok. destruct (Hrec alpha b) as (z & vm & ->).
  rewrite bind_Ok. simpl.
  destruct (score_le (score_min b (Fin z)) alpha); [eauto |].
  by apply min_loop_keeps_move.
Qed.
End Proposes.

Lemma children_have_moves board q m1 m2 l :
  get_possible_moves board = m1 :: m2 :: l → store_int64 q = Ok q →
  Forall (λ mv, ∃ child, add_disk board mv q = Ok child
                         ∧ get_possible_moves child ≠ []) (m1 :: m2 :: l).
Proof.
  intros Hmoves Hstore. apply Forall_forall. intros mv Hmv.
  rewrite <- Hmoves in Hmv.
  destruct (add_disk_returns board mv q) as [child Hchild]; [| done |].
  - by apply get_possible_moves_elem in Hmv as [? _].
  - exists child. split; [done |]. by eapply child_has_move.
Qed.

Lemma alpha_beta_S board turn depth alpha beta p maximizing :
  alpha_beta board turn (S depth) alpha beta p maximizing
  = match get_possible_moves board with
    | [only_move] => Ok (Fin (eval board p), Some only_move)
    | possible_moves =>
        if check_victory board
        then Ok (Fin (eval board p), None)
        else if maximizing
        then max_loop (λ child a b, alpha_beta child turn depth a b p false)
               board p beta possible_moves NegInf None alpha
        else min_loop (λ child a b, alpha_beta child turn depth a b p true)
               board p alpha possible_moves PosInf None beta
    end.
Proof. simpl. by destruct (get_possible_moves board) as [|m1 [|m2 l]]. Qed.

Lemma alpha_beta_finite turn p depth :
  store_int64 p = Ok p → store_int64 (3 - p) = Ok (3 - p) →
  ∀ board alpha beta maximizing,
  get_possible_moves board ≠ [] →
  ∃ z m, alpha_beta board turn depth alpha beta p maximizing = Ok (Fin z, m).
Proof.
  intros Hp Hq. induction depth as [|depth IH];
    intros board alpha beta mx Hne.
  - simpl. destruct (get_possible_moves board) as [|m1 [|m2 l]]; eauto.
  - rewrite alpha_beta_S.
    destruct (get_possible_moves board) as [|m1 [|m2 l]] eqn:Hmoves;
      [done | by eauto |].
    destruct (check_victory board); [by eauto |]. cbv zeta.
    destruct mx.
    + destruct (max_loop_proposes
                  (λ child a b, alpha_beta child turn depth a b p false)
                  board p beta (m1 :: m2 :: l) alpha) as (z & mv & ->);
        [| done | by eauto].
      eapply Forall_impl; [apply (children_have_moves board p _ _ _ Hmoves Hp) |].
      intros mv (child & Hchild & Hmv). eauto.
    + destruct (min_loop_proposes
                  (λ child a b, alpha_beta child turn depth a b p true)
                  board p alpha (m1 :: m2 :: l) beta) as (z & mv & ->);
        [| done | by eauto].
      eapply Forall_impl; [apply (children_have_moves board (3 - p) _ _ _ Hmoves Hq) |].
      intros mv (child & Hchild & Hmv). eauto.
Qed.

(** C3 (amended). At a depth from 1 to 42 and for player 1 or 2, the
    top-level search proposes a move on every board that is not full and
    either holds no victory or has a single legal move; on a full board it
    returns a score and no move, without raising; on a board that already
    holds a victory and has not exactly one legal move it returns the
    evaluation and no move. *)
Theorem alpha_beta_root_move board turn depth p :
  p = 1 ∨ p = 2 → (1 ≤ depth ≤ 42)%nat →
  ((∃ c, 0 ≤ c < 7 ∧ column_filled board c = Ok false) →
   check_victory board = false
   ∨ length (get_possible_moves board) = 1%nat →
   ∃ score move,
     alpha_beta board turn depth NegInf PosInf p true = Ok (score, Some move))
  ∧ ((∀ c, 0 ≤ c < 7 → column_filled board c = Ok true) →
     ∃ score,
       alpha_beta board turn depth NegInf PosInf p true = Ok (score, None))
  ∧ (check_victory board = true →
     length (get_possible_moves board) ≠ 1%nat →
     alpha_beta board turn depth NegInf PosInf p true
     = Ok (Fin (eval board p), None)).
Proof.
  intros Hp Hdepth.
  assert (store_int64 p = Ok p) as Hsp by by apply store_int64_player.
  assert (store_int64 (3 - p) = Ok (3 - p)) as Hsq
    by (apply store_int64_player; lia).
  destruct depth as [|depth]; [lia |]. rewrite alpha_beta_S.
  split; [| split].
  - intros (c & Hc & Hfree) Hplay.
    assert (c ∈ get_possible_moves board) as Hin.
    { apply get_possible_moves_elem. split; [done |].
      by apply column_filled_false. }
    destruct (get_possible_moves board) as [|m1 [|m2 l]] eqn:Hmoves.
    + by apply elem_of_nil in Hin.
    + eauto.
    + destruct Hplay as [-> | Hlen]; [| done]. cbv zeta.
      destruct (max_loop_proposes
                  (λ child a b, alpha_beta child turn depth a b p false)
                  board p PosInf (m1 :: m2 :: l) NegInf) as (z & mv & ->);
        [| done | by eauto].
      eapply Forall_impl; [apply (children_have_moves board p _ _ _ Hmoves Hsp) |].
      intros mv (child & Hchild & Hmv). exists child. split; [done |].
      intros a b. by apply alpha_beta_finite.
  - intros Hfull.
    assert (get_possible_moves board = []) as ->.
    { apply no_possible_moves. done. }
    destruct (check_victory board); simpl; eauto.
  - intros -> Hlen.
    by destruct (get_possible_moves board) as [|m1 [|m2 l]].
Qed.

(** *** Witnesses and counterexample for the search claims *)

Lemma alpha_beta_single_move_witness :
  0 ≤ 2 < 7
  ∧ column_filled one_left 2 = Ok false
  ∧ (∀ c', 0 ≤ c' < 7 → c' ≠ 2 → column_filled one_left c' = Ok true)
  ∧ alpha_beta one_left 42 0 NegInf PosInf 1 true
    = Ok (Fin (eval one_left 1), Some 2).
Proof.
  assert (∀ c', 0 ≤ c' < 7 → c' ≠ 2 → column_filled one_left c' = Ok true)
    as Hfull.
  { intros c' Hc' Hne.
    assert (c' = 0 ∨ c' = 1 ∨ c' = 3 ∨ c' = 4 ∨ c' = 5 ∨ c' = 6)
      as [-> | [-> | [-> | [-> | [-> | ->]]]]] by lia; reflexivity. }
  split; [lia |]. split; [reflexivity |]. split; [exact Hfull |].
  apply (alpha_beta_single_move one_left 42 0 NegInf PosInf 1 true 2);
    [lia | reflexivity | exact Hfull].
Defined.

(** C3, as stated, fails: this board is not full (column 3 is open), the
    depth is 1 and the player is 2, yet the search returns no move,
    because the board already holds a victory. *)
Lemma alpha_beta_root_move_counterexample :
  column_filled won_row 3 = Ok false
  ∧ alpha_beta won_row 8 1 NegInf PosInf 2 true = Ok (Fin (-10001), None).
Proof. split; reflexivity. Qed.

Lemma alpha_beta_root_move_witness :
  (1 = 1 ∨ 1 = 2) ∧ (1 ≤ 2 ≤ 42)%nat
  ∧ (∃ score move,
       alpha_beta zeros 1 2 NegInf PosInf 1 true = Ok (score, Some move))
  ∧ (∃ score, alpha_beta drawn 42 2 NegInf PosInf 1 true = Ok (score, None))
  ∧ alpha_beta won_row 8 2 NegInf PosInf 1 true
    = Ok (Fin (eval won_row 1), None).
Proof.
  split; [by left |]. split; [lia |].
  split; [| split].
  - apply (alpha_beta_root_move zeros 1 2 1); [by left | lia | | by left].
    exists 3. split; [lia | reflexivity].
  - apply (alpha_beta_root_move drawn 42 2 1); [by left | lia |].
    intros c Hc.
    assert (c = 0 ∨ c = 1 ∨ c = 2 ∨ c = 3 ∨ c = 4 ∨ c = 5 ∨ c = 6)
      as [-> | [-> | [-> | [-> | [-> | [-> | ->]]]]]] by lia; reflexivity.
  - apply (alpha_beta_root_move won_row 8 2 1);
      [by left | lia | reflexivity | by vm_compute].
Defined.

(** *** Dropping a disk *)

Lemma np_index_lt n i c : np_index n i = Ok c → (c < n)%nat.
Proof.
  unfold np_index. repeat case_bool_decide; intros [= <-]; lia.
Qed.

(** Under gravity, an occupied top cell means an occupied column. *)
Lemma gravity_full_column g c :
  gravity g → (c < 7)%nat → cell g c 5 ≠ 0 →
  Forall (λ r, cell g c r ≠ 0) (range 0 6).
Proof.
  intros Hg Hc H5.
  assert (cell g c 4 ≠ 0) as H4 by (intros H; apply H5, Hg; [done | lia | done]).
  assert (cell g c 3 ≠ 0) as H3 by (intros H; apply H4, Hg; [done | lia | done]).
  assert (cell g c 2 ≠ 0) as H2 by (intros H; apply H3, Hg; [done | lia | done]).
  assert (cell g c 1 ≠ 0) as H1 by (intros H; apply H2, Hg; [done | lia | done]).
  assert (cell g c 0 ≠ 0) as H0 by (intros H; apply H1, Hg; [done | lia | done]).
  unfold range. simpl. repeat constructor; done.
Qed.

(** C8 (amended). On a full column add_disk raises nothing: on a board
    that respects gravity it returns with the grid unchanged, whatever the
    player; on any board it returns for player 1 or 2. *)
Theorem add_disk_full_column g column player :
  column_filled g column = Ok true →
  (gravity g → add_disk g column player = Ok g)
  ∧ (player = 1 ∨ player = 2 → ∃ g', add_disk g column player = Ok g').
Proof.
  unfold column_filled, add_disk.
  destruct (np_index 7 column) as [c|e] eqn:Hc; [| done].
  rewrite !bind_Ok. intros [= Hfull%bool_decide_eq_true]. split.
  - intros Hg. apply add_disk_rows_none, gravity_full_column; [done | | done].
    by apply np_index_lt in Hc.
  - intros Hp. by apply add_disk_rows_returns, store_int64_player.
Qed.

Lemma gravity_full_column_fixture : gravity full_column.
Proof.
  intros c r Hc Hr.
  do 7 (destruct c as [|c]; [do 5 (destruct r as [|r]; [by vm_compute |]); lia |]).
  lia.
Defined.

Lemma add_disk_full_column_witness :
  column_filled full_column 0 = Ok true
  ∧ gravity full_column
  ∧ add_disk full_column 0 1 = Ok full_column.
Proof.
  split; [reflexivity |]. split; [apply gravity_full_column_fixture |].
  apply (add_disk_full_column full_column 0 1);
    [reflexivity | apply gravity_full_column_fixture].
Defined.

(** C8, as stated, fails: column 0 of this board is full and add_disk
    returns, with the grid unchanged, instead of raising. *)
Lemma add_disk_full_column_counterexample :
  column_filled full_column 0 = Ok true
  ∧ ¬ (∃ e, add_disk full_column 0 1 = Raise e).
Proof. split; [reflexivity |]. intros [e He]. vm_compute in He. discriminate. Qed.

Lemma length_filter_ext_in {A} (P Q : A → Prop)
    `{!∀ x, Decision (P x), !∀ x, Decision (Q x)} l :
  (∀ y, y ∈ l → (P y ↔ Q y)) → length (filter Q l) = length (filter P l).
Proof.
  induction l as [|y l IH]; intros Hext; [done |].
  rewrite !filter_cons.
  assert (P y ↔ Q y) as Hy by (apply Hext; by left).
  assert (length (filter Q l) = length (filter P l)) as Hl
    by (apply IH; intros z Hz; apply Hext; by right).
  repeat case_decide; simpl; try tauto; by rewrite Hl.
Qed.

Lemma length_filter_one_more {A} (P Q : A → Prop)
    `{!∀ x, Decision (P x), !∀ x, Decision (Q x)} l x :
  NoDup l → x ∈ l → ¬ P x → Q x →
  (∀ y, y ∈ l → y ≠ x → (P y ↔ Q y)) →
  length (filter Q l) = S (length (filter P l)).
Proof.
  induction 1 as [|y l Hy Hl IH]; intros Hx HP HQ Hrest.
  - by apply elem_of_nil in Hx.
  - rewrite !filter_cons. apply elem_of_cons in Hx as [<- | Hx].
    + rewrite decide_True, decide_False by done. simpl. f_equal.
      apply length_filter_ext_in. intros z Hz. apply Hrest; [by right |].
      intros ->. done.
    + assert (y ≠ x) as Hne by (intros ->; done).
      assert (P y ↔ Q y) as Hyy by (apply Hrest; [by left | done]).
      assert (length (filter Q l) = S (length (filter P l))) as Hlen.
      { apply IH; [done | done | done |]. intros z Hz. apply Hrest. by right. }
      repeat case_decide; simpl; try tauto; by rewrite Hlen.
Qed.

Lemma range_elem lo hi k : k ∈ range lo hi ↔ (lo ≤ k < hi)%nat.
Proof. unfold range. rewrite elem_of_seq. lia. Qed.

Lemma seq_split lo n pre j post :
  seq lo n = pre ++ j :: post →
  (lo ≤ j < lo + n)%nat ∧ ∀ r, (lo ≤ r < j)%nat → r ∈ pre.
Proof.
  revert lo n. induction pre as [|x pre IH]; intros lo n Heq.
  - destruct n as [|n]; simpl in Heq; [done |]. injection Heq as <- _.
    split; lia.
  - destruct n as [|n]; simpl in Heq; [done |]. injection Heq as <- Heq.
    apply IH in Heq as [Hj Hpre]. split; [lia |].
    intros r Hr. destruct (decide (r = lo)) as [-> |]; [by left |].
    right. apply Hpre. lia.
Qed.

Lemma range_split lo hi pre j post :
  range lo hi = pre ++ j :: post →
  (lo ≤ j < hi)%nat ∧ ∀ r, (lo ≤ r < j)%nat → r ∈ pre.
Proof.
  unfold range. intros [Hj Hpre]%seq_split. split; [lia | done].
Qed.

(** C9. On a column that is not full, add_disk for player 1 or 2 writes
    the player into the lowest empty row of the column and changes no other
    cell; the height of the column grows by one and the other heights stay. *)
Theorem add_disk_lowest_empty g (c : nat) p :
  shape_ok g → (c < 7)%nat → column_filled g (Z.of_nat c) = Ok false →
  p = 1 ∨ p = 2 →
  ∃ g' j,
    add_disk g (Z.of_nat c) p = Ok g'
    ∧ (j < 6)%nat ∧ cell g c j = 0 ∧ (∀ r, (r < j)%nat → cell g c r ≠ 0)
    ∧ cell g' c j = p
    ∧ (∀ c' r, (c', r) ≠ (c, j) → cell g' c' r = cell g c' r)
    ∧ height g' c = S (height g c)
    ∧ (∀ c', c' ≠ c → height g' c' = height g c')
    ∧ shape_ok g'.
Proof.
  intros Hg Hc Hfree Hp.
  apply column_filled_false in Hfree; [| lia]. rewrite Nat2Z.id in Hfree.
  destruct (add_disk_returns g (Z.of_nat c) p) as [g' Hrun];
    [lia | by apply store_int64_player |].
  exists g'. pose proof Hrun as Hrun'. unfold add_disk in Hrun'.
  rewrite np_index_in_range, bind_Ok, Nat2Z.id in Hrun' by lia.
  destruct (add_disk_rows_result _ _ _ _ _ Hrun')
    as [[Hall _] | (pre & j & post & Hsplit & Hpre & Hj & ->)].
  { exfalso. rewrite Forall_forall in Hall. apply (Hall 5%nat); [| done].
    apply range_elem. lia. }
  apply range_split in Hsplit as [Hjlt Hbelow].
  rewrite Forall_forall in Hpre.
  assert (p ≠ 0) as Hp0 by lia.
  exists j. split; [done |]. split; [lia |]. split; [done |].
  split; [intros r Hr; apply Hpre, Hbelow; lia |].
  split; [apply cell_set_cell_same; [done | done | lia] |].
  split; [intros c' r Hne; by apply cell_set_cell_other |].
  split; [| split].
  - unfold height.
    apply (length_filter_one_more _ _ _ j); [apply NoDup_seq | | | |].
    + apply range_elem. lia.
    + by intros H.
    + rewrite cell_set_cell_same by (done || lia). done.
    + intros r _ Hr. rewrite cell_set_cell_other_row by done. done.
  - intros c' Hc'. unfold height. apply length_filter_ext_in.
    intros r _. by rewrite cell_set_cell_other_column.
  - by apply shape_ok_set_cell.
Qed.

Lemma shape_ok_zeros : shape_ok zeros.
Proof. split; [reflexivity |]. repeat constructor. Defined.

Lemma add_disk_lowest_empty_witness :
  shape_ok zeros ∧ (3 < 7)%nat ∧ column_filled zeros 3 = Ok false
  ∧ (1 = 1 ∨ 1 = 2)
  ∧ ∃ g' j,
      add_disk zeros 3 1 = Ok g'
      ∧ (j < 6)%nat ∧ cell zeros 3 j = 0
      ∧ (∀ r, (r < j)%nat → cell zeros 3 r ≠ 0)
      ∧ cell g' 3 j = 1
      ∧ (∀ c' r, (c', r) ≠ (3%nat, j) → cell g' c' r = cell zeros c' r)
      ∧ height g' 3 = S (height zeros 3)
      ∧ (∀ c', c' ≠ 3%nat → height g' c' = height zeros c')
      ∧ shape_ok g'.
Proof.
  split; [apply shape_ok_zeros |]. split; [lia |]. split; [reflexivity |].
  split; [by left |].
  apply (add_disk_lowest_empty zeros 3 1);
    [apply shape_ok_zeros | lia | reflexivity | by left].
Defined.

(** *** Sums and scans over lists *)

Lemma sumZ_cons x l : sumZ (x :: l) = x + sumZ l.
Proof. reflexivity. Qed.

Lemma sumZ_app l k : sumZ (l ++ k) = sumZ l + sumZ k.
Proof. induction l as [|x l IH]; simpl; [done |]. rewrite IH. lia. Qed.

Lemma sumZ_Permutation l k : l ≡ₚ k → sumZ l = sumZ k.
Proof. induction 1; simpl; lia. Qed.

Lemma sumZ_bind {A B} (f : B → Z) (k : A → list B) l :
  sumZ (f <$> (l ≫= k)) = sumZ ((λ x, sumZ (f <$> k x)) <$> l).
Proof.
  induction l as [|x l IH]; [done |].
  change ((x :: l) ≫= k) with (k x ++ (l ≫= k)).
  rewrite fmap_app, sumZ_app, IH. done.
Qed.

Lemma sumZ_ext {A} (f h : A → Z) l :
  (∀ x, x ∈ l → f x = h x) → sumZ (f <$> l) = sumZ (h <$> l).
Proof.
  induction l as [|x l IH]; intros Hext; [done |].
  rewrite !fmap_cons, !sumZ_cons, (Hext x) by by left.
  by rewrite IH by (intros y Hy; apply Hext; by right).
Qed.

Lemma sumZ_opp {A} (f : A → Z) l :
  sumZ ((λ x, - f x) <$> l) = - sumZ (f <$> l).
Proof.
  induction l as [|x l IH]; [done |].
  rewrite !fmap_cons, !sumZ_cons, IH. lia.
Qed.

Lemma for_each_add {A} (f : A → Z) (body : A → Z → Z) l s :
  (∀ x s, body x s = s + f x) → for_each l s body = s + sumZ (f <$> l).
Proof.
  intros Hbody. unfold for_each. revert s.
  induction l as [|x l IH]; intros s; [simpl; lia |].
  rewrite fmap_cons, sumZ_cons. simpl. rewrite IH, Hbody. lia.
Qed.

(** Two nested loops adding [f x y] to an accumulator. *)
Lemma for_each_add2 {A B} (f : A → B → Z) (xs : list A) (ys : list B) s :
  for_each xs s (λ x s, for_each ys s (λ y s, s + f x y))
  = s + sumZ ((λ xy, f xy.1 xy.2) <$> (x ← xs; y ← ys; [(x, y)])).
Proof.
  rewrite (for_each_add (λ x, sumZ (f x <$> ys))).
  - f_equal. rewrite sumZ_bind. apply sumZ_ext. intros x _.
    rewrite sumZ_bind. apply sumZ_ext. intros y _. simpl. lia.
  - intros x s'. by apply for_each_add.
Qed.

Lemma existsb_ext_in {A} (f h : A → bool) l :
  (∀ x, f x = h x) → existsb f l = existsb h l.
Proof. intros Hext. induction l as [|x l IH]; simpl; [done |]. by rewrite Hext, IH. Qed.

Lemma existsb_bind {A B} (f : B → bool) (k : A → list B) l :
  existsb f (l ≫= k) = existsb (λ x, existsb f (k x)) l.
Proof.
  induction l as [|x l IH]; [done |].
  change ((x :: l) ≫= k) with (k x ++ (l ≫= k)).
  by rewrite existsb_app, IH.
Qed.

Lemma existsb_elem {A} (f : A → bool) l :
  existsb f l = true ↔ ∃ x, x ∈ l ∧ f x = true.
Proof.
  rewrite existsb_exists. split; intros (x & Hx & Hf); exists x;
    (split; [by apply list_elem_of_In | done]).
Qed.

Lemma existsb_Permutation {A} (f : A → bool) l k :
  l ≡ₚ k → existsb f l = existsb f k.
Proof.
  induction 1 as [|x l k _ IH|x y l|l k m _ IH1 _ IH2]; simpl.
  - done.
  - by rewrite IH.
  - by destruct (f x), (f y).
  - congruence.
Qed.

(** *** The windows the code visits *)

Lemma owners_content g w : owners g w = content g (nat_cell <$> w).
Proof.
  unfold owners, content. rewrite <- list_fmap_compose.
  apply list_fmap_ext. intros _ [c r] _. unfold owner. simpl.
  by rewrite !Nat2Z.id.
Qed.

(** [Board.eval] as two sums, over the windows and over the cells, in the
    order the loops run. *)
Lemma eval_sums g p :
  eval g p
  = sumZ ((λ w, eval_window (owners g w) p) <$> eval_windows)
    + sumZ (positional_term g p <$> eval_cells).
Proof.
  unfold eval.
  rewrite (for_each_add2
             (λ row col, eval_window (window_horizontal g col row) p)).
  rewrite (for_each_add2
             (λ col row, eval_window (window_vertical g col row) p)).
  rewrite (for_each_add2
             (λ col row, eval_window (window_diagonal1 g col row) p)).
  rewrite (for_each_add2
             (λ col row, eval_window (window_diagonal2 g col row) p)).
  rewrite (for_each_add (λ row, sumZ ((λ col, positional_term g p (col, row))
                                        <$> range 0 7))).
  - unfold eval_windows, eval_cells.
    rewrite !fmap_app, !sumZ_app, !sumZ_bind.
    rewrite <- !Z.add_assoc, Z.add_0_l.
    reflexivity.
  - intros row s. apply for_each_add. intros col s'.
    unfold positional_term. simpl. repeat case_bool_decide; lia.
Qed.

(** *** The windows of the code are the windows of the specification *)

Lemma eval_windows_all : (fmap (M := list) nat_cell <$> eval_windows) ≡ₚ all_windows.
Proof. apply (bool_decide_unpack _). by vm_compute. Qed.

Lemma victory_windows_all : (fmap (M := list) nat_cell <$> victory_windows) ≡ₚ all_windows.
Proof. apply (bool_decide_unpack _). by vm_compute. Qed.

Lemma eval_cells_all : (nat_cell <$> eval_cells) ≡ₚ all_cells.
Proof. apply (bool_decide_unpack _). by vm_compute. Qed.

Lemma all_windows_NoDup : NoDup all_windows.
Proof. apply (bool_decide_unpack _). by vm_compute. Qed.

(** No two windows of the list hold the same four cells. *)
Lemma all_windows_distinct :
  Forall (λ w1, Forall (λ w2, w1 ≡ₚ w2 → w1 = w2) all_windows) all_windows.
Proof. apply (bool_decide_unpack _). by vm_compute. Qed.

Lemma all_windows_length : Forall (λ w, length w = 4%nat) all_windows.
Proof. apply (bool_decide_unpack _). by vm_compute. Qed.

(** *** Scoring one window *)

Lemma count_cons x y w :
  count x (y :: w) = ((if decide (y = x) then 1 else 0) + count x w)%nat.
Proof. unfold count. rewrite filter_cons. by case_decide. Qed.

Lemma count_nil x : count x [] = 0%nat.
Proof. reflexivity. Qed.

Lemma count_two x y w : x ≠ y → (count x w + count y w ≤ length w)%nat.
Proof.
  intros Hne. induction w as [|z w IH]; [done |].
  rewrite !count_cons. simpl. repeat case_decide; simplify_eq; lia.
Qed.

Lemma count_three x y z w :
  x ≠ y → x ≠ z → y ≠ z → (count x w + count y w + count z w ≤ length w)%nat.
Proof.
  intros Hxy Hxz Hyz. induction w as [|v w IH]; [done |].
  rewrite !count_cons. simpl. repeat case_decide; simplify_eq; lia.
Qed.

(** Swapping the player and the opponent negates the score of a window. *)
Lemma eval_window_opponent w p :
  length w = 4%nat → eval_window w (3 - p) = - eval_window w p.
Proof.
  intros Hlen. unfold eval_window.
  replace (3 - (3 - p)) with p by lia.
  assert (count p w + count (3 - p) w ≤ 4)%nat as Hcount
    by (rewrite <- Hlen; apply count_two; lia).
  repeat case_bool_decide; simpl; lia.
Qed.

Lemma all_owned_count q a b c d :
  all_owned q [a; b; c; d] ↔ count q [a; b; c; d] = 4%nat.
Proof.
  unfold all_owned. rewrite !count_cons, count_nil.
  repeat case_decide; split; intros ?; simplify_eq; (done || lia).
Qed.

Lemma three_and_empty_count q a b c d :
  q ≠ 0 →
  three_and_empty q [a; b; c; d]
  ↔ count q [a; b; c; d] = 3%nat ∧ count 0 [a; b; c; d] = 1%nat.
Proof.
  intros Hq. unfold three_and_empty. rewrite !count_cons, !count_nil.
  repeat case_decide; subst; try done;
    (split; [intros [? | [? | [? | ?]]]; simplify_eq; (done || lia)
            | intros [? ?]; try lia; auto]).
Qed.

Lemma eval_window_score a b c d p :
  p = 1 ∨ p = 2 →
  eval_window [a; b; c; d] p = window_score [a; b; c; d] p.
Proof.
  intros Hp. unfold eval_window, window_score, indicator.
  assert (count p [a; b; c; d] + count (3 - p) [a; b; c; d]
          + count 0 [a; b; c; d] ≤ 4)%nat as Hcount
    by (apply (count_three p (3 - p) 0 [a; b; c; d]); lia).
  pose proof (all_owned_count p a b c d) as Hall.
  pose proof (all_owned_count (3 - p) a b c d) as Hall'.
  pose proof (three_and_empty_count p a b c d ltac:(lia)) as H3.
  pose proof (three_and_empty_count (3 - p) a b c d ltac:(lia)) as H3'.
  repeat case_bool_decide; simpl; repeat case_decide;
    first [lia | exfalso; intuition lia].
Qed.

(** *** The evaluation *)

Lemma eval_windows_length : Forall (λ w, length w = 4%nat) eval_windows.
Proof. apply (bool_decide_unpack _). by vm_compute. Qed.

Lemma owners_length g w : length (owners g w) = length w.
Proof. unfold owners. by rewrite length_fmap. Qed.

Lemma length_four {A} (l : list A) :
  length l = 4%nat → ∃ a b c d, l = [a; b; c; d].
Proof.
  destruct l as [|a [|b [|c [|d [|e l]]]]]; intros [=]. eauto.
Qed.

Lemma positional_nat_cell g p cr :
  positional g p (nat_cell cr) = positional_term g p cr.
Proof.
  unfold positional, positional_term, owner, nat_cell. simpl.
  rewrite !Nat2Z.id. repeat case_bool_decide; repeat case_decide; done.
Qed.

(** Swapping the two players negates the evaluation. *)
Lemma eval_opponent g p : eval g (3 - p) = - eval g p.
Proof.
  rewrite !eval_sums.
  rewrite (sumZ_ext (λ w, eval_window (owners g w) (3 - p))
             (λ w, - eval_window (owners g w) p)).
  - rewrite (sumZ_ext (positional_term g (3 - p))
               (λ cr, - positional_term g p cr)).
    + rewrite !sumZ_opp. lia.
    + intros cr _. unfold positional_term.
      replace (3 - (3 - p)) with p by lia.
      repeat case_bool_decide; lia.
  - intros w Hw. apply eval_window_opponent. rewrite owners_length.
    pose proof eval_windows_length as Hlen. rewrite Forall_forall in Hlen.
    by apply Hlen.
Qed.

Lemma all_windows_elem w :
  w ∈ all_windows ↔ ∃ o c r, is_window o c r ∧ w = cells o c r.
Proof.
  unfold all_windows. split.
  - intros (o & Hw & _)%list_elem_of_bind.
    apply list_elem_of_bind in Hw as (c & Hw & _).
    apply list_elem_of_bind in Hw as (r & Hw & _).
    case_decide as Hwin; [| by apply elem_of_nil in Hw].
    apply list_elem_of_singleton in Hw. eauto.
  - intros (o & c & r & Hwin & ->).
    assert (in_grid (c, r)) as [Hc Hr].
    { unfold is_window, cells in Hwin. simpl in Hwin.
      apply Forall_cons in Hwin as [H0 _].
      destruct o; simpl in H0; by rewrite !Z.add_0_r in H0. }
    simpl in Hc, Hr.
    apply list_elem_of_bind. exists o. split; [| destruct o; repeat constructor].
    apply list_elem_of_bind. exists c. split.
    2: { unfold columns. rewrite !elem_of_cons. lia. }
    apply list_elem_of_bind. exists r. split.
    2: { unfold rows. rewrite !elem_of_cons. lia. }
    rewrite decide_True by done. by apply list_elem_of_singleton.
Qed.

(** C4. For player 1 or 2, eval is the sum of the window scores over all
    windows of the four orientations plus the signed positional weights of
    all cells; the list of windows holds every window, each one once. *)
Theorem eval_is_eval_spec g p :
  p = 1 ∨ p = 2 →
  eval g p = eval_spec g p
  ∧ (∀ w, w ∈ all_windows ↔ ∃ o c r, is_window o c r ∧ w = cells o c r)
  ∧ NoDup all_windows
  ∧ (∀ w1 w2, w1 ∈ all_windows → w2 ∈ all_windows → w1 ≡ₚ w2 → w1 = w2).
Proof.
  intros Hp. split; [| split; [apply all_windows_elem |
                      split; [apply all_windows_NoDup |]]].
  2: { intros w1 w2 Hw1 Hw2. pose proof all_windows_distinct as Hall.
       rewrite Forall_forall in Hall. specialize (Hall w1 Hw1).
       rewrite Forall_forall in Hall. by apply Hall. }
  rewrite eval_sums. unfold eval_spec.
  rewrite <- (sumZ_Permutation _ _
                (fmap_Permutation _ _ _ eval_windows_all)).
  rewrite <- (sumZ_Permutation _ _
                (fmap_Permutation _ _ _ eval_cells_all)).
  rewrite <- !list_fmap_compose. f_equal.
  - apply sumZ_ext. intros w Hw. simpl. rewrite <- owners_content.
    pose proof eval_windows_length as Hlen. rewrite Forall_forall in Hlen.
    destruct (length_four (owners g w)) as (a & b & c & d & ->).
    { rewrite owners_length. by apply Hlen. }
    by apply eval_window_score.
  - apply sumZ_ext. intros cr _. simpl. by rewrite positional_nat_cell.
Qed.

Lemma eval_is_eval_spec_witness :
  (1 = 1 ∨ 1 = 2) ∧ eval won_row 1 = eval_spec won_row 1.
Proof.
  split; [by left |]. apply (eval_is_eval_spec won_row 1). by left.
Defined.

(** C5 (amended). The evaluation is exactly antisymmetric: for every board
    and every player, the evaluation for the opponent is the negation of
    the evaluation for the player. *)
Theorem eval_antisymmetric g p : eval g (3 - p) = - eval g p.
Proof. apply eval_opponent. Qed.

(** C5, as stated, fails: no board and player have eval(player) different
    from the negation of eval(opponent). *)
Lemma eval_antisymmetric_counterexample :
  ¬ ∃ g p, (p = 1 ∨ p = 2) ∧ eval g p ≠ - eval g (3 - p).
Proof. intros (g & p & _ & Hne). apply Hne. rewrite eval_opponent. lia. Qed.

(** *** Victory *)

Lemma check_victory_scan g :
  check_victory g = existsb (window_aligned g) victory_windows.
Proof.
  unfold check_victory, victory_windows.
  rewrite !existsb_app, !existsb_bind, <- orb_assoc.
  apply (f_equal2 orb); [| apply (f_equal2 orb)];
    apply existsb_ext_in; intros x;
    rewrite existsb_bind; apply existsb_ext_in; intros y; simpl;
    unfold window_aligned; simpl; by rewrite ?orb_false_r.
Qed.

Lemma aligned_run_true l :
  aligned_run l = true ↔ ∃ q, q ≠ 0 ∧ l = [q; q; q; q].
Proof.
  split.
  - destruct l as [|a [|b [|c [|d [|e l]]]]]; simpl; try done.
    unfold aligned. intros H.
    repeat (apply andb_prop in H as [H ?]).
    repeat match goal with
           | H : bool_decide _ = true |- _ => apply bool_decide_eq_true in H
           end.
    subst. eauto.
  - intros (q & Hq & ->). simpl. unfold aligned.
    by rewrite !bool_decide_eq_true_2.
Qed.

Lemma existsb_fmap {A B} (f : B → bool) (h : A → B) l :
  existsb f (h <$> l) = existsb (f ∘ h) l.
Proof.
  induction l as [|x l IH]; [done |].
  rewrite fmap_cons. simpl. by rewrite IH.
Qed.

Lemma check_victory_all_windows g :
  check_victory g = existsb (λ w, aligned_run (content g w)) all_windows.
Proof.
  rewrite check_victory_scan.
  rewrite <- (existsb_Permutation _ _ _ victory_windows_all), existsb_fmap.
  apply existsb_ext_in. intros w. simpl. unfold window_aligned.
  by rewrite owners_content.
Qed.

(** C6. check_victory is true exactly when some window of four contiguous
    cells, horizontal, vertical or diagonal, holds four equal non-empty
    cells; it is false on the empty board; and scanning the windows in any
    other order gives the same answer. *)
Theorem check_victory_four_in_a_row g :
  (check_victory g = true ↔ four_in_a_row g)
  ∧ check_victory zeros = false
  ∧ (∀ scan, scan ≡ₚ victory_windows →
       existsb (window_aligned g) scan = check_victory g).
Proof.
  split; [| split].
  - rewrite check_victory_all_windows, existsb_elem. unfold four_in_a_row.
    split.
    + intros (w & Hw & Hrun).
      apply all_windows_elem in Hw as (o & c & r & Hwin & ->).
      apply aligned_run_true in Hrun. eauto.
    + intros (o & c & r & Hwin & Hrun). exists (cells o c r). split.
      * apply all_windows_elem. eauto.
      * by apply aligned_run_true.
  - reflexivity.
  - intros scan Hscan. rewrite check_victory_scan.
    by apply existsb_Permutation.
Qed.

Lemma check_victory_four_in_a_row_witness :
  four_in_a_row won_row ∧ ¬ four_in_a_row drawn.
Proof.
  split.
  - apply (check_victory_four_in_a_row won_row). reflexivity.
  - intros H. apply (check_victory_four_in_a_row drawn) in H. discriminate H.
Defined.

Lemma get_possible_moves_center_out_witness :
  get_possible_moves won_row = [3; 4; 2; 5; 1; 6; 0]
  ∧ column_filled won_row 3 = Ok false
  ∧ get_possible_moves drawn = [].
Proof.
  split; [| split].
  - rewrite (proj1 (get_possible_moves_center_out won_row)). reflexivity.
  - apply (get_possible_moves_center_out won_row). vm_compute. constructor.
  - apply (get_possible_moves_center_out drawn). intros c Hc.
    assert (c = 0 ∨ c = 1 ∨ c = 2 ∨ c = 3 ∨ c = 4 ∨ c = 5 ∨ c = 6)
      as [-> | [-> | [-> | [-> | [-> | [-> | ->]]]]]] by lia; reflexivity.
Defined.

(** *** Objects and aliasing *)

Import Heap.

Ltac run_M :=
  unfold Heap.add_disk, Heap.get_possible_moves, Heap.eval,
    Heap.check_victory, Heap.column_filled, Heap.copy, self_grid,
    array_copy, new_array, write_array, read_array, set_grid, get_grid,
    Board_new, lift, mbind, M_bind, mret, M_ret.

Ltac store_lookup :=
  repeat first [ progress simpl
               | rewrite lookup_insert_eq
               | rewrite lookup_insert_ne by done ].

Lemma Board_new_fresh σ : instances σ !! fresh (dom (instances σ)) = None.
Proof. apply not_elem_of_dom, is_fresh. Qed.

Lemma new_array_fresh σ : arrays σ !! fresh (dom (arrays σ)) = None.
Proof. apply not_elem_of_dom, is_fresh. Qed.

(** A method of a board without its own [grid] works on the class array. *)
Lemma self_grid_bare σ self g :
  instances σ !! self = Some None → arrays σ !! class_grid = Some g →
  self_grid self σ = Done g σ.
Proof. intros Hself Hg. run_M. by rewrite Hself, Hg. Qed.

Lemma self_grid_inv σ self g σ' :
  self_grid self σ = Done g σ' →
  σ' = σ
  ∧ ∃ a, arrays σ !! a = Some g
         ∧ (instances σ !! self = Some (Some a)
            ∨ (instances σ !! self = Some None ∧ a = class_grid)).
Proof.
  run_M. destruct (instances σ !! self) as [[a|]|] eqn:Hself; [| | done].
  - destruct (arrays σ !! a) as [g0|] eqn:Ha; [| done].
    intros [= <- <-]. eauto 10.
  - destruct (arrays σ !! class_grid) as [g0|] eqn:Ha; [| done].
    intros [= <- <-]. eauto 10.
Qed.

(** The observers only read the grid. *)
Lemma observers_read σ self g :
  self_grid self σ = Done g σ →
  observes σ self g.
Proof.
  intros Hg.
  unfold observes, Heap.get_possible_moves, Heap.eval, Heap.check_victory.
  unfold mbind, M_bind. by rewrite Hg.
Qed.

(** [add_disk] on any board: the array behind [self.grid] is overwritten
    with the result of the drop, nothing else changes. *)
Lemma add_disk_inv σ self column player σ' :
  Heap.add_disk self column player σ = Done () σ' →
  ∃ a g g',
    (instances σ !! self = Some (Some a)
     ∨ (instances σ !! self = Some None ∧ a = class_grid))
    ∧ arrays σ !! a = Some g
    ∧ Board.add_disk g column player = Ok g'
    ∧ σ' = {| arrays := <[a := g']> (arrays σ); instances := instances σ |}.
Proof.
  run_M. intros Hrun.
  destruct (instances σ !! self) as [[a|]|] eqn:Hself; [| | done].
  - destruct (arrays σ !! a) as [g|] eqn:Ha; [| done].
    destruct (Board.add_disk g column player) as [g'|e] eqn:Hg'; [| done].
    rewrite Ha in Hrun. injection Hrun as <-. eauto 10.
  - destruct (arrays σ !! class_grid) as [g|] eqn:Ha; [| done].
    destruct (Board.add_disk g column player) as [g'|e] eqn:Hg'; [| done].
    rewrite Ha in Hrun. injection Hrun as <-. eauto 10.
Qed.

(** The bare constructor gives a board without a [grid] of its own, and
    leaves the boards and the arrays that exist as they are. *)
Lemma Board_new_bare σ b σ' :
  Board_new σ = Done b σ' →
  instances σ' !! b = Some None
  ∧ arrays σ' = arrays σ
  ∧ ∀ b' v, instances σ !! b' = Some v → b' ≠ b ∧ instances σ' !! b' = Some v.
Proof.
  intros [= <- <-]. simpl. split; [by rewrite lookup_insert_eq |].
  split; [done |]. intros b' v Hb'.
  assert (b' ≠ fresh (dom (instances σ))) as Hne.
  { intros ->. by rewrite Board_new_fresh in Hb'. }
  split; [done |]. by rewrite lookup_insert_ne.
Qed.

(** A drop through a board without a [grid] of its own writes the class
    array. *)
Lemma add_disk_bare σ g b column player :
  arrays σ !! class_grid = Some g → instances σ !! b = Some None →
  Heap.add_disk b column player σ
  = match Board.add_disk g column player with
    | Ok g' =>
        Done () {| arrays := <[class_grid := g']> (arrays σ);
                   instances := instances σ |}
    | Raise e => Raised e
    end.
Proof.
  intros Hg Hb. run_M. rewrite Hb, Hg.
  destruct (Board.add_disk g column player); [| done]. by rewrite Hg.
Qed.

(** A drop through a board with a [grid] of its own writes that array. *)
Lemma add_disk_own σ g b a column player :
  instances σ !! b = Some (Some a) → arrays σ !! a = Some g →
  Heap.add_disk b column player σ
  = match Board.add_disk g column player with
    | Ok g' =>
        Done () {| arrays := <[a := g']> (arrays σ);
                   instances := instances σ |}
    | Raise e => Raised e
    end.
Proof.
  intros Hb Hg. run_M. rewrite Hb, Hg.
  destruct (Board.add_disk g column player); [| done]. by rewrite Hg.
Qed.

Lemma copy_returns σ self g :
  self_grid self σ = Done g σ → ∃ c σ1, Heap.copy self σ = Done c σ1.
Proof.
  intros (_ & a & Ha & Hself)%self_grid_inv. run_M.
  set (c0 := fresh (dom (instances σ))).
  assert (instances σ !! c0 = None) as Hc0 by apply Board_new_fresh.
  assert (c0 ≠ self) as Hne
    by (intros ->; destruct Hself as [? | [? _]]; congruence).
  simpl. rewrite lookup_insert_ne by done.
  destruct Hself as [Hself | [Hself ->]]; rewrite Hself; simpl; rewrite Ha;
    simpl; rewrite lookup_insert_eq; eauto.
Qed.

(** A board and its copy: [copy] gives the new board an array of its own. *)
Lemma copy_inv σ self g c σ1 :
  self_grid self σ = Done g σ → Heap.copy self σ = Done c σ1 →
  c ≠ self
  ∧ ∃ a a', arrays σ !! a = Some g ∧ a' ≠ a
            ∧ (instances σ !! self = Some (Some a)
               ∨ (instances σ !! self = Some None ∧ a = class_grid))
            ∧ σ1 = {| arrays := <[a' := g]> (arrays σ);
                      instances := <[c := Some a']> (<[c := None]> (instances σ)) |}.
Proof.
  intros (_ & a & Ha & Hself)%self_grid_inv. run_M.
  set (c0 := fresh (dom (instances σ))).
  assert (instances σ !! c0 = None) as Hc0 by apply Board_new_fresh.
  assert (c0 ≠ self) as Hne by (intros ->; destruct Hself as [? | [? _]]; congruence).
  assert (fresh (dom (arrays σ)) ≠ a) as Hfresh.
  { intros Heq. pose proof (new_array_fresh σ) as Hnone. congruence. }
  simpl. rewrite lookup_insert_ne by done.
  intros Hrun.
  assert (c = c0 ∧ σ1 = {| arrays := <[fresh (dom (arrays σ)) := g]> (arrays σ);
                           instances := <[c0 := Some (fresh (dom (arrays σ)))]>
                                          (<[c0 := None]> (instances σ)) |})
    as [-> ->].
  { destruct Hself as [Hself | [Hself ->]]; rewrite Hself in Hrun;
      simpl in Hrun; rewrite Ha in Hrun; simpl in Hrun;
      rewrite lookup_insert_eq in Hrun; by injection Hrun as <- <-. }
  split; [done |]. exists a, (fresh (dom (arrays σ))). eauto.
Qed.

Lemma copy_then_add_disk σ self g c σ1 column player σ2 :
  self_grid self σ = Done g σ → Heap.copy self σ = Done c σ1 →
  Heap.add_disk c column player σ1 = Done () σ2 →
  self_grid self σ2 = Done g σ2
  ∧ ∃ g', Board.add_disk g column player = Ok g'
          ∧ self_grid c σ2 = Done g' σ2.
Proof.
  intros Hg Hcopy Hdrop.
  destruct (copy_inv _ _ _ _ _ Hg Hcopy)
    as (Hne & a & a' & Ha & Ha' & Hself & ->).
  apply add_disk_inv in Hdrop as (a0 & g0 & g' & Hc & Ha0 & Hg' & ->).
  simpl in *. rewrite lookup_insert_eq in Hc.
  destruct Hc as [[= <-] | [[=] _]].
  rewrite lookup_insert_eq in Ha0. injection Ha0 as <-.
  split.
  - run_M. store_lookup.
    destruct Hself as [-> | [-> ->]]; store_lookup; by rewrite Ha.
  - exists g'. split; [done |]. run_M. by store_lookup.
Qed.

Lemma copy_then_add_disk_original σ self g c σ1 column player σ2 :
  self_grid self σ = Done g σ → Heap.copy self σ = Done c σ1 →
  Heap.add_disk self column player σ1 = Done () σ2 →
  self_grid c σ2 = Done g σ2
  ∧ ∃ g', Board.add_disk g column player = Ok g'
          ∧ self_grid self σ2 = Done g' σ2.
Proof.
  intros Hg Hcopy Hdrop.
  destruct (copy_inv _ _ _ _ _ Hg Hcopy)
    as (Hne & a & a' & Ha & Ha' & Hself & ->).
  apply add_disk_inv in Hdrop as (a0 & g0 & g' & Hc & Ha0 & Hg' & ->).
  simpl in *. rewrite !lookup_insert_ne in Hc by done.
  assert (a0 = a) as -> by (destruct Hself as [? | [? ->]], Hc as [? | [? ->]]; congruence).
  rewrite lookup_insert_ne in Ha0 by done.
  rewrite Ha in Ha0. injection Ha0 as <-.
  split.
  - run_M. by store_lookup.
  - exists g'. split; [done |]. run_M. store_lookup.
    clear Hc. destruct Hself as [-> | [-> ->]]; by store_lookup.
Qed.


(* ===================================================================== *)
(** ** Further properties of the board, the search and the game *)
(* ===================================================================== *)

Import Board AlphaBeta Lines Fixtures Position Examples.

(** *** Indices of add_disk and column_filled *)

Lemma np_index_wrap n i :
  - Z.of_nat n ≤ i < 0 → np_index n i = np_index n (i + Z.of_nat n).
Proof.
  intros Hi. unfold np_index.
  rewrite (bool_decide_eq_false_2 (0 ≤ i < _)) by lia.
  rewrite (bool_decide_eq_true_2 (- _ ≤ i < 0)) by lia.
  rewrite (bool_decide_eq_true_2 (0 ≤ i + _ < _)) by lia. done.
Qed.

Lemma np_index_outside n i :
  ¬ (- Z.of_nat n ≤ i < Z.of_nat n) → np_index n i = Raise IndexError.
Proof.
  intros Hi. unfold np_index.
  rewrite (bool_decide_eq_false_2 (0 ≤ i < _)) by lia.
  by rewrite (bool_decide_eq_false_2 (- _ ≤ i < 0)) by lia.
Qed.

(** X1. Column indices follow numpy: a column outside [-7, 6] makes
    add_disk and column_filled raise IndexError, whatever the player; a
    column in [-7, -1] is the column 7 places to the right; with a column
    in [-7, 6] column_filled returns, and add_disk returns for a player
    that fits in the array's 64-bit cells. *)
Theorem column_index_bounds g column player :
  (¬ (-7 ≤ column < 7) →
     add_disk g column player = Raise IndexError
     ∧ column_filled g column = Raise IndexError)
  ∧ (-7 ≤ column < 0 →
     add_disk g column player = add_disk g (column + 7) player
     ∧ column_filled g column = column_filled g (column + 7))
  ∧ (-7 ≤ column < 7 →
     (∃ full, column_filled g column = Ok full)
     ∧ (- 2 ^ 63 ≤ player < 2 ^ 63 → ∃ g', add_disk g column player = Ok g')).
Proof.
  unfold add_disk, column_filled. split; [| split].
  - intros Hc. by rewrite np_index_outside.
  - intros Hc. by rewrite (np_index_wrap 7 column).
  - intros Hc.
    assert (∃ c, np_index 7 column = Ok c) as [c ->].
    { destruct (decide (0 ≤ column)).
      - rewrite np_index_in_range by lia. eauto.
      - rewrite (np_index_wrap 7 column), np_index_in_range by lia. eauto. }
    rewrite !bind_Ok. split; [eauto |].
    intros Hp. apply add_disk_rows_returns.
    unfold store_int64. by rewrite bool_decide_eq_true_2.
Qed.

Lemma column_index_bounds_witness :
  add_disk zeros 7 1 = Raise IndexError
  ∧ add_disk zeros (-1) 1 = add_disk zeros 6 1
  ∧ ∃ g', add_disk zeros (-7) 2 = Ok g'.
Proof.
  split; [apply (proj1 (column_index_bounds zeros 7 1)); lia |].
  split; [apply (proj1 (proj2 (column_index_bounds zeros (-1) 1))); lia |].
  apply (proj2 (proj2 (column_index_bounds zeros (-7) 2))); lia.
Defined.

(** *** What a drop changes *)

(** A successful drop leaves the grid alone or writes the player into the
    first empty row of the column. *)
Lemma add_disk_drop g column p g' :
  add_disk g column p = Ok g' →
  g' = g
  ∨ ∃ c j, np_index 7 column = Ok c ∧ (j < 6)%nat
           ∧ cell g c j = 0 ∧ (∀ r, (r < j)%nat → cell g c r ≠ 0)
           ∧ g' = set_cell g c j p.
Proof.
  unfold add_disk. destruct (np_index 7 column) as [c|e] eqn:Hc; [| done].
  rewrite bind_Ok. intros Hrun.
  destruct (add_disk_rows_result _ _ _ _ _ Hrun)
    as [[_ ->] | (pre & j & post & Hsplit & Hpre & Hj & ->)]; [by left |].
  right. apply range_split in Hsplit as [Hjlt Hbelow].
  rewrite Forall_forall in Hpre.
  exists c, j. split_and!; [done | lia | done | | done].
  intros r Hr. apply Hpre, Hbelow. lia.
Qed.

Lemma cell_set_cell_cases g c j v c' r :
  cell (set_cell g c j v) c' r = cell g c' r
  ∨ ((c', r) = (c, j) ∧ cell (set_cell g c j v) c' r = v).
Proof.
  destruct (decide ((c', r) = (c, j))) as [[= -> ->] | Hne].
  - unfold cell, set_cell. rewrite list_lookup_alter_eq.
    destruct (g !! c) as [col|]; simpl; [| by left].
    destruct (decide (j < length col)%nat).
    + right. by rewrite list_lookup_insert_eq.
    + left. by rewrite list_insert_ge by lia.
  - left. by apply cell_set_cell_other.
Qed.

Lemma add_disk_cell g column p g' c r :
  add_disk g column p = Ok g' → cell g' c r = cell g c r ∨ cell g' c r = p.
Proof.
  intros [-> | (c0 & j & _ & _ & _ & _ & ->)]%add_disk_drop; [by left |].
  destruct (cell_set_cell_cases g c0 j p c r) as [? | [_ ?]]; auto.
Qed.

Lemma shape_ok_add_disk g column p g' :
  add_disk g column p = Ok g' → shape_ok g → shape_ok g'.
Proof.
  intros [-> | (c0 & j & _ & _ & _ & _ & ->)]%add_disk_drop; [done |].
  apply shape_ok_set_cell.
Qed.

Lemma gravity_add_disk g column p g' :
  p ≠ 0 → add_disk g column p = Ok g' → gravity g → gravity g'.
Proof.
  intros Hp [-> | (c0 & j & _ & Hj & Hempty & Hbelow & ->)]%add_disk_drop Hg;
    [done |].
  intros c r Hc Hr H0.
  destruct (cell_set_cell_cases g c0 j p c r) as [Heq | [_ Heq]];
    rewrite Heq in H0; [| done].
  destruct (cell_set_cell_cases g c0 j p c (S r)) as [Heq' | [[= -> <-] _]];
    [rewrite Heq'; by apply Hg |].
  exfalso. by apply (Hbelow r); [lia |].
Qed.

Lemma cells_ok_add_disk g column p g' :
  p = 1 ∨ p = 2 → add_disk g column p = Ok g' → cells_ok g → cells_ok g'.
Proof.
  intros Hp Hrun Hg c r.
  destruct (add_disk_cell g column p g' c r Hrun) as [-> | ->]; [apply Hg | lia].
Qed.

(** X2. A drop by player 1 or 2 keeps the grid well formed: its shape,
    gravity (no disk above an empty cell) and the three cell values. *)
Theorem add_disk_keeps_position g column p g' :
  p = 1 ∨ p = 2 → add_disk g column p = Ok g' →
  (shape_ok g → shape_ok g')
  ∧ (gravity g → gravity g')
  ∧ (cells_ok g → cells_ok g').
Proof.
  intros Hp Hrun. split; [| split].
  - by apply shape_ok_add_disk with column p.
  - apply gravity_add_disk with column p; [lia | done].
  - by apply cells_ok_add_disk with column p.
Qed.

Lemma add_disk_keeps_position_witness :
  (1 = 1 ∨ 1 = 2) ∧ add_disk won_row 3 1 = Ok (set_cell won_row 3 1 1)
  ∧ (shape_ok won_row → shape_ok (set_cell won_row 3 1 1)).
Proof.
  split; [by left |]. split; [reflexivity |].
  apply (add_disk_keeps_position won_row 3 1); [by left | reflexivity].
Defined.

(** *** Lines after a drop *)

Lemma check_victory_line g :
  check_victory g = true ↔ ∃ q, q ≠ 0 ∧ line_of q g.
Proof.
  rewrite check_victory_all_windows, existsb_elem. unfold line_of. split.
  - intros (w & Hw & Hrun).
    apply all_windows_elem in Hw as (o & c & r & Hwin & ->).
    apply aligned_run_true in Hrun as (q & Hq & Hrun). eauto 10.
  - intros (q & Hq & o & c & r & Hwin & Hrun). exists (cells o c r). split.
    + apply all_windows_elem. eauto.
    + apply aligned_run_true. eauto.
Qed.

Lemma content_four g w q cr : content g w = [q; q; q; q] → cr ∈ w → owner g cr = q.
Proof.
  intros Hw Hcr.
  assert (owner g cr ∈ content g w) as Hin by by apply list_elem_of_fmap_2.
  rewrite Hw, !elem_of_cons, elem_of_nil in Hin. tauto.
Qed.

(** A line of a colour other than the dropped one was there before. *)
Lemma line_before_drop g column p g' q :
  q ≠ p → add_disk g column p = Ok g' → line_of q g' → line_of q g.
Proof.
  intros Hq Hrun (o & c & r & Hwin & Hline). exists o, c, r. split; [done |].
  rewrite <- Hline. unfold content. apply list_fmap_ext. intros i cr Hcr.
  apply list_elem_of_lookup_2 in Hcr.
  pose proof (content_four g' _ q cr Hline Hcr) as Hown.
  unfold owner in *.
  destruct (add_disk_cell g column p g' (Z.to_nat cr.1) (Z.to_nat cr.2) Hrun);
    congruence.
Qed.

Lemma line_after_drop g column p g' :
  check_victory g = false → add_disk g column p = Ok g' →
  check_victory g' = true →
  line_of p g' ∧ ∀ q, q ≠ 0 → q ≠ p → ¬ line_of q g'.
Proof.
  intros Hno Hrun Hwon.
  assert (∀ q, q ≠ 0 → q ≠ p → ¬ line_of q g') as Hother.
  { intros q Hq0 Hqp Hline.
    apply (line_before_drop g column p g' q Hqp Hrun) in Hline.
    assert (check_victory g = true) by (apply check_victory_line; eauto).
    congruence. }
  split; [| done].
  apply check_victory_line in Hwon as (q & Hq & Hline).
  destruct (decide (q = p)) as [-> |]; [done |]. by destruct (Hother q).
Qed.

(** X3. A drop can only complete a line of its own colour: if the board
    held no four in a row before a drop by player 1 or 2 and holds one
    after it, then the dropped colour has a line and the other colour has
    none. *)
Theorem drop_wins_for_mover g column p g' :
  p = 1 ∨ p = 2 → check_victory g = false → add_disk g column p = Ok g' →
  check_victory g' = true →
  line_of p g' ∧ ∀ q, q ≠ 0 → q ≠ p → ¬ line_of q g'.
Proof. intros _. apply line_after_drop. Qed.

Lemma drop_wins_for_mover_witness :
  line_of 1 won_row ∧ ∀ q, q ≠ 0 → q ≠ 1 → ¬ line_of q won_row.
Proof.
  apply (drop_wins_for_mover three_in_row 3 1 won_row);
    [by left | reflexivity | reflexivity | reflexivity].
Defined.

(** *** How much a board can be worth *)

Lemma sumZ_le {A} (f h : A → Z) l :
  (∀ x, x ∈ l → f x ≤ h x) → sumZ (f <$> l) ≤ sumZ (h <$> l).
Proof.
  induction l as [|x l IH]; intros Hle; [done |].
  rewrite !fmap_cons, !sumZ_cons.
  assert (f x ≤ h x) by (apply Hle; by left).
  assert (sumZ (f <$> l) ≤ sumZ (h <$> l))
    by (apply IH; intros y Hy; apply Hle; by right).
  lia.
Qed.

Lemma sumZ_const {A} (k : Z) (l : list A) :
  sumZ ((λ _, k) <$> l) = k * Z.of_nat (length l).
Proof.
  induction l as [|x l IH]; [simpl; lia |].
  rewrite fmap_cons, sumZ_cons, IH. simpl length. lia.
Qed.

Lemma eval_windows_victory_windows : eval_windows ≡ₚ victory_windows.
Proof. apply (bool_decide_unpack _). by vm_compute. Qed.

Lemma table_sum : sumZ ((λ cr, table_at cr.2 cr.1) <$> eval_cells) = 276.
Proof. reflexivity. Qed.

Lemma table_nonneg : Forall (λ cr, 0 ≤ table_at cr.2 cr.1) eval_cells.
Proof. apply (bool_decide_unpack _). by vm_compute. Qed.

Lemma positional_sum_range g p :
  -276 ≤ sumZ (positional_term g p <$> eval_cells) ≤ 276.
Proof.
  pose proof table_nonneg as Hpos. rewrite Forall_forall in Hpos.
  assert (sumZ (positional_term g p <$> eval_cells)
          ≤ sumZ ((λ cr, table_at cr.2 cr.1) <$> eval_cells)) as Hhi.
  { apply sumZ_le. intros cr Hcr.
    specialize (Hpos cr Hcr). unfold positional_term.
    repeat case_bool_decide; lia. }
  assert (sumZ ((λ cr, - table_at cr.2 cr.1) <$> eval_cells)
          ≤ sumZ (positional_term g p <$> eval_cells)) as Hlo.
  { apply sumZ_le. intros cr Hcr.
    specialize (Hpos cr Hcr). unfold positional_term.
    repeat case_bool_decide; lia. }
  rewrite sumZ_opp in Hlo. rewrite table_sum in Hhi, Hlo. lia.
Qed.

Lemma line_of_eval_windows q g :
  line_of q g ↔ ∃ w, w ∈ eval_windows ∧ owners g w = [q; q; q; q].
Proof.
  unfold line_of. split.
  - intros (o & c & r & Hwin & Hline).
    assert (cells o c r ∈ all_windows) as Hin by (apply all_windows_elem; eauto).
    rewrite <- eval_windows_all in Hin.
    apply list_elem_of_fmap in Hin as (w & Hw & Hin).
    exists w. split; [done |]. by rewrite owners_content, <- Hw.
  - intros (w & Hw & Hline).
    assert ((nat_cell <$> w) ∈ all_windows) as Hin.
    { rewrite <- eval_windows_all. by apply list_elem_of_fmap_2. }
    apply all_windows_elem in Hin as (o & c & r & Hwin & Heq).
    exists o, c, r. split; [done |]. by rewrite <- Heq, <- owners_content.
Qed.

Lemma eval_window_four p : eval_window [p; p; p; p] p = 10000.
Proof.
  unfold eval_window. rewrite !count_cons, count_nil.
  by rewrite !decide_True, bool_decide_eq_true_2 by done.
Qed.

Lemma eval_window_range w p :
  length w = 4%nat →
  (w ≠ [p; p; p; p] → eval_window w p ≤ 20)
  ∧ (w ≠ [3 - p; 3 - p; 3 - p; 3 - p] → -20 ≤ eval_window w p).
Proof.
  intros (a & b & c & d & ->)%length_four.
  pose proof (all_owned_count p a b c d) as Hp.
  pose proof (all_owned_count (3 - p) a b c d) as Hq.
  unfold all_owned in *. unfold eval_window.
  split; intros Hne; repeat case_bool_decide; simpl; try lia; tauto.
Qed.

Lemma eval_no_line_of_player g p :
  ¬ line_of p g →
  sumZ ((λ w, eval_window (owners g w) p) <$> eval_windows) ≤ 1380.
Proof.
  intros Hline.
  change 1380 with (20 * Z.of_nat (length eval_windows)).
  rewrite <- sumZ_const. apply sumZ_le. intros w Hw.
  apply eval_window_range.
  - rewrite owners_length.
    pose proof eval_windows_length as Hlen. rewrite Forall_forall in Hlen.
    by apply Hlen.
  - intros Heq. apply Hline, line_of_eval_windows. eauto.
Qed.

Lemma eval_no_line_of_opponent g p :
  ¬ line_of (3 - p) g →
  -1380 ≤ sumZ ((λ w, eval_window (owners g w) p) <$> eval_windows).
Proof.
  intros Hline.
  pose proof (eval_no_line_of_player g (3 - p) Hline) as Hle.
  rewrite (sumZ_ext _ (λ w, - eval_window (owners g w) p)) in Hle.
  - rewrite sumZ_opp in Hle. lia.
  - intros w Hw. apply eval_window_opponent. rewrite owners_length.
    pose proof eval_windows_length as Hlen. rewrite Forall_forall in Hlen.
    by apply Hlen.
Qed.

Lemma eval_line_of_player g p :
  line_of p g → ¬ line_of (3 - p) g →
  8640 ≤ sumZ ((λ w, eval_window (owners g w) p) <$> eval_windows).
Proof.
  intros (w0 & Hw0 & Hline)%line_of_eval_windows Hopp.
  apply elem_of_Permutation in Hw0 as [rest Hperm].
  assert (length rest = 68%nat) as Hrest.
  { apply Permutation_length in Hperm. simpl in Hperm.
    change (length eval_windows) with 69%nat in Hperm. lia. }
  rewrite (sumZ_Permutation _ _ (fmap_Permutation _ _ _ Hperm)).
  rewrite fmap_cons, sumZ_cons, Hline, eval_window_four.
  assert (-20 * Z.of_nat (length rest)
          ≤ sumZ ((λ w, eval_window (owners g w) p) <$> rest)) as Hsum.
  { rewrite <- sumZ_const. apply sumZ_le. intros w Hw.
    assert (w ∈ eval_windows) as Hin by (rewrite Hperm; by right).
    apply eval_window_range.
    - rewrite owners_length.
      pose proof eval_windows_length as Hlen. rewrite Forall_forall in Hlen.
      by apply Hlen.
    - intros Heq. apply Hopp, line_of_eval_windows. eauto. }
  lia.
Qed.

Lemma eval_line_bounds g p :
  p = 1 ∨ p = 2 →
  (check_victory g = false → -1656 ≤ eval g p ≤ 1656)
  ∧ (line_of p g → ¬ line_of (3 - p) g → 8364 ≤ eval g p)
  ∧ (line_of (3 - p) g → ¬ line_of p g → eval g p ≤ -8364).
Proof.
  intros Hp.
  pose proof (positional_sum_range g p) as Hpos.
  assert (line_of p g → ¬ line_of (3 - p) g → 8364 ≤ eval g p) as Hwin.
  { intros Hline Hopp. rewrite eval_sums.
    pose proof (eval_line_of_player g p Hline Hopp). lia. }
  split; [| split; [done |]].
  - intros Hno.
    assert (∀ q, q ≠ 0 → ¬ line_of q g) as Hnone.
    { intros q Hq Hline.
      assert (check_victory g = true) by (apply check_victory_line; eauto).
      congruence. }
    rewrite eval_sums.
    pose proof (eval_no_line_of_player g p (Hnone p ltac:(lia))).
    pose proof (eval_no_line_of_opponent g p (Hnone (3 - p) ltac:(lia))).
    lia.
  - intros Hline Hopp.
    pose proof (positional_sum_range g (3 - p)) as Hpos'.
    assert (8364 ≤ eval g (3 - p)) as Hle.
    { rewrite eval_sums.
      pose proof (eval_line_of_player g (3 - p) Hline) as H.
      replace (3 - (3 - p)) with p in H by lia. specialize (H Hopp). lia. }
    rewrite eval_opponent in Hle. lia.
Qed.

(** X4. A completed line outweighs everything else in the evaluation: for
    player 1 or 2, a board without four in a row is worth between -1656
    and 1656; a board where the player has a line and the opponent has
    none is worth at least 8364, and the mirror case at most -8364. *)
Theorem line_dominates_eval g p :
  p = 1 ∨ p = 2 →
  (check_victory g = false → -1656 ≤ eval g p ≤ 1656)
  ∧ (line_of p g → ¬ line_of (3 - p) g → 8364 ≤ eval g p)
  ∧ (line_of (3 - p) g → ¬ line_of p g → eval g p ≤ -8364).
Proof. apply eval_line_bounds. Qed.

Lemma line_dominates_eval_witness :
  (1 = 1 ∨ 1 = 2) ∧ -1656 ≤ eval drawn 1 ≤ 1656 ∧ 8364 ≤ eval won_row 1.
Proof.
  split; [by left |]. split.
  - apply (line_dominates_eval drawn 1); [by left | reflexivity].
  - apply (line_dominates_eval won_row 1); [by left | |].
    + exists Horizontal, 0, 0. split; [| reflexivity].
      unfold is_window. repeat constructor; simpl; lia.
    + intros (w & Hw & Hline)%line_of_eval_windows.
      assert (Forall (λ w, owners won_row w ≠ [2; 2; 2; 2]) eval_windows)
        as Hall by (apply (bool_decide_unpack _); by vm_compute).
      rewrite Forall_forall in Hall. by apply (Hall w).
Defined.

(** *** More about the search *)

Section LoopMove.
Variable rec : Grid → Score → Score → result Outcome.
Variables (board : Grid) (p : Z).

Lemma max_loop_move beta moves : ∀ m best a v mv,
  max_loop rec board p beta moves m best a = Ok (v, Some mv) →
  mv ∈ moves ∨ best = Some mv.
Proof.
  induction moves as [|move moves IH]; intros m best a v mv; simpl.
  - intros [= _ ->]. by right.
  - destruct (add_disk board move p) as [child|e]; [| done]. rewrite bind_Ok.
    destruct (rec child a beta) as [[value vm]|e]; [| done]. rewrite bind_Ok.
    rewrite elem_of_cons.
    destruct (score_lt m value);
      (destruct (score_le beta (score_max a value));
       [intros [= _ ->] | intros [Hin | Hbest]%IH]);
      simplify_eq; tauto.
Qed.

Lemma min_loop_move alpha moves : ∀ m best b v mv,
  min_loop rec board p alpha moves m best b = Ok (v, Some mv) →
  mv ∈ moves ∨ best = Some mv.
Proof.
  induction moves as [|move moves IH]; intros m best b v mv; simpl.
  - intros [= _ ->]. by right.
  - destruct (add_disk board move (3 - p)) as [child|e]; [| done].
    rewrite bind_Ok.
    destruct (rec child alpha b) as [[value vm]|e]; [| done]. rewrite bind_Ok.
    rewrite elem_of_cons.
    destruct (score_lt value m);
      (destruct (score_le (score_min b value) alpha);
       [intros [= _ ->] | intros [Hin | Hbest]%IH]);
      simplify_eq; tauto.
Qed.

End LoopMove.

Section LoopExt.
Variables rec rec' : Grid → Score → Score → result Outcome.
Variables (board : Grid) (p : Z).
Hypothesis rec_same : ∀ child a b, rec child a b = rec' child a b.

Lemma max_loop_ext beta moves : ∀ m best a,
  max_loop rec board p beta moves m best a
  = max_loop rec' board p beta moves m best a.
Proof.
  induction moves as [|move moves IH]; intros m best a; simpl; [done |].
  destruct (add_disk board move p) as [child|e]; [| done].
  rewrite !bind_Ok, rec_same.
  destruct (rec' child a beta) as [[value vm]|e]; [| done]. rewrite !bind_Ok.
  destruct (score_lt m value); by rewrite IH.
Qed.

Lemma min_loop_ext alpha moves : ∀ m best b,
  min_loop rec board p alpha moves m best b
  = min_loop rec' board p alpha moves m best b.
Proof.
  induction moves as [|move moves IH]; intros m best b; simpl; [done |].
  destruct (add_disk board move (3 - p)) as [child|e]; [| done].
  rewrite !bind_Ok, rec_same.
  destruct (rec' child alpha b) as [[value vm]|e]; [| done]. rewrite !bind_Ok.
  destruct (score_lt value m); by rewrite IH.
Qed.
End LoopExt.

(** X5. A move proposed by the search is a legal move of the board it was
    asked about: one of get_possible_moves, hence a column that is not
    full. This holds at every node, for every depth, window and player. *)
Theorem alpha_beta_move_legal board turn depth alpha beta p maximizing v mv :
  alpha_beta board turn depth alpha beta p maximizing = Ok (v, Some mv) →
  mv ∈ get_possible_moves board ∧ column_filled board mv = Ok false.
Proof.
  intros Hrun.
  assert (mv ∈ get_possible_moves board) as Hin.
  { destruct depth as [|depth]; [simpl in Hrun | rewrite alpha_beta_S in Hrun].
    - destruct (get_possible_moves board) as [|m1 [|m2 l]];
        simplify_eq; by left.
    - destruct (get_possible_moves board) as [|m1 [|m2 l]] eqn:Hmoves.
      + destruct (check_victory board), maximizing; simplify_eq.
      + simplify_eq. by left.
      + destruct (check_victory board); [simplify_eq |]. cbv zeta in Hrun.
        destruct maximizing.
        * by apply max_loop_move in Hrun as [? | ?].
        * by apply min_loop_move in Hrun as [? | ?]. }
  split; [done |].
  apply get_possible_moves_elem in Hin as [Hc H0].
  by apply column_filled_false.
Qed.

Lemma alpha_beta_move_legal_witness :
  alpha_beta zeros 1 2 NegInf PosInf 1 true = Ok (Fin (-3), Some 3)
  ∧ 3 ∈ get_possible_moves zeros ∧ column_filled zeros 3 = Ok false.
Proof.
  split; [reflexivity |].
  apply (alpha_beta_move_legal zeros 1 2 NegInf PosInf 1 true (Fin (-3)) 3).
  reflexivity.
Defined.

(** X6. The [turn] argument is dead: two searches that differ only in it
    return the same result. *)
Theorem alpha_beta_ignores_turn board turn turn' depth alpha beta p maximizing :
  alpha_beta board turn depth alpha beta p maximizing
  = alpha_beta board turn' depth alpha beta p maximizing.
Proof.
  revert board alpha beta maximizing.
  induction depth as [|depth IH]; intros board alpha beta mx; [done |].
  rewrite !alpha_beta_S.
  destruct (get_possible_moves board) as [|m1 [|m2 l]]; [| done |];
    (destruct (check_victory board); [done |]); cbv zeta;
    destruct mx; first [by apply max_loop_ext | by apply min_loop_ext].
Qed.

(** X7. For player 1 or 2 the search never raises, whatever the board,
    depth, window and side. Its score is an integer on every board with a
    legal move; on a full board without a victory and at a depth other
    than 0 it is -inf for the maximizing side and +inf for the minimizing
    side, with no move. *)
Theorem alpha_beta_returns board turn depth alpha beta p maximizing :
  p = 1 ∨ p = 2 →
  ∃ v m,
    alpha_beta board turn depth alpha beta p maximizing = Ok (v, m)
    ∧ (get_possible_moves board ≠ [] → ∃ z, v = Fin z)
    ∧ (get_possible_moves board = [] → depth ≠ 0%nat →
       check_victory board = false →
       v = (if maximizing then NegInf else PosInf) ∧ m = None).
Proof.
  intros Hp.
  assert (store_int64 p = Ok p) as Hsp by by apply store_int64_player.
  assert (store_int64 (3 - p) = Ok (3 - p)) as Hsq
    by (apply store_int64_player; lia).
  destruct (get_possible_moves board) as [|m0 l0] eqn:Hmoves.
  - destruct depth as [|depth]; [simpl | rewrite alpha_beta_S]; rewrite Hmoves.
    + eexists _, _. split; [done |]. split; done.
    + destruct (check_victory board).
      * eexists _, _. split; [done |]. split; done.
      * destruct maximizing; eexists _, _; (split; [done |]); split; done.
  - destruct (alpha_beta_finite turn p depth Hsp Hsq board alpha beta maximizing)
      as (z & m & Hrun); [by rewrite Hmoves |].
    exists (Fin z), m. split; [done |]. split; [eauto | done].
Qed.

Lemma alpha_beta_returns_witness :
  (1 = 1 ∨ 1 = 2)
  ∧ ∃ v m,
      alpha_beta drawn 42 3 NegInf PosInf 1 false = Ok (v, m)
      ∧ (get_possible_moves drawn ≠ [] → ∃ z, v = Fin z)
      ∧ (get_possible_moves drawn = [] → 3%nat ≠ 0%nat →
         check_victory drawn = false → v = PosInf ∧ m = None).
Proof.
  split; [by left |].
  apply (alpha_beta_returns drawn 42 3 NegInf PosInf 1 false). by left.
Defined.

(** *** Taking a win at depth 1 *)

Lemma max_loop_cons rec board p beta move moves m best a :
  max_loop rec board p beta (move :: moves) m best a
  = (child_board ← add_disk board move p;
     '(value, _) ← rec child_board a beta;
     let '(max_value, best_move) :=
       if score_lt m value then (value, Some move) else (m, best) in
     let alpha := score_max a value in
     if score_le beta alpha then Ok (max_value, best_move)
     else max_loop rec board p beta moves max_value best_move alpha).
Proof. reflexivity. Qed.

Section Argmax.
Variable rec : Grid → Score → Score → result Outcome.
Variables (board : Grid) (p : Z).

Hypothesis rec_eval : ∀ child a b,
  ∃ m, rec child a b = Ok (Fin (eval child p), m).

Let valued (z : Z) (mv : Z) : Prop :=
  ∃ child, add_disk board mv p = Ok child ∧ eval child p = z.

(** With [beta = +inf] nothing is cut off: over children that are leaves
    the loop returns the first move of greatest evaluation. *)
Lemma max_loop_argmax moves :
  Forall (λ mv, ∃ child, add_disk board mv p = Ok child) moves →
  ∀ z0 best0 a, a ≠ PosInf → valued z0 best0 →
  ∃ z mv,
    max_loop rec board p PosInf moves (Fin z0) (Some best0) a
    = Ok (Fin z, Some mv)
    ∧ valued z mv ∧ z0 ≤ z ∧ (mv = best0 ∨ mv ∈ moves)
    ∧ Forall (λ m, ∀ child, add_disk board m p = Ok child → eval child p ≤ z)
        moves.
Proof.
  induction 1 as [|move moves [child Hchild] _ IH]; intros z0 best0 a Ha Hv.
  - exists z0, best0. simpl. split_and!; [done | done | lia | by left | done].
  - rewrite max_loop_cons, Hchild, bind_Ok.
    destruct (rec_eval child a PosInf) as [m ->]. rewrite bind_Ok. cbv zeta.
    assert (score_max a (Fin (eval child p)) ≠ PosInf) as Ha'.
    { unfold score_max. destruct a; simpl; try done; by case_bool_decide. }
    assert (score_le PosInf (score_max a (Fin (eval child p))) = false) as ->.
    { by destruct (score_max a (Fin (eval child p))). }
    simpl score_lt. case_bool_decide as Hlt.
    + destruct (IH (eval child p) move _ Ha')
        as (z & mv & -> & Hval & Hle & Hmv & Hall); [by exists child |].
      exists z, mv. split_and!; [done | done | lia | | ].
      * right. rewrite elem_of_cons. tauto.
      * constructor; [| done]. intros child' Hchild'.
        assert (child' = child) as -> by congruence. lia.
    + destruct (IH z0 best0 _ Ha' Hv)
        as (z & mv & -> & Hval & Hle & Hmv & Hall).
      exists z, mv. split_and!; [done | done | lia | | ].
      * rewrite elem_of_cons. tauto.
      * constructor; [| done]. intros child' Hchild'.
        assert (child' = child) as -> by congruence. lia.
Qed.
End Argmax.

(** X8. At depth 1 the search takes a win that is on the board: if no
    four in a row exists yet and some legal move of the player (1 or 2)
    completes one, the proposed move is legal and completes one too. *)
Theorem alpha_beta_takes_win board turn p m child :
  p = 1 ∨ p = 2 → check_victory board = false →
  m ∈ get_possible_moves board → add_disk board m p = Ok child →
  check_victory child = true →
  ∃ score mv child',
    alpha_beta board turn 1 NegInf PosInf p true = Ok (score, Some mv)
    ∧ mv ∈ get_possible_moves board
    ∧ add_disk board mv p = Ok child'
    ∧ check_victory child' = true.
Proof.
  intros Hp Hno Hm Hchild Hwon.
  assert (store_int64 p = Ok p) as Hsp by by apply store_int64_player.
  rewrite alpha_beta_S, Hno.
  pose proof (possible_moves_playable board p Hsp) as Hplay.
  destruct (get_possible_moves board) as [|m1 [|m2 l]] eqn:Hmoves.
  - by apply elem_of_nil in Hm.
  - apply list_elem_of_singleton in Hm as ->.
    exists (Fin (eval board p)), m1, child. split_and!; [done | by left | done | done].
  - cbv zeta.
    assert (∀ c a b, ∃ mc,
              alpha_beta c turn 0 a b p false = Ok (Fin (eval c p), mc))
      as Hleaf.
    { intros c a b. simpl.
      destruct (get_possible_moves c) as [|x [|y k]]; eauto. }
    apply Forall_cons in Hplay as [[child1 Hchild1] Hplay].
    rewrite max_loop_cons, Hchild1, bind_Ok.
    destruct (Hleaf child1 NegInf PosInf) as [mc ->]. rewrite bind_Ok.
    cbn [score_lt score_le score_max].
    destruct (max_loop_argmax
                (λ c a b, alpha_beta c turn 0 a b p false) board p Hleaf
                (m2 :: l) Hplay (eval child1 p) m1 (Fin (eval child1 p)))
      as (z & mv & Hrun & (child' & Hchild' & Hz) & Hle & Hmv & Hall);
      [done | by exists child1 |].
    exists (Fin z), mv, child'. split; [exact Hrun |].
    split; [rewrite !elem_of_cons in *; tauto |]. split; [done |].
    assert (eval child p ≤ z) as Hbest.
    { rewrite Forall_forall in Hall.
      apply elem_of_cons in Hm as [-> | Hm]; [| by apply (Hall m)].
      assert (child = child1) as -> by congruence. done. }
    destruct (line_after_drop board m p child Hno Hchild Hwon) as [Hline Hother].
    assert (8364 ≤ eval child p) as Hhigh.
    { apply eval_line_bounds; [done | done |]. apply Hother; lia. }
    destruct (check_victory child') eqn:Hwon'; [done |].
    pose proof (proj1 (eval_line_bounds child' p Hp) Hwon'). lia.
Qed.

Lemma alpha_beta_takes_win_witness :
  ∃ score mv child',
    alpha_beta three_in_row 7 1 NegInf PosInf 1 true = Ok (score, Some mv)
    ∧ mv ∈ get_possible_moves three_in_row
    ∧ add_disk three_in_row mv 1 = Ok child'
    ∧ check_victory child' = true.
Proof.
  apply (alpha_beta_takes_win three_in_row 7 1 3 won_row);
    [by left | reflexivity | | reflexivity | reflexivity].
  vm_compute. constructor.
Defined.

(** *** The canvas *)

Lemma loop_variable_break g c pre j post j0 :
  Forall (λ r, cell g c r ≠ 0) pre → cell g c j = 0 →
  Gui.loop_variable g c (pre ++ j :: post) j0 = j.
Proof.
  intros Hpre Hj. revert j0.
  induction Hpre as [|r pre Hr _ IH]; intros j0; simpl.
  - by rewrite bool_decide_eq_true_2.
  - by rewrite bool_decide_eq_false_2.
Qed.

Lemma loop_variable_end g c js j0 :
  Forall (λ r, cell g c r ≠ 0) js →
  Gui.loop_variable g c js j0 = default j0 (last js).
Proof.
  intros Hjs. revert j0. induction Hjs as [|r js Hr _ IH]; intros j0; [done |].
  cbn [Gui.loop_variable]. rewrite bool_decide_eq_false_2 by done.
  rewrite IH, last_cons. by destruct (last js).
Qed.

Lemma item_itemconfig_other cv i j c i' j' :
  (i', j') ≠ (i, j) → Gui.item (Gui.itemconfig cv i j c) i' j' = Gui.item cv i' j'.
Proof.
  intros Hne. unfold Gui.item, Gui.itemconfig.
  destruct (decide (i' = i)) as [-> |].
  - rewrite list_lookup_alter_eq. destruct (cv !! i) as [items|]; simpl; [| done].
    apply list_lookup_insert_ne. congruence.
  - by rewrite list_lookup_alter_ne.
Qed.

Lemma item_itemconfig_same cv i j c :
  is_Some (Gui.item cv i j) → Gui.item (Gui.itemconfig cv i j c) i j = Some c.
Proof.
  unfold Gui.item, Gui.itemconfig. rewrite list_lookup_alter_eq.
  destruct (cv !! i) as [items|]; simpl; [| by intros [? ?]].
  intros [x Hx]. apply list_lookup_insert_eq. by eapply lookup_lt_Some.
Qed.

Lemma column_filled_inv g column b :
  column_filled g column = Ok b →
  ∃ c, np_index 7 column = Ok c ∧ (c < 7)%nat
       ∧ b = bool_decide (cell g c 5 ≠ 0).
Proof.
  unfold column_filled.
  destruct (np_index 7 column) as [c|e] eqn:Hc; [| done].
  rewrite bind_Ok. intros [= <-]. exists c. split; [done |].
  split; [by apply np_index_lt in Hc | done].
Qed.

Lemma disk_color_player p :
  p = 1 ∨ p = 2 → ∃ fill, Gui.list_index Gui.disk_color p = Ok fill.
Proof. intros [-> | ->]; eexists; reflexivity. Qed.

(** A drop on a column that is not full, shown on the canvas. *)
Lemma add_disk_shown w column p :
  shape_ok (Gui.grid w) → Gui.shown w → p = 1 ∨ p = 2 →
  column_filled (Gui.grid w) column = Ok false →
  ∃ g' cv,
    Gui.add_disk w column p true = Gui.Returned (Gui.mkWorld g' cv)
    ∧ add_disk (Gui.grid w) column p = Ok g'
    ∧ g' ≠ Gui.grid w
    ∧ Gui.shown (Gui.mkWorld g' cv).
Proof.
  destruct w as [g cv]. simpl. intros Hg Hshown Hp Hfree.
  apply column_filled_inv in Hfree as (c & Hc & Hclt & Hfree).
  symmetry in Hfree. apply bool_decide_eq_false in Hfree.
  assert (cell g c 5 = 0) as Htop by lia. clear Hfree.
  unfold Gui.add_disk. cbn [Gui.grid Gui.canvas].
  destruct (add_disk_rows_returns g c p (range 0 6)
              (store_int64_player p Hp)) as [g' Hdrop'].
  assert (add_disk g column p = Ok g') as Hdrop
    by (unfold add_disk; by rewrite Hc, bind_Ok).
  rewrite Hdrop, Hc.
  destruct (add_disk_rows_result _ _ _ _ _ Hdrop')
    as [[Hall _] | (pre & j & post & Hsplit & Hpre & Hj & ->)].
  { exfalso. rewrite Forall_forall in Hall. apply (Hall 5%nat); [| done].
    apply range_elem. lia. }
  rewrite bind_Ok. destruct (disk_color_player p Hp) as [fill Hfill].
  rewrite Hfill, bind_Ok.
  rewrite Hsplit, (loop_variable_break g c pre j post) by done.
  apply range_split in Hsplit as [Hjlt _].
  eexists _, _. split; [done |]. split; [done |]. split.
  - intros Heq. assert (cell (set_cell g c j p) c j = 0) as H0 by by rewrite Heq.
    rewrite cell_set_cell_same in H0 by (done || lia). lia.
  - intros c' r' Hc' Hr'. simpl.
    destruct (decide ((c', r') = (c, j))) as [[= -> ->] | Hne].
    + exists fill. rewrite cell_set_cell_same by (done || lia).
      split; [| done]. apply item_itemconfig_same.
      destruct (Hshown c j Hc' Hr') as (x & Hx & _). by exists x.
    + rewrite item_itemconfig_other, cell_set_cell_other by done.
      by apply Hshown.
Qed.

(** X9. On the canvas a drop is shown as it is made: for a grid of the
    right shape whose ovals show its cells, add_disk with update_display
    on a column that is not full returns for player 1 or 2, changes the
    grid as the drop without display does, and the ovals show the new
    grid. *)
Theorem add_disk_keeps_canvas w column p :
  shape_ok (Gui.grid w) → Gui.shown w → p = 1 ∨ p = 2 →
  column_filled (Gui.grid w) column = Ok false →
  ∃ w',
    Gui.add_disk w column p true = Gui.Returned w'
    ∧ add_disk (Gui.grid w) column p = Ok (Gui.grid w')
    ∧ Gui.shown w'.
Proof.
  intros Hg Hshown Hp Hfree.
  destruct (add_disk_shown w column p Hg Hshown Hp Hfree)
    as (g' & cv & Hrun & Hdrop & _ & Hshown').
  by exists (Gui.mkWorld g' cv).
Qed.

Lemma shown_blank : Gui.shown (Gui.mkWorld zeros Gui.blank).
Proof.
  intros c r Hc Hr. exists Gui.White.
  do 7 (destruct c as [|c]; [do 6 (destruct r as [|r]; [by vm_compute |]); lia |]).
  lia.
Qed.

Lemma add_disk_keeps_canvas_witness :
  ∃ w',
    Gui.add_disk (Gui.mkWorld zeros Gui.blank) 3 1 true = Gui.Returned w'
    ∧ add_disk zeros 3 1 = Ok (Gui.grid w')
    ∧ Gui.shown w'.
Proof.
  apply (add_disk_keeps_canvas (Gui.mkWorld zeros Gui.blank) 3 1);
    [apply shape_ok_zeros | apply shown_blank | by left | reflexivity].
Defined.

(** X10. On a full column add_disk with update_display still repaints: on
    a board under gravity the grid is left as it is and the top oval of
    the column takes the colour of the player, so after a call for the
    player who does not own the top cell the canvas no longer shows the
    grid. *)
Theorem add_disk_full_column_repaints w column p :
  gravity (Gui.grid w) → Gui.shown w → p = 1 ∨ p = 2 →
  column_filled (Gui.grid w) column = Ok true →
  ∃ c fill,
    np_index 7 column = Ok c
    ∧ Gui.list_index Gui.disk_color p = Ok fill
    ∧ Gui.add_disk w column p true
      = Gui.Returned
          {| Gui.grid := Gui.grid w;
             Gui.canvas := Gui.itemconfig (Gui.canvas w) c 5 fill |}
    ∧ Gui.item (Gui.itemconfig (Gui.canvas w) c 5 fill) c 5 = Some fill
    ∧ (cell (Gui.grid w) c 5 = 3 - p →
       ¬ Gui.shown {| Gui.grid := Gui.grid w;
                      Gui.canvas := Gui.itemconfig (Gui.canvas w) c 5 fill |}).
Proof.
  destruct w as [g cv]. simpl. intros Hg Hshown Hp Hfull.
  apply column_filled_inv in Hfull as (c & Hc & Hclt & Hfull).
  symmetry in Hfull. apply bool_decide_eq_true in Hfull.
  pose proof (gravity_full_column g c Hg Hclt Hfull) as Hall.
  destruct (disk_color_player p Hp) as [fill Hfill].
  assert (Gui.item (Gui.itemconfig cv c 5 fill) c 5 = Some fill) as Hitem.
  { apply item_itemconfig_same.
    destruct (Hshown c 5%nat Hclt ltac:(lia)) as (x & Hx & _). by exists x. }
  exists c, fill. split; [done |]. split; [done |]. split; [| split; [done |]].
  - unfold Gui.add_disk, add_disk. cbn [Gui.grid Gui.canvas].
    rewrite Hc, !bind_Ok, add_disk_rows_none by done.
    rewrite Hfill, bind_Ok. by rewrite loop_variable_end by done.
  - intros Htop Hshown'.
    destruct (Hshown' c 5%nat Hclt ltac:(lia)) as (x & Hx & Hcol).
    simpl in Hx, Hcol. rewrite Hitem in Hx. injection Hx as <-.
    rewrite Htop in Hcol.
    destruct Hp as [-> | ->]; vm_compute in Hfill, Hcol; congruence.
Qed.

Lemma shown_full_column :
  Gui.shown (Gui.mkWorld full_column
               ([Gui.Red; Gui.Orange; Gui.Red; Gui.Orange; Gui.Red; Gui.Orange]
                :: replicate 6 (replicate 6 Gui.White))).
Proof.
  intros c r Hc Hr.
  do 7 (destruct c as [|c];
        [do 6 (destruct r as [|r]; [eexists; by vm_compute |]); lia |]).
  lia.
Qed.

Lemma add_disk_full_column_repaints_witness :
  ∃ c fill,
    np_index 7 0 = Ok c
    ∧ Gui.list_index Gui.disk_color 1 = Ok fill
    ∧ Gui.add_disk
        (Gui.mkWorld full_column
           ([Gui.Red; Gui.Orange; Gui.Red; Gui.Orange; Gui.Red; Gui.Orange]
            :: replicate 6 (replicate 6 Gui.White))) 0 1 true
      = Gui.Returned
          {| Gui.grid := full_column;
             Gui.canvas :=
               Gui.itemconfig
                 ([Gui.Red; Gui.Orange; Gui.Red; Gui.Orange; Gui.Red;
                   Gui.Orange] :: replicate 6 (replicate 6 Gui.White))
                 c 5 fill |}.
Proof.
  destruct (add_disk_full_column_repaints
              (Gui.mkWorld full_column
                 ([Gui.Red; Gui.Orange; Gui.Red; Gui.Orange; Gui.Red;
                   Gui.Orange] :: replicate 6 (replicate 6 Gui.White)))
              0 1 gravity_full_column_fixture shown_full_column
              (or_introl eq_refl) eq_refl)
    as (c & fill & Hc & Hfill & Hrun & _).
  exists c, fill. split; [exact Hc |]. split; [exact Hfill | exact Hrun].
Defined.

(** X11. add_disk with update_display is not all-or-nothing: on a column
    that is not full, a player that fits in a cell but has no colour in
    disk_color (outside [-3, 2]) is written into the grid, and then the
    call fails with IndexError, the canvas untouched. *)
Theorem add_disk_without_colour w column p :
  shape_ok (Gui.grid w) →
  column_filled (Gui.grid w) column = Ok false →
  - 2 ^ 63 ≤ p < 2 ^ 63 → ¬ (-3 ≤ p < 3) →
  ∃ g',
    add_disk (Gui.grid w) column p = Ok g'
    ∧ g' ≠ Gui.grid w
    ∧ Gui.add_disk w column p true
      = Gui.Failed IndexError {| Gui.grid := g'; Gui.canvas := Gui.canvas w |}.
Proof.
  destruct w as [g cv]. cbn [Gui.grid Gui.canvas]. intros Hg Hfree Hp Hcol.
  apply column_filled_inv in Hfree as (c & Hc & Hclt & Hfree).
  symmetry in Hfree. apply bool_decide_eq_false in Hfree.
  assert (cell g c 5 = 0) as Htop by lia. clear Hfree.
  assert (store_int64 p = Ok p) as Hstore
    by (unfold store_int64; by rewrite bool_decide_eq_true_2).
  destruct (add_disk_rows_returns g c p (range 0 6) Hstore) as [g' Hdrop'].
  assert (add_disk g column p = Ok g') as Hdrop
    by (unfold add_disk; by rewrite Hc, bind_Ok).
  exists g'. split; [done |]. split.
  - destruct (add_disk_rows_result _ _ _ _ _ Hdrop')
      as [[Hall _] | (pre & j & post & Hsplit & Hpre & Hj & ->)].
    { exfalso. rewrite Forall_forall in Hall. apply (Hall 5%nat); [| done].
      apply range_elem. lia. }
    apply range_split in Hsplit as [Hjlt _].
    intros Heq. assert (cell (set_cell g c j p) c j = 0) as H0 by by rewrite Heq.
    rewrite cell_set_cell_same in H0 by (done || lia). lia.
  - unfold Gui.add_disk. cbn [Gui.grid Gui.canvas]. rewrite Hdrop, Hc, bind_Ok.
    assert (Gui.list_index Gui.disk_color p = Raise IndexError) as ->; [| done].
    unfold Gui.list_index. by rewrite np_index_outside by (simpl; lia).
Qed.

Lemma add_disk_without_colour_witness :
  ∃ g',
    add_disk zeros 3 5 = Ok g'
    ∧ g' ≠ zeros
    ∧ Gui.add_disk (Gui.mkWorld zeros Gui.blank) 3 5 true
      = Gui.Failed IndexError {| Gui.grid := g'; Gui.canvas := Gui.blank |}.
Proof.
  apply (add_disk_without_colour (Gui.mkWorld zeros Gui.blank) 3 5);
    [apply shape_ok_zeros | reflexivity | lia | lia].
Defined.

Lemma length_seven {A} (l : list A) :
  length l = 7%nat → ∃ a b c d e f g, l = [a; b; c; d; e; f; g].
Proof.
  destruct l as [|a [|b [|c [|d [|e [|f [|g [|h l]]]]]]]]; intros [=].
  eauto 10.
Qed.

Lemma length_six {A} (l : list A) :
  length l = 6%nat → ∃ a b c d e f, l = [a; b; c; d; e; f].
Proof.
  destruct l as [|a [|b [|c [|d [|e [|f [|g l]]]]]]]; intros [=]. eauto 10.
Qed.

Lemma fill_shape g v : shape_ok g → Gui.fill g v = replicate 7 (replicate 6 v).
Proof.
  intros [(a & b & c & d & e & f & h & ->)%length_seven Hcols].
  repeat (apply Forall_cons in Hcols as [(? & ? & ? & ? & ? & ? & ->)%length_six Hcols]).
  reflexivity.
Qed.

(** X12. reinit gives back the board of a new game whatever was played:
    on a grid and a canvas of the right shape, the grid is all zeros and
    every oval is white. *)
Theorem reinit_blank w :
  shape_ok (Gui.grid w) → Gui.canvas_ok (Gui.canvas w) →
  Gui.reinit w = {| Gui.grid := zeros; Gui.canvas := Gui.blank |}.
Proof.
  destruct w as [g cv]. cbn [Gui.grid Gui.canvas]. intros Hg Hcv.
  unfold Gui.reinit. cbn [Gui.grid Gui.canvas]. rewrite fill_shape by done.
  f_equal.
  destruct Hcv as [(a & b & c & d & e & f & h & ->)%length_seven Hcols].
  repeat (apply Forall_cons in Hcols as [(? & ? & ? & ? & ? & ? & ->)%length_six Hcols]).
  reflexivity.
Qed.

Lemma reinit_blank_witness :
  Gui.reinit (Gui.mkWorld won_row Gui.blank)
  = {| Gui.grid := zeros; Gui.canvas := Gui.blank |}.
Proof.
  apply (reinit_blank (Gui.mkWorld won_row Gui.blank)).
  - split; [reflexivity |]. repeat constructor.
  - split; [reflexivity |]. repeat constructor.
Defined.

(** *** Counting disks *)

Lemma grid_cells_NoDup : NoDup grid_cells.
Proof. apply (bool_decide_unpack _). by vm_compute. Qed.

Lemma grid_cells_elem c r : (c, r) ∈ grid_cells ↔ (c < 7)%nat ∧ (r < 6)%nat.
Proof.
  unfold grid_cells. rewrite list_elem_of_bind. split.
  - intros (c' & (r' & [= -> ->]%list_elem_of_singleton & Hr)%list_elem_of_bind & Hc).
    apply range_elem in Hr, Hc. lia.
  - intros [Hc Hr]. exists c. split; [| apply range_elem; lia].
    apply list_elem_of_bind. exists r. split; [by apply list_elem_of_singleton |].
    apply range_elem. lia.
Qed.

(** A drop that changes the grid adds one disk, of the player. *)
Lemma add_disk_counts g column p g' :
  shape_ok g → p ≠ 0 → add_disk g column p = Ok g' → g' ≠ g →
  disks g' = S (disks g)
  ∧ disks_of p g' = S (disks_of p g)
  ∧ ∀ q, q ≠ 0 → q ≠ p → disks_of q g' = disks_of q g.
Proof.
  intros Hg Hp [-> | (c & j & Hc & Hj & Hempty & _ & ->)]%add_disk_drop Hne;
    [done |].
  apply np_index_lt in Hc.
  assert ((c, j) ∈ grid_cells) as Hin by by apply grid_cells_elem.
  assert (cell (set_cell g c j p) c j = p) as Hnew
    by by apply cell_set_cell_same.
  split; [| split].
  - unfold disks. apply (length_filter_one_more _ _ _ (c, j));
      [apply grid_cells_NoDup | done | simpl; by intros H | simpl; by rewrite Hnew |].
    intros [c' r'] _ Hne'. simpl. by rewrite cell_set_cell_other.
  - unfold disks_of. apply (length_filter_one_more _ _ _ (c, j));
      [apply grid_cells_NoDup | done | simpl; congruence | done |].
    intros [c' r'] _ Hne'. simpl. by rewrite cell_set_cell_other.
  - intros q Hq0 Hqp. unfold disks_of. apply length_filter_ext_in.
    intros [c' r'] _. simpl.
    destruct (decide ((c', r') = (c, j))) as [[= -> ->] | Hne'].
    + rewrite Hnew, Hempty. split; congruence.
    + by rewrite cell_set_cell_other.
Qed.

Lemma position_ok_zeros : position_ok zeros.
Proof.
  split; [apply shape_ok_zeros |]. split; [| split; [| split; reflexivity]].
  - intros c r Hc Hr _.
    do 7 (destruct c as [|c]; [do 5 (destruct r as [|r]; [done |]); lia |]).
    lia.
  - intros c r. left.
    do 7 (destruct c as [|c]; [do 6 (destruct r as [|r]; [done |]);
                               by destruct r |]).
    by destruct c.
Qed.

Lemma current_player_cases t :
  (Z.odd t = true ∧ (t - 1) `mod` 2 + 1 = 1)
  ∨ (Z.odd t = false ∧ (t - 1) `mod` 2 + 1 = 2).
Proof.
  rewrite Zodd_mod. destruct (Z.eqb_spec (t `mod` 2) 1); [left | right];
    (split; [done |]); Z.div_mod_to_equations; lia.
Qed.

(** After the drop of turn [t] on a position with [t - 1] disks. *)
Lemma position_ok_add_disk g column t g' :
  position_ok g → Z.of_nat (disks g) = t - 1 →
  add_disk g column ((t - 1) `mod` 2 + 1) = Ok g' → g' ≠ g →
  position_ok g' ∧ Z.of_nat (disks g') = t.
Proof.
  intros (Hshape & Hgrav & Hcells & H1 & H2) Hdisks Hdrop Hne.
  set (p := (t - 1) `mod` 2 + 1) in *.
  assert (p = 1 ∨ p = 2) as Hp by (subst p; Z.div_mod_to_equations; lia).
  destruct (add_disk_counts g column p g' Hshape ltac:(lia) Hdrop Hne)
    as (Hn & Hpn & Hqn).
  split; [| lia].
  split; [by eapply shape_ok_add_disk |].
  split; [eapply gravity_add_disk; [| done..]; lia |].
  split; [by eapply cells_ok_add_disk |].
  rewrite Hn. subst p.
  destruct (current_player_cases t) as [[Hodd Hcp] | [Hodd Hcp]];
    rewrite Hcp in *.
  - rewrite Hpn, (Hqn 2) by lia. rewrite H1, H2.
    rewrite Zodd_mod in Hodd. apply Z.eqb_eq in Hodd.
    split; apply Nat2Z.inj;
      rewrite ?Nat2Z.inj_succ, !Nat2Z.inj_div, ?Nat2Z.inj_add, ?Nat2Z.inj_succ;
      Z.div_mod_to_equations; lia.
  - rewrite Hpn, (Hqn 1) by lia. rewrite H1, H2.
    rewrite Zodd_mod in Hodd. apply Z.eqb_neq in Hodd.
    split; apply Nat2Z.inj;
      rewrite ?Nat2Z.inj_succ, !Nat2Z.inj_div, ?Nat2Z.inj_add, ?Nat2Z.inj_succ;
      Z.div_mod_to_equations; lia.
Qed.

(** *** The game *)

Lemma filter_all {A} (P : A → Prop) `{!∀ x, Decision (P x)} l :
  Forall P l → filter P l = l.
Proof.
  induction 1 as [|x l Hx _ IH]; [done |].
  by rewrite filter_cons, decide_True, IH.
Qed.

Lemma gravity_below g c k :
  gravity g → (c < 7)%nat → (k ≤ 5)%nat → cell g c 5 ≠ 0 →
  cell g c (5 - k) ≠ 0.
Proof.
  intros Hg Hc Hk Htop. induction k as [|k IH]; [done |].
  intros H0. apply IH; [lia |].
  replace (5 - k)%nat with (S (5 - S k)) by lia. apply Hg; [done | lia | done].
Qed.

(** Under gravity a board with fewer than 42 disks has a legal move. *)
Lemma not_full_has_move g :
  gravity g → (disks g < 42)%nat → get_possible_moves g ≠ [].
Proof.
  intros Hg Hn Hnil. rewrite get_possible_moves_filter in Hnil.
  apply filter_nil_Forall in Hnil. rewrite Forall_forall in Hnil.
  assert (disks g = 42%nat); [| lia].
  unfold disks. rewrite filter_all; [reflexivity |].
  apply Forall_forall. intros [c r] [Hc Hr]%grid_cells_elem. simpl.
  replace r with (5 - (5 - r))%nat by lia.
  apply gravity_below; [done | done | lia |].
  replace c with (Z.to_nat (Z.of_nat c)) by lia.
  apply Hnil, center_out_elem. lia.
Qed.

Lemma full_no_move g :
  gravity g → disks g = 42%nat → get_possible_moves g = [].
Proof.
  intros Hg Hn. apply no_possible_moves. intros c Hc.
  apply column_filled_true; [done |]. intros H0.
  assert (disks g < 42)%nat; [| lia].
  unfold disks.
  assert ((Z.to_nat c, 5%nat) ∈ grid_cells) as Hin
    by (apply grid_cells_elem; lia).
  apply list_elem_of_split in Hin as (l1 & l2 & Hsplit).
  assert (length grid_cells = 42%nat) as Hlen by reflexivity.
  rewrite Hsplit in *. rewrite filter_app, filter_cons, decide_False
    by (simpl; tauto).
  rewrite length_app in *. simpl in Hlen.
  pose proof (length_filter (λ cr, cell g cr.1 cr.2 ≠ 0) l1).
  pose proof (length_filter (λ cr, cell g cr.1 cr.2 ≠ 0) l2).
  lia.
Qed.

(** At the root the search proposes a legal move. *)
Lemma root_proposes board turn depth p :
  p = 1 ∨ p = 2 → depth ≠ 0%nat →
  check_victory board = false → get_possible_moves board ≠ [] →
  ∃ m, alpha_beta_decision board turn depth p = Ok (Some m)
       ∧ m ∈ get_possible_moves board.
Proof.
  intros Hp Hdepth Hno Hmoves.
  assert (store_int64 p = Ok p) as Hsp by by apply store_int64_player.
  assert (store_int64 (3 - p) = Ok (3 - p)) as Hsq
    by (apply store_int64_player; lia).
  destruct depth as [|depth]; [done |].
  unfold alpha_beta_decision. rewrite alpha_beta_S, Hno.
  destruct (get_possible_moves board) as [|m1 [|m2 l]] eqn:Hm; [done | |].
  - rewrite bind_Ok. exists m1. split; [done | by left].
  - cbv zeta.
    destruct (max_loop_proposes
                (λ child a b, alpha_beta child turn depth a b p false)
                board p PosInf (m1 :: m2 :: l) NegInf) as (z & mv & Hrun);
      [| done |].
    { eapply Forall_impl; [apply (children_have_moves board p _ _ _ Hm Hsp) |].
      intros mv (child & Hchild & Hmv). exists child. split; [done |].
      intros a b. by apply alpha_beta_finite. }
    rewrite Hrun, bind_Ok. exists mv. split; [done |].
    by apply max_loop_move in Hrun as [? | ?].
Qed.

(** *** The game: threads and methods *)

(** A thread that ends changes the threads and the queue only. *)
Lemma thread_done_fields i a s :
  Game.world (Game.thread_done i a s) = Game.world s
  ∧ Game.human_turn (Game.thread_done i a s) = Game.human_turn s
  ∧ Game.turn (Game.thread_done i a s) = Game.turn s
  ∧ Game.players (Game.thread_done i a s) = Game.players s
  ∧ Game.timers (Game.thread_done i a s) = Game.timers s
  ∧ Game.fg (Game.thread_done i a s) = Game.fg s
  ∧ Game.text (Game.thread_done i a s) = Game.text s.
Proof.
  unfold Game.thread_done. destruct (Game.threads s !! i) as [th|]; [| done].
  cbv zeta. by repeat case_match.
Qed.

Lemma threads_end_fields l : ∀ s,
  Game.world (Game.threads_end l s) = Game.world s
  ∧ Game.human_turn (Game.threads_end l s) = Game.human_turn s
  ∧ Game.turn (Game.threads_end l s) = Game.turn s
  ∧ Game.players (Game.threads_end l s) = Game.players s
  ∧ Game.timers (Game.threads_end l s) = Game.timers s
  ∧ Game.fg (Game.threads_end l s) = Game.fg s
  ∧ Game.text (Game.threads_end l s) = Game.text s.
Proof.
  induction l as [|[i a] l IH]; intros s; [done |].
  unfold Game.threads_end in *. simpl.
  destruct (IH (Game.thread_done i a s)) as (-> & -> & -> & -> & -> & -> & ->).
  apply thread_done_fields.
Qed.

Lemma threads_end_none l s :
  Game.threads s = [] → Game.threads_end l s = s.
Proof.
  intros Hth. induction l as [|[i a] l IH]; [done |].
  unfold Game.threads_end in *. simpl.
  replace (Game.thread_done i a s) with s; [done |].
  unfold Game.thread_done. by rewrite Hth.
Qed.

(** One clean thread runs: whatever the schedule, it has not ended or it
    has put the move of its search. *)
Lemma threads_end_one l s th r :
  Game.threads s = [th] → Game.t_clean th = true →
  alpha_beta_decision (Gui.grid (Game.world s)) (Game.t_turn th)
    (Game.t_level th) (Game.t_player th) = Ok r →
  Game.threads_end l s = s
  ∨ Game.threads_end l s
    = Game.set_ai_move (Game.ai_move s ++ [r]) (Game.set_threads [] s).
Proof.
  intros Hth Hclean Hrun. induction l as [|[i a] l IH]; [by left |].
  unfold Game.threads_end in *. simpl. destruct i as [|i].
  - right.
    replace (Game.thread_done 0 a s)
      with (Game.set_ai_move (Game.ai_move s ++ [r]) (Game.set_threads [] s)).
    + by apply (threads_end_none l).
    + unfold Game.thread_done. rewrite Hth. simpl. by rewrite Hclean, Hrun.
  - replace (Game.thread_done (S i) a s) with s; [done |].
    unfold Game.thread_done. by rewrite Hth.
Qed.

Lemma current_player_range s :
  Game.current_player s = 1 ∨ Game.current_player s = 2.
Proof.
  unfold Game.current_player.
  destruct (current_player_cases (Game.turn s)) as [[_ ->] | [_ ->]]; auto.
Qed.

Lemma current_player_ext s s' :
  Game.turn s = Game.turn s' → Game.current_player s = Game.current_player s'.
Proof. unfold Game.current_player. by intros ->. Qed.

Lemma player_kind_ext s s' :
  Game.turn s = Game.turn s' → Game.players s = Game.players s' →
  Game.player_kind s = Game.player_kind s'.
Proof.
  intros Ht Hps. unfold Game.player_kind.
  by rewrite (current_player_ext s s'), Hps.
Qed.

(** How a call of [handle_turn] ends: it returns, or it makes one drop of
    a queued move and calls [handle_turn] again, one turn later. *)
Lemma handle_turn_in_cases sched s :
  (∃ o, ∀ R (ret : Game.Outcome → R) rec,
          Game.handle_turn_in ret rec sched s = ret o)
  ∨ (∃ s', Game.turn s < 42 ∧ Game.turn s' = Game.turn s + 1
           ∧ ∀ R (ret : Game.Outcome → R) rec,
               Game.handle_turn_in ret rec sched s = rec (tail sched) s').
Proof.
  unfold Game.handle_turn_in, Game.ai_turn_in, Game.ai_wait_for_move_in,
    Game.move_in. cbv zeta.
  destruct (check_victory _); [left; eexists; by intros |].
  case_bool_decide as Hlast; [left; eexists; by intros |].
  case_bool_decide as Hkind; [| left; eexists; by intros].
  match goal with
  | |- context [Game.threads_end ?l ?s0] =>
      pose proof (threads_end_fields l s0) as (Hw & _ & Ht & _);
      destruct (Game.threads_end l s0) as [w ht t pl q th tm f tx]
  end.
  simpl in Hw, Ht, Hlast. cbn [Game.ai_move].
  destruct q as [|[column|] q]; [left; eexists; by intros | |
                                 left; eexists; by intros].
  cbn [Game.world Game.set_ai_move].
  destruct (column_filled (Gui.grid w) column) as [[|]|e];
    [left; eexists; by intros | | left; eexists; by intros].
  destruct (Gui.add_disk w column _ true) as [w'|e w'];
    [| left; eexists; by intros].
  right. eexists. split; [lia |]. split; [| by intros].
  simpl. done.
Qed.

Lemma handle_turn_from_S n :
  Game.handle_turn_from (S n)
  = Game.handle_turn_in Some (Game.handle_turn_from n).
Proof. reflexivity. Qed.

(** Enough depth gives the result, and more depth gives the same. *)
Lemma handle_turn_from_enough n : ∀ sched s,
  (Z.to_nat (42 - Game.turn s) ≤ n)%nat →
  ∃ o, Game.handle_turn_from n sched s = Some o
       ∧ Game.handle_turn_from (Z.to_nat (42 - Game.turn s)) sched s = Some o.
Proof.
  induction n as [|n IH]; intros sched s Hn.
  - replace (Z.to_nat (42 - Game.turn s)) with 0%nat by lia.
    destruct (handle_turn_in_cases sched s) as [[o Ho] | (s' & Ht & _)];
      [| lia].
    exists o. split; apply Ho.
  - rewrite handle_turn_from_S.
    destruct (handle_turn_in_cases sched s) as [[o Ho] | (s' & Ht & Ht' & Hs')].
    + exists o. split; [apply Ho |].
      destruct (Z.to_nat (42 - Game.turn s)); apply Ho.
    + replace (Z.to_nat (42 - Game.turn s))
        with (S (Z.to_nat (42 - Game.turn s'))) by lia.
      rewrite handle_turn_from_S, !Hs'. apply IH. lia.
Qed.

Lemma handle_turn_from_fuel sched s :
  Game.handle_turn_from (Z.to_nat (42 - Game.turn s)) sched s
  = Some (Game.handle_turn sched s).
Proof.
  unfold Game.handle_turn.
  destruct (handle_turn_from_enough _ sched s (le_n _)) as (o & -> & _). done.
Qed.

(** [handle_turn] never lacks depth. *)
Lemma handle_turn_returns n sched s :
  (Z.to_nat (42 - Game.turn s) ≤ n)%nat →
  Game.handle_turn_from n sched s = Some (Game.handle_turn sched s).
Proof.
  intros Hn. destruct (handle_turn_from_enough n sched s Hn) as (o & -> & Ho).
  rewrite handle_turn_from_fuel in Ho. by injection Ho as <-.
Qed.

Lemma handle_turn_in_id sched s :
  Game.handle_turn sched s
  = Game.handle_turn_in id Game.handle_turn sched s.
Proof.
  assert (Some (Game.handle_turn sched s)
          = Some (Game.handle_turn_in id Game.handle_turn sched s)) as Heq;
    [| by injection Heq].
  rewrite <- handle_turn_from_fuel.
  destruct (handle_turn_in_cases sched s) as [[o Ho] | (s' & Ht & Ht' & Hs')].
  - rewrite (Ho _ id Game.handle_turn).
    destruct (Z.to_nat (42 - Game.turn s)); apply Ho.
  - replace (Z.to_nat (42 - Game.turn s))
      with (S (Z.to_nat (42 - Game.turn s'))) by lia.
    rewrite handle_turn_from_S, (Hs' _ Some), (Hs' _ id).
    apply handle_turn_returns. lia.
Qed.

(** [handle_turn] as the source has it, with its call of [ai_turn]. *)
Lemma handle_turn_unfold sched s :
  Game.handle_turn sched s
  = let s := Game.set_human_turn false s in
    if check_victory (Gui.grid (Game.world s))
    then
      let s := Game.set_fg Game.RedInk s in
      (Game.set_text (Game.Wins (Game.current_player s)) s, None)
    else if bool_decide (42 ≤ Game.turn s)
    then
      let s := Game.set_fg Game.RedInk s in
      (Game.set_text Game.Draw s, None)
    else
      let s := Game.set_turn (Game.turn s + 1) s in
      let s :=
        Game.set_text
          (Game.Playing (Game.turn s) (Game.current_player s)) s in
      if bool_decide (Game.player_kind s ≠ 0%nat)
      then Game.ai_turn (Game.player_kind s) sched
             (Game.set_human_turn false s)
      else (Game.set_human_turn true s, None).
Proof. exact (handle_turn_in_id sched s). Qed.

(** *** The game: what a drop and a turn keep *)

Lemma kept_refl g : kept g g.
Proof. by intros c r _. Qed.

Lemma kept_trans g1 g2 g3 : kept g1 g2 → kept g2 g3 → kept g1 g3.
Proof.
  intros H12 H23 c r Hc. rewrite <- (H12 c r Hc). apply H23.
  by rewrite (H12 c r Hc).
Qed.

Lemma add_disk_kept g column p g' : add_disk g column p = Ok g' → kept g g'.
Proof.
  intros [-> | (c & j & _ & _ & Hempty & _ & ->)]%add_disk_drop;
    [apply kept_refl |].
  intros c' r' Hc'. apply cell_set_cell_other. intros [= -> ->]. done.
Qed.

Lemma canvas_ok_itemconfig cv i j c :
  Gui.canvas_ok cv → Gui.canvas_ok (Gui.itemconfig cv i j c).
Proof.
  intros [Hlen Hcols]. unfold Gui.itemconfig. split.
  - by rewrite length_alter.
  - apply Forall_alter; [done |]. intros items _ Hitems.
    by rewrite length_insert.
Qed.

Lemma add_disk_canvas_ok w column p w' :
  Gui.add_disk w column p true = Gui.Returned w' →
  Gui.canvas_ok (Gui.canvas w) → Gui.canvas_ok (Gui.canvas w').
Proof.
  unfold Gui.add_disk. destruct (add_disk (Gui.grid w) column p); [| done].
  destruct (np_index 7 column) as [i|]; [| done]. rewrite bind_Ok.
  destruct (Gui.list_index Gui.disk_color p) as [fill|]; [| done].
  rewrite bind_Ok. intros [= <-] Hcv. by apply canvas_ok_itemconfig.
Qed.

Lemma canvas_ok_blank : Gui.canvas_ok Gui.blank.
Proof. split; [reflexivity |]. repeat constructor. Qed.

Lemma reinit_world w :
  shape_ok (Gui.grid w) → Gui.canvas_ok (Gui.canvas w) →
  Gui.reinit w = {| Gui.grid := zeros; Gui.canvas := Gui.blank |}.
Proof.
  destruct w as [g cv]. cbn [Gui.grid Gui.canvas]. intros Hg Hcv.
  unfold Gui.reinit. cbn [Gui.grid Gui.canvas]. rewrite fill_shape by done.
  f_equal.
  destruct Hcv as [(a & b & c & d & e & f & h & ->)%length_seven Hcols].
  repeat (apply Forall_cons in Hcols
            as [(? & ? & ? & ? & ? & ? & ->)%length_six Hcols]).
  reflexivity.
Qed.

Lemma possible_move_free g m :
  m ∈ get_possible_moves g → column_filled g m = Ok false.
Proof. intros [Hm H0]%get_possible_moves_elem. by apply column_filled_false. Qed.

Lemma board_written_idle w s :
  Game.threads s = [] → Game.board_written w s = Game.set_world w s.
Proof.
  destruct s as [w0 ht t pl q th tm f tx]. simpl. by intros ->.
Qed.

(** *** The game: one call of handle_turn in an orderly game *)

Section Turn.
Variable n : nat.

(** [handle_turn] at less depth. *)
Hypothesis handle_turn_below : ∀ sched s,
  (Z.to_nat (42 - Game.turn s) ≤ n)%nat → Game.turn_played s →
  Game.started (Game.handle_turn sched s).1
  ∧ (Game.handle_turn sched s).2 = None
  ∧ Game.players (Game.handle_turn sched s).1 = Game.players s
  ∧ kept (Gui.grid (Game.world s))
      (Gui.grid (Game.world (Game.handle_turn sched s).1))
  ∧ (sched = [] ∨ Game.human_next s →
     Game.world (Game.handle_turn sched s).1 = Game.world s).

Lemma move_plays_below column sched s :
  (Z.to_nat (42 - Game.turn s) ≤ n)%nat → Game.to_move s →
  column_filled (Gui.grid (Game.world s)) column = Ok false →
  Game.started (Game.move (Some column) sched s).1
  ∧ (Game.move (Some column) sched s).2 = None
  ∧ Game.players (Game.move (Some column) sched s).1 = Game.players s
  ∧ ∃ g1,
      add_disk (Gui.grid (Game.world s)) column (Game.current_player s)
      = Ok g1
      ∧ disks g1 = S (disks (Gui.grid (Game.world s)))
      ∧ kept g1 (Gui.grid (Game.world (Game.move (Some column) sched s).1))
      ∧ (sched = [] ∨ Game.human_next s →
         Gui.grid (Game.world (Game.move (Some column) sched s).1) = g1).
Proof.
  intros Hn ((Hth & Hq & Htm) & Hfg & Hpos & Hcv & Hshown & Hno & Ht & Hdisks)
    Hfree.
  pose proof Hpos as (Hshape & _).
  destruct (add_disk_shown (Game.world s) column (Game.current_player s)
              Hshape Hshown (current_player_range s) Hfree)
    as (g' & cv & Hrun & Hdrop & Hne & Hshown').
  unfold Game.move, Game.move_in. rewrite Hfree, Hrun.
  rewrite board_written_idle by done.
  destruct (position_ok_add_disk _ _ _ _ Hpos Hdisks Hdrop Hne)
    as [Hpos' Hdisks'].
  destruct (handle_turn_below sched
              (Game.set_world {| Gui.grid := g'; Gui.canvas := cv |} s))
    as (Hstarted & Hnone & Hps & Hkept & Hsame).
  { done. }
  { split; [done |]. split; [done |]. split; [done |].
    split; [exact (add_disk_canvas_ok _ _ _ _ Hrun Hcv) |].
    split; [done |]. split; [simpl; lia |]. split; [done |].
    simpl. intros Hwon. split; [lia |].
    by apply (line_after_drop (Gui.grid (Game.world s)) column). }
  split; [done |]. split; [done |]. split; [done |].
  exists g'. split; [done |]. split; [lia |]. split; [done |].
  intros H. by rewrite Hsame.
Qed.

End Turn.

Ltac returns_here :=
  split; [| split; [done | split; [done | split; [apply kept_refl | done]]]].

Lemma handle_turn_after n : ∀ sched s,
  (Z.to_nat (42 - Game.turn s) ≤ n)%nat → Game.turn_played s →
  Game.started (Game.handle_turn sched s).1
  ∧ (Game.handle_turn sched s).2 = None
  ∧ Game.players (Game.handle_turn sched s).1 = Game.players s
  ∧ kept (Gui.grid (Game.world s))
      (Gui.grid (Game.world (Game.handle_turn sched s).1))
  ∧ (sched = [] ∨ Game.human_next s →
     Game.world (Game.handle_turn sched s).1 = Game.world s).
Proof.
  induction n as [n IH] using lt_wf_ind. intros sched s Hn Hs.
  pose proof Hs as ((Hth & Hq & Htm) & Hfg & Hpos & Hcv & Hshown & Ht & Hdisks
                    & Hline).
  rewrite handle_turn_unfold. cbv zeta.
  cbn [Game.world Game.turn Game.set_human_turn].
  destruct (check_victory (Gui.grid (Game.world s))) eqn:Hwon.
  { destruct Hline as (H1 & Hcp & Hother); [done |].
    returns_here. do 3 (split; [done |]). right.
    unfold Game.over, Game.idle. simpl. split_and!; try done; try lia.
    left. by split_and!. }
  case_bool_decide as Hlast.
  { returns_here. do 3 (split; [done |]). right.
    unfold Game.over, Game.idle. simpl. split_and!; try done; try lia.
    right. split_and!; [done | lia | done]. }
  case_bool_decide as Hkind.
  2: { returns_here. do 3 (split; [done |]). left.
       unfold Game.in_play. simpl. split_and!; try done; try lia.
       left. unfold Game.awaiting_click, Game.idle. simpl.
       by split_and!. }
  (* the search is started *)
  unfold Game.ai_turn, Game.ai_turn_in, Game.ai_wait_for_move_in. cbv zeta.
  match goal with
  | |- context [Game.threads_end ?l ?s0] =>
      set (l0 := l); set (s1 := s0)
  end.
  assert (Game.world s1 = Game.world s) as Hw1 by done.
  assert (Game.turn s1 = Game.turn s + 1) as Ht1 by done.
  assert (Game.players s1 = Game.players s) as Hps1 by done.
  assert (Game.player_kind s1 ≠ 0%nat) as Hkind1 by done.
  assert (Game.threads s1
          = [Game.mkThread (Game.turn s1) (Game.player_kind s1)
               (Game.current_player s1) true]) as Hth1.
  { change (Game.threads s
            ++ [Game.mkThread (Game.turn s1) (Game.player_kind s1)
                  (Game.current_player s1) true] = [Game.mkThread (Game.turn s1) (Game.player_kind s1)
                  (Game.current_player s1) true]).
    by rewrite Hth. }
  destruct (root_proposes (Gui.grid (Game.world s1)) (Game.turn s1)
              (Game.player_kind s1) (Game.current_player s1))
    as (m & Hrun & Hm);
    [apply current_player_range | done | by rewrite Hw1 | |].
  { rewrite Hw1. destruct Hpos as (_ & Hgrav & _).
    apply not_full_has_move; [done | lia]. }
  destruct (threads_end_one l0 s1 _ (Some m) Hth1 eq_refl Hrun)
    as [Hend | Hend]; rewrite Hend.
  - (* the thread has not ended: the timer is set *)
    replace (Game.ai_move s1) with (@nil (option Z)) by done.
    returns_here.
    split; [done |]. split; [done |]. split; [done |]. left.
    split; [done |]. split; [simpl; lia |]. split; [simpl; lia |].
    split; [done |]. split; [done |]. right. left.
    split; [done |]. split; [done |]. split; [exact Hth1 |].
    split; [done |]. simpl. by rewrite Htm.
  - (* the thread has put its move: it is played at once *)
    replace (Game.ai_move s1) with (@nil (option Z)) by done.
    cbn [app Game.ai_move Game.set_ai_move].
    match goal with
    | |- context [Game.move_in id Game.handle_turn (Some m) ?sc ?s0] =>
        change (Game.move_in id Game.handle_turn (Some m) sc s0)
          with (Game.move (Some m) sc s0);
        set (s2 := s0)
    end.
    destruct n as [|n]; [lia |].
    destruct (move_plays_below n (λ sc s0 H, IH n (Nat.lt_succ_diag_r n) sc s0 H)
                m (tail sched) s2)
      as (Hstarted & Hnone & Hps & g1 & Hdrop & Hn1 & Hkept & _).
    { unfold s2. simpl. lia. }
    { split; [by split_and! |]. split; [done |]. split; [done |].
      split; [done |]. split; [done |]. split; [done |].
      split; [simpl; lia |]. simpl. lia. }
    { by apply possible_move_free. }
    split; [done |]. split; [done |]. split; [done |].
    split.
    { eapply kept_trans; [| exact Hkept]. by apply add_disk_kept in Hdrop. }
    intros [-> | Hhuman].
    + exfalso. assert (Game.threads_end l0 s1 = s1) as Hsame by done.
      rewrite Hsame in Hend. apply (f_equal Game.threads) in Hend.
      rewrite Hth1 in Hend. done.
    + exfalso. apply Hkind. exact Hhuman.
Qed.

Lemma handle_turn_plays sched s :
  Game.turn_played s →
  Game.started (Game.handle_turn sched s).1
  ∧ (Game.handle_turn sched s).2 = None
  ∧ Game.players (Game.handle_turn sched s).1 = Game.players s
  ∧ kept (Gui.grid (Game.world s))
      (Gui.grid (Game.world (Game.handle_turn sched s).1))
  ∧ (sched = [] ∨ Game.human_next s →
     Game.world (Game.handle_turn sched s).1 = Game.world s).
Proof. by apply (handle_turn_after (Z.to_nat (42 - Game.turn s))). Qed.

(** [move] on a column that is not full, when nothing else is pending:
    the disk of the current player is dropped, and the turns that follow
    in the same callback keep it. *)
Lemma move_plays column sched s :
  Game.to_move s →
  column_filled (Gui.grid (Game.world s)) column = Ok false →
  Game.started (Game.move (Some column) sched s).1
  ∧ (Game.move (Some column) sched s).2 = None
  ∧ Game.players (Game.move (Some column) sched s).1 = Game.players s
  ∧ ∃ g1,
      add_disk (Gui.grid (Game.world s)) column (Game.current_player s)
      = Ok g1
      ∧ disks g1 = S (disks (Gui.grid (Game.world s)))
      ∧ kept g1 (Gui.grid (Game.world (Game.move (Some column) sched s).1))
      ∧ (sched = [] ∨ Game.human_next s →
         Gui.grid (Game.world (Game.move (Some column) sched s).1) = g1).
Proof.
  apply (move_plays_below (Z.to_nat (42 - Game.turn s))); [| done].
  intros sc s0. apply handle_turn_after.
Qed.

Lemma length_filter_le {A} (P Q : A → Prop)
    `{!∀ x, Decision (P x), !∀ x, Decision (Q x)} l :
  (∀ x, x ∈ l → P x → Q x) →
  (length (filter P l) ≤ length (filter Q l))%nat.
Proof.
  induction l as [|x l IH]; intros HPQ; [done |].
  rewrite !filter_cons.
  assert (length (filter P l) ≤ length (filter Q l))%nat as Hl
    by (apply IH; intros y Hy; apply HPQ; by right).
  destruct (decide (P x)) as [HP | HP].
  - rewrite decide_True by (apply HPQ; [by left | done]). simpl. lia.
  - destruct (decide (Q x)); simpl; lia.
Qed.

Lemma kept_disks g g' : kept g g' → (disks g ≤ disks g')%nat.
Proof.
  intros Hkept. unfold disks. apply length_filter_le.
  intros [c r] _ Hc. simpl in *. by rewrite (Hkept c r Hc).
Qed.

Lemma thread_done_none i a s :
  Game.threads s = [] → Game.thread_done i a s = s.
Proof. intros Hth. unfold Game.thread_done. by rewrite Hth. Qed.

(** [launch] when nothing is pending. *)
Lemma launch_starts ps sched s :
  Game.idle s → shape_ok (Gui.grid (Game.world s)) →
  Gui.canvas_ok (Gui.canvas (Game.world s)) →
  Game.started (Game.launch ps sched s).1
  ∧ (Game.launch ps sched s).2 = None
  ∧ Game.players (Game.launch ps sched s).1 = ps.
Proof.
  intros (Hth & Hq & Htm) Hg Hcv. unfold Game.launch. cbv zeta.
  rewrite board_written_idle, reinit_world by done.
  match goal with
  | |- context [Game.handle_turn sched ?s0] =>
      destruct (handle_turn_plays sched s0) as (Hstarted & Hnone & Hps & _)
  end; [| done].
  split; [by split_and! |]. split; [done |].
  split; [apply position_ok_zeros |]. split; [apply canvas_ok_blank |].
  split; [apply shown_blank |]. split; [done |]. split; [done |]. done.
Qed.

Lemma to_move_of s s' :
  Game.started s → Game.in_play s → Game.idle s' →
  Game.world s' = Game.world s → Game.turn s' = Game.turn s →
  Game.fg s' = Game.fg s →
  Game.to_move s'.
Proof.
  intros (Hpos & Hcv & Hshown & _) (Hno & Ht & Hdisks & _ & Hfg & _)
    Hidle Hw Hturn Hfg'.
  unfold Game.to_move. rewrite Hw, Hturn, Hfg'. split_and!; try done; lia.
Qed.

(** The one thread of a search ends: its move is in the queue. *)
Lemma search_ends a s :
  position_ok (Gui.grid (Game.world s)) →
  check_victory (Gui.grid (Game.world s)) = false →
  Z.of_nat (disks (Gui.grid (Game.world s))) < 42 →
  Game.player_kind s ≠ 0%nat →
  Game.threads s
  = [Game.mkThread (Game.turn s) (Game.player_kind s)
       (Game.current_player s) true] →
  Game.ai_move s = [] →
  ∃ m, alpha_beta_decision (Gui.grid (Game.world s)) (Game.turn s)
         (Game.player_kind s) (Game.current_player s) = Ok (Some m)
       ∧ m ∈ get_possible_moves (Gui.grid (Game.world s))
       ∧ Game.thread_done 0 a s
         = Game.set_ai_move [Some m] (Game.set_threads [] s)
       ∧ ∀ l, Game.threads_end l s = s
              ∨ Game.threads_end l s
                = Game.set_ai_move [Some m] (Game.set_threads [] s).
Proof.
  intros Hpos Hno Hdisks Hkind Hth Hq.
  destruct (root_proposes (Gui.grid (Game.world s)) (Game.turn s)
              (Game.player_kind s) (Game.current_player s))
    as (m & Hrun & Hm); [apply current_player_range | done | done | |].
  { destruct Hpos as (_ & Hgrav & _). apply not_full_has_move; [done | lia]. }
  exists m. split; [done |]. split; [done |]. split.
  - unfold Game.thread_done. rewrite Hth. simpl. by rewrite Hrun, Hq.
  - intros l.
    destruct (threads_end_one l s _ (Some m) Hth eq_refl Hrun) as [? | Hend];
      [by left | right].
    by rewrite Hend, Hq.
Qed.

Lemma searching_in_play s :
  Game.started s → Game.searching s → Game.in_play s.
Proof.
  intros (_ & _ & _ & [Hplay | Hover]) (_ & _ & Hth & _); [done |].
  destruct Hover as (_ & (Hth' & _) & _). by rewrite Hth' in Hth.
Qed.

(** The timer comes due while the search runs: it is set again, or the
    thread has just put its move and the move is played. *)
Lemma timer_searching sched s :
  Game.started s → Game.searching s →
  Game.timer sched s = (s, None)
  ∨ ∃ m s',
      alpha_beta_decision (Gui.grid (Game.world s)) (Game.turn s)
        (Game.player_kind s) (Game.current_player s) = Ok (Some m)
      ∧ m ∈ get_possible_moves (Gui.grid (Game.world s))
      ∧ sched ≠ []
      ∧ Game.idle s' ∧ Game.world s' = Game.world s
      ∧ Game.turn s' = Game.turn s ∧ Game.players s' = Game.players s
      ∧ Game.fg s' = Game.fg s
      ∧ Game.timer sched s = Game.move (Some m) (tail sched) s'.
Proof.
  intros Hstarted Hsearch.
  pose proof Hsearch as (Hht & Hkind & Hth & Hq & Htm).
  pose proof (searching_in_play s Hstarted Hsearch)
    as (Hno & Ht & Hdisks & _).
  destruct Hstarted as (Hpos & _).
  destruct (search_ends None (Game.set_timers 0 s))
    as (m & Hrun & Hm & _ & Hends); try done; [simpl; lia |].
  unfold Game.timer. rewrite Htm.
  unfold Game.ai_wait_for_move, Game.ai_wait_for_move_in. cbv zeta.
  destruct (Hends (default [] (head sched))) as [Hend | Hend].
  - left. rewrite Hend. cbn [Game.ai_move Game.set_timers]. rewrite Hq.
    destruct s as [w ht t pl q th tm f tx]. simpl in *. by subst tm.
  - right. exists m. eexists. split; [exact Hrun |]. split; [exact Hm |].
    split.
    { intros ->. simpl in Hend. apply (f_equal Game.threads) in Hend.
      simpl in Hend. by rewrite Hth in Hend. }
    rewrite Hend. cbn [Game.ai_move Game.set_ai_move].
    split_and!; [| | | | | reflexivity]; try done.
Qed.

(** The timer comes due with the move of the search in the queue. *)
Lemma timer_move_found sched s :
  Game.move_found s →
  ∃ m s',
    alpha_beta_decision (Gui.grid (Game.world s)) (Game.turn s)
      (Game.player_kind s) (Game.current_player s) = Ok (Some m)
    ∧ m ∈ get_possible_moves (Gui.grid (Game.world s))
    ∧ Game.idle s' ∧ Game.world s' = Game.world s
    ∧ Game.turn s' = Game.turn s ∧ Game.players s' = Game.players s
    ∧ Game.fg s' = Game.fg s
    ∧ Game.timer sched s = Game.move (Some m) (tail sched) s'.
Proof.
  intros (Hht & Hkind & Hth & (m & Hq & Hrun & Hm) & Htm).
  exists m. eexists. split; [exact Hrun |]. split; [exact Hm |].
  unfold Game.timer. rewrite Htm.
  unfold Game.ai_wait_for_move, Game.ai_wait_for_move_in. cbv zeta.
  rewrite threads_end_none by done. cbn [Game.ai_move Game.set_timers].
  rewrite Hq. split_and!; [| | | | | reflexivity]; try done.
Qed.

(** *** The game: the states of an orderly game *)

(** Nothing happens once the game is over, unless a new game is launched. *)
Lemma over_final s :
  Game.over s →
  (∀ x sched, Game.click x sched s = (s, None))
  ∧ (∀ sched, Game.timer sched s = (s, None))
  ∧ (∀ i a, Game.thread_done i a s = s).
Proof.
  intros (Hht & (Hth & Hq & Htm) & _). split_and!.
  - intros x sched. unfold Game.click. by rewrite Hht.
  - intros sched. unfold Game.timer. by rewrite Htm.
  - intros i a. by apply thread_done_none.
Qed.

Lemma new_game_inert :
  (∀ x sched, Game.click x sched Game.new_game = (Game.new_game, None))
  ∧ (∀ sched, Game.timer sched Game.new_game = (Game.new_game, None))
  ∧ (∀ i a, Game.thread_done i a Game.new_game = Game.new_game).
Proof. split_and!; [done | done |]. intros i a. by apply thread_done_none. Qed.

Lemma started_step e s :
  Game.started s → Game.in_order e s → Game.started (Game.step e s).
Proof.
  intros Hstarted Horder.
  pose proof Hstarted as (Hpos & Hcv & Hshown & [Hplay | Hover]).
  2: { destruct (over_final s Hover) as (Hclick & Htimer & Hthread).
       destruct e as [x sched|ps sched|sched|i a];
      unfold Game.step, Game.happens; cbn [fst].
       - by rewrite Hclick.
       - apply launch_starts; [by destruct Hover as (_ & ? & _) | | done].
         by destruct Hpos.
       - by rewrite Htimer.
       - by rewrite Hthread. }
  pose proof Hplay as (Hno & Ht & Hdisks & Htext & Hfg & Hphase).
  destruct Hphase as [(Hht & Hkind & Hidle) | [Hsearch | Hfound]].
  - (* a human is to click *)
    destruct e as [x sched|ps sched|sched|i a];
      unfold Game.step, Game.happens; cbn [fst].
    + unfold Game.click. rewrite Hht. cbv zeta.
      destruct (column_filled (Gui.grid (Game.world s))
                  (x `div` Game.row_width)) as [[|]|err] eqn:Hfree.
      * unfold Game.move, Game.move_in. by rewrite Hfree.
      * apply move_plays; [| done]. by apply (to_move_of s).
      * unfold Game.move, Game.move_in. by rewrite Hfree.
    + apply launch_starts; [done | by destruct Hpos | done].
    + unfold Game.timer. by destruct Hidle as (_ & _ & ->).
    + rewrite thread_done_none; [done | by destruct Hidle].
  - (* the search runs *)
    pose proof Hsearch as (Hht & Hkind & Hth & Hq & Htm).
    destruct e as [x sched|ps sched|sched|i a];
      unfold Game.step, Game.happens; cbn [fst].
    + unfold Game.click. by rewrite Hht.
    + simpl in Horder. destruct Horder as (Hth' & _). by rewrite Hth' in Hth.
    + destruct (timer_searching sched s Hstarted Hsearch)
        as [-> | (m & s' & _ & Hm & _ & Hidle & Hw & Hturn & _ & Hfg' & ->)];
        [done |].
      apply move_plays; [by apply (to_move_of s) |].
      rewrite Hw. by apply possible_move_free.
    + destruct i as [|i].
      * destruct (search_ends a s) as (m & Hrun & Hm & -> & _);
          try done; [lia |].
        split; [done |]. split; [done |]. split; [done |]. left.
        unfold Game.in_play. split_and!; try done; try (simpl; lia).
        right. right.
        unfold Game.move_found. split_and!; try done. by exists m.
      * replace (Game.thread_done (S i) a s) with s; [done |].
        unfold Game.thread_done. by rewrite Hth.
  - (* the move of the search is in the queue *)
    pose proof Hfound as (Hht & Hkind & Hth & (m0 & Hq & _) & Htm).
    destruct e as [x sched|ps sched|sched|i a];
      unfold Game.step, Game.happens; cbn [fst].
    + unfold Game.click. by rewrite Hht.
    + simpl in Horder. destruct Horder as (_ & Hq' & _). by rewrite Hq' in Hq.
    + destruct (timer_move_found sched s Hfound)
        as (m & s' & _ & Hm & Hidle & Hw & Hturn & _ & Hfg' & ->).
      apply move_plays; [by apply (to_move_of s) |].
      rewrite Hw. by apply possible_move_free.
    + by rewrite thread_done_none.
Qed.

Lemma invariant_step e s :
  Game.invariant s → Game.in_order e s → Game.invariant (Game.step e s).
Proof.
  intros [-> | Hstarted] Horder; [| right; by apply started_step].
  destruct new_game_inert as (Hclick & Htimer & Hthread).
  destruct e as [x sched|ps sched|sched|i a];
    unfold Game.step, Game.happens; cbn [fst].
  - left. by rewrite Hclick.
  - right. apply launch_starts; [done | apply shape_ok_zeros |].
    apply canvas_ok_blank.
  - left. by rewrite Htimer.
  - left. by rewrite Hthread.
Qed.

Lemma orderly_invariant s : Game.orderly s → Game.invariant s.
Proof.
  induction 1 as [|e s _ IH Horder]; [by left | by apply invariant_step].
Qed.

(** *** The game: whatever happens *)

Lemma column_filled_raises g column e :
  column_filled g column = Raise e → e = IndexError.
Proof.
  unfold column_filled, np_index. repeat case_bool_decide; simpl; congruence.
Qed.

(** A drop of the game on a board as the game leaves it. *)
Lemma drop_well_formed w column p :
  Game.well_formed w → p = 1 ∨ p = 2 →
  column_filled (Gui.grid w) column = Ok false →
  ∃ w', Gui.add_disk w column p true = Gui.Returned w'
        ∧ Game.well_formed w' ∧ kept (Gui.grid w) (Gui.grid w').
Proof.
  intros (Hshape & Hgrav & Hcells & Hcv & Hshown) Hp Hfree.
  destruct (add_disk_shown w column p Hshape Hshown Hp Hfree)
    as (g' & cv & Hrun & Hdrop & _ & Hshown').
  eexists. split; [exact Hrun |]. split; [| by apply add_disk_kept in Hdrop].
  split; [by eapply shape_ok_add_disk |].
  split; [eapply gravity_add_disk; [| done..]; lia |].
  split; [by eapply cells_ok_add_disk |].
  split; [exact (add_disk_canvas_ok _ _ _ _ Hrun Hcv) | done].
Qed.

(** [move] with its call of [handle_turn]: it returns where it is, or it
    has dropped a disk and calls [handle_turn]. *)
Lemma move_in_cases column sched s :
  Game.well_formed (Game.world s) →
  (∃ err, (err = None ∨ err = Some IndexError)
          ∧ ∀ R (ret : Game.Outcome → R) rec,
              Game.move_in ret rec column sched s = ret (s, err))
  ∨ (∃ w', Game.well_formed w'
           ∧ kept (Gui.grid (Game.world s)) (Gui.grid w')
           ∧ ∀ R (ret : Game.Outcome → R) rec,
               Game.move_in ret rec column sched s
               = rec sched (Game.board_written w' s)).
Proof.
  intros Hw. unfold Game.move_in.
  destruct column as [column|]; [| left; eexists; split; [by right | done]].
  destruct (column_filled (Gui.grid (Game.world s)) column) as [[|]|e] eqn:Hfree.
  - left. eexists. split; [by left | done].
  - destruct (drop_well_formed _ column (Game.current_player s) Hw
                (current_player_range s) Hfree) as (w' & -> & Hw' & Hkept).
    right. by exists w'.
  - apply column_filled_raises in Hfree as ->.
    left. eexists. split; [by right | done].
Qed.

Lemma handle_turn_in_round sched s :
  Game.well_formed (Game.world s) →
  (∃ o, Game.world o.1 = Game.world s
        ∧ (Game.turn o.1 = Game.turn s
           ∨ (Game.turn s < 42 ∧ Game.turn o.1 = Game.turn s + 1))
        ∧ (o.2 = None ∨ o.2 = Some IndexError)
        ∧ ∀ R (ret : Game.Outcome → R) rec,
            Game.handle_turn_in ret rec sched s = ret o)
  ∨ (∃ s', Game.turn s < 42 ∧ Game.turn s' = Game.turn s + 1
           ∧ Game.well_formed (Game.world s')
           ∧ kept (Gui.grid (Game.world s)) (Gui.grid (Game.world s'))
           ∧ ∀ R (ret : Game.Outcome → R) rec,
               Game.handle_turn_in ret rec sched s = rec (tail sched) s').
Proof.
  intros Hwf.
  unfold Game.handle_turn_in, Game.ai_turn_in, Game.ai_wait_for_move_in.
  cbv zeta.
  destruct (check_victory _);
    [left; eexists; split_and!; [| | | by intros]; by auto |].
  case_bool_decide as Hlast;
    [left; eexists; split_and!; [| | | by intros]; by auto |].
  cbn [Game.turn Game.set_human_turn] in Hlast.
  case_bool_decide as Hkind.
  2: { left. eexists. split_and!; [| | | by intros]; [done | | by auto].
       right. split; [lia | done]. }
  match goal with
  | |- context [Game.threads_end ?l ?s0] =>
      pose proof (threads_end_fields l s0) as (Hw & _ & Ht & _);
      destruct (Game.threads_end l s0) as [w ht t pl q th tm f tx]
  end.
  simpl in Hw, Ht. subst w t. cbn [Game.ai_move].
  destruct q as [|column q].
  { left. eexists. split_and!; [| | | by intros]; [done | | by auto].
    right. split; [lia | done]. }
  match goal with
  | |- context [Game.move_in _ _ column ?sc ?s0] =>
      destruct (move_in_cases column sc s0 Hwf)
        as [(err & Herr & Hmove) | (w' & Hw' & Hkept & Hmove)]
  end.
  - left. eexists. split_and!; [| | | intros; by rewrite Hmove]; [done | |].
    + right. split; [lia | done].
    + simpl. destruct Herr as [-> | ->]; auto.
  - right. eexists. split; [lia |].
    split_and!; [| | | intros; by rewrite Hmove]; done.
Qed.

(** The same for [handle_turn] itself. *)
Lemma handle_turn_round sched s :
  Game.well_formed (Game.world s) →
  (Game.world (Game.handle_turn sched s).1 = Game.world s
   ∧ (Game.turn (Game.handle_turn sched s).1 = Game.turn s
      ∨ (Game.turn s < 42
         ∧ Game.turn (Game.handle_turn sched s).1 = Game.turn s + 1))
   ∧ ((Game.handle_turn sched s).2 = None
      ∨ (Game.handle_turn sched s).2 = Some IndexError))
  ∨ (∃ s', Game.turn s < 42 ∧ Game.turn s' = Game.turn s + 1
           ∧ Game.well_formed (Game.world s')
           ∧ kept (Gui.grid (Game.world s)) (Gui.grid (Game.world s'))
           ∧ Game.handle_turn sched s = Game.handle_turn (tail sched) s').
Proof.
  intros Hwf.
  rewrite (handle_turn_in_id sched s).
  destruct (handle_turn_in_round sched s Hwf)
    as [(o & Hw & Ht & Herr & Ho) | (s' & Ht & Ht' & Hw' & Hkept & Hs')].
  - left. by rewrite (Ho _ id Game.handle_turn).
  - right. exists s'. by rewrite (Hs' _ id Game.handle_turn).
Qed.

(** [handle_turn] on any state with a board as the game leaves it. *)
Lemma handle_turn_safe n : ∀ sched s,
  (Z.to_nat (42 - Game.turn s) ≤ n)%nat →
  Game.well_formed (Game.world s) → 0 ≤ Game.turn s ≤ 42 →
  Game.well_formed (Game.world (Game.handle_turn sched s).1)
  ∧ 0 ≤ Game.turn (Game.handle_turn sched s).1 ≤ 42
  ∧ kept (Gui.grid (Game.world s))
      (Gui.grid (Game.world (Game.handle_turn sched s).1))
  ∧ ((Game.handle_turn sched s).2 = None
     ∨ (Game.handle_turn sched s).2 = Some IndexError).
Proof.
  induction n as [|n IH]; intros sched s Hn Hwf Ht;
    (destruct (handle_turn_round sched s Hwf)
      as [(Hw & Hturn & Herr) | (s' & Hlt & Ht' & Hw' & Hkept & ->)];
     [rewrite Hw; split; [done |]; split; [lia |];
      split; [apply kept_refl | done] |]).
  - lia.
  - destruct (IH (tail sched) s') as (? & ? & ? & ?); [lia | done | lia |].
    split; [done |]. split; [done |]. split; [| done].
    by eapply kept_trans.
Qed.

Lemma move_safe column sched s :
  Game.well_formed (Game.world s) → 0 ≤ Game.turn s ≤ 42 →
  Game.well_formed (Game.world (Game.move column sched s).1)
  ∧ 0 ≤ Game.turn (Game.move column sched s).1 ≤ 42
  ∧ kept (Gui.grid (Game.world s))
      (Gui.grid (Game.world (Game.move column sched s).1))
  ∧ ((Game.move column sched s).2 = None
     ∨ (Game.move column sched s).2 = Some IndexError).
Proof.
  intros Hwf Ht. unfold Game.move.
  destruct (move_in_cases column sched s Hwf)
    as [(err & Herr & ->) | (w' & Hw' & Hkept & ->)].
  - split; [done |]. split; [done |]. split; [apply kept_refl | done].
  - destruct (handle_turn_safe _ sched (Game.board_written w' s) (le_n _))
      as (? & ? & ? & ?); [done | done |].
    split; [done |]. split; [done |]. split; [| done].
    by eapply kept_trans.
Qed.

Lemma well_formed_blank :
  Game.well_formed {| Gui.grid := zeros; Gui.canvas := Gui.blank |}.
Proof.
  destruct position_ok_zeros as (? & ? & ? & _).
  split; [done |]. split; [done |]. split; [done |].
  split; [apply canvas_ok_blank | apply shown_blank].
Qed.

(** Any event in any state with a board as the game leaves it. *)
Lemma happens_safe e s :
  Game.well_formed (Game.world s) → 0 ≤ Game.turn s ≤ 42 →
  Game.well_formed (Game.world (Game.happens e s).1)
  ∧ 0 ≤ Game.turn (Game.happens e s).1 ≤ 42
  ∧ ((Game.happens e s).2 = None ∨ (Game.happens e s).2 = Some IndexError)
  ∧ match e with
    | Game.NewGame _ _ => True
    | _ => kept (Gui.grid (Game.world s))
             (Gui.grid (Game.world (Game.happens e s).1))
    end.
Proof.
  intros Hwf Ht. destruct e as [x sched|ps sched|sched|i a]; cbn [Game.happens].
  - unfold Game.click. destruct (Game.human_turn s).
    + destruct (move_safe (Some (x `div` Game.row_width)) sched s)
        as (? & ? & ? & ?); done.
    + split; [done |]. split; [done |]. split; [by left | apply kept_refl].
  - unfold Game.launch. cbv zeta.
    destruct Hwf as (Hshape & _ & _ & Hcv & _).
    rewrite reinit_world by done.
    match goal with
    | |- context [Game.handle_turn sched ?s0] =>
        destruct (handle_turn_safe _ sched s0 (le_n _)) as (? & ? & ? & ?)
    end; [apply well_formed_blank | done | done].
  - unfold Game.timer. destruct (Game.timers s) as [|k].
    { split; [done |]. split; [done |]. split; [by left | apply kept_refl]. }
    unfold Game.ai_wait_for_move, Game.ai_wait_for_move_in. cbv zeta.
    match goal with
    | |- context [Game.threads_end ?l ?s0] =>
        pose proof (threads_end_fields l s0) as (Hw & _ & Hturn & _);
        destruct (Game.threads_end l s0) as [w ht t pl q th tm f tx]
    end.
    simpl in Hw, Hturn. subst w t. cbn [Game.ai_move].
    destruct q as [|column q].
    { split; [done |]. split; [done |]. split; [by left | apply kept_refl]. }
    match goal with
    | |- context [Game.move_in id Game.handle_turn column ?sc ?s0] =>
        destruct (move_safe column sc s0) as (? & ? & ? & ?)
    end; done.
  - destruct (thread_done_fields i a s) as (Hw & _ & Hturn & _).
    cbn [fst snd]. rewrite Hw, Hturn.
    split; [done |]. split; [done |]. split; [by left | apply kept_refl].
Qed.

Lemma reachable_safe s :
  Game.reachable s →
  Game.well_formed (Game.world s) ∧ 0 ≤ Game.turn s ≤ 42.
Proof.
  induction 1 as [|e s _ [Hwf Ht]]; [split; [apply well_formed_blank | done] |].
  destruct (happens_safe e s Hwf Ht) as (? & ? & _). done.
Qed.

Lemma orderly_reachable s : Game.orderly s → Game.reachable s.
Proof. induction 1; by constructor. Qed.

Lemma orderly_play es : ∀ s,
  Game.orderly s →
  Forall (λ e, match e with Game.NewGame _ _ => False | _ => True end) es →
  Game.orderly (Game.play es s).
Proof.
  induction es as [|e es IH]; intros s Hs Hes; [done |].
  apply Forall_cons in Hes as [He Hes]. apply IH; [| done].
  apply Game.orderly_step; [done |]. by destruct e.
Qed.

Lemma orderly_first_game ps sched :
  Game.orderly (Game.step (Game.NewGame ps sched) Game.new_game).
Proof. apply Game.orderly_step; [constructor | done]. Qed.

Lemma row_width_100 : Game.row_width = 100.
Proof. reflexivity. Qed.

Lemma human_next_ext s s' :
  Game.turn s' = Game.turn s → Game.players s' = Game.players s →
  Game.human_next s' → Game.human_next s.
Proof.
  unfold Game.human_next. intros Ht Hps <-. apply player_kind_ext; simpl.
  - by rewrite Ht.
  - done.
Qed.

(** X13. In a game where New game is only pressed when nothing is pending
    (no search thread, queued move or timer), whatever is clicked and
    whenever the threads end and the timers run, the window shows a legal
    position: the grid is 7 by 6 under gravity with cells 0, 1 and 2,
    player 1 has as many disks as player 2 or one more, every oval has the
    colour of its cell, the turn is from 1 to 42 once a game is launched,
    and the board holds one disk for each turn before this one, and one
    for this turn once the game is over. *)
Theorem game_position s :
  Game.orderly s →
  let g := Gui.grid (Game.world s) in
  shape_ok g ∧ gravity g ∧ cells_ok g
  ∧ (disks_of 1 g = disks_of 2 g ∨ disks_of 1 g = S (disks_of 2 g))
  ∧ Gui.shown (Game.world s)
  ∧ 0 ≤ Game.turn s ≤ 42
  ∧ (Game.text s = Game.NoText ∨ 1 ≤ Game.turn s)
  ∧ Z.of_nat (disks g)
    = match Game.text s with
      | Game.Playing _ _ => Game.turn s - 1
      | _ => Game.turn s
      end.
Proof.
  intros [-> | Hstarted]%orderly_invariant; cbv zeta.
  { destruct position_ok_zeros as (? & ? & ? & _).
    split_and!; try done; [by left | apply shown_blank | by left]. }
  destruct Hstarted
    as ((Hshape & Hgrav & Hcells & H1 & H2) & _ & Hshown & Hphase).
  assert (1 ≤ Game.turn s ≤ 42) as Ht
    by (destruct Hphase as [(_ & ? & _) | (_ & _ & _ & ? & _)]; done).
  split; [done |]. split; [done |]. split; [done |]. split.
  { rewrite H1, H2.
    destruct (Nat.Even_or_Odd (disks (Gui.grid (Game.world s))))
      as [[k Hk] | [k Hk]]; rewrite Hk; [left | right].
    + replace (2 * k + 1)%nat with (1 + k * 2)%nat by lia.
      replace (2 * k)%nat with (k * 2)%nat by lia.
      rewrite Nat.div_add, Nat.div_mul by done. reflexivity.
    + replace (2 * k + 1 + 1)%nat with ((k + 1) * 2)%nat by lia.
      replace (2 * k + 1)%nat with (1 + k * 2)%nat by lia.
      rewrite Nat.div_add, Nat.div_mul by done. simpl. lia. }
  split; [done |]. split; [lia |]. split; [right; lia |].
  destruct Hphase as [(_ & _ & Hd & -> & _)
                     | (_ & _ & _ & _ & Hd & [[-> _] | [-> _]])]; done.
Qed.

Lemma game_position_witness :
  let s := Game.play [Game.Click 350 []; Game.Click 250 []]
             (Game.step (Game.NewGame (0, 0)%nat []) Game.new_game) in
  let g := Gui.grid (Game.world s) in
  Game.orderly s
  ∧ g = set_cell (set_cell zeros 3 0 1) 2 0 2
  ∧ shape_ok g ∧ gravity g ∧ cells_ok g
  ∧ (disks_of 1 g = disks_of 2 g ∨ disks_of 1 g = S (disks_of 2 g))
  ∧ Gui.shown (Game.world s)
  ∧ 0 ≤ Game.turn s ≤ 42
  ∧ (Game.text s = Game.NoText ∨ 1 ≤ Game.turn s)
  ∧ Z.of_nat (disks g)
    = match Game.text s with
      | Game.Playing _ _ => Game.turn s - 1
      | _ => Game.turn s
      end.
Proof.
  split; [apply orderly_play; [apply orderly_first_game | by repeat constructor] |].
  split; [reflexivity |].
  apply (game_position
           (Game.play [Game.Click 350 []; Game.Click 250 []]
              (Game.step (Game.NewGame (0, 0)%nat []) Game.new_game))).
  apply orderly_play; [apply orderly_first_game | by repeat constructor].
Defined.

(** X14. In a game where New game is only pressed when nothing is pending:
    while the label names a turn and a player, the game is on and waits
    for one thing. The label is black and names the turn counter and the
    current player, no line of four is on the board, and either a human is
    to click with no thread, move or timer pending, or one search thread
    runs, started for this turn, level and player on a board not written
    since, with one timer set, or the thread has ended and the move of its
    search, a legal one, is alone in the queue with one timer set. *)
Theorem game_waits s t p :
  Game.orderly s → Game.text s = Game.Playing t p →
  t = Game.turn s ∧ p = Game.current_player s
  ∧ Game.fg s = Game.Black
  ∧ check_victory (Gui.grid (Game.world s)) = false
  ∧ (Game.awaiting_click s ∨ Game.searching s ∨ Game.move_found s).
Proof.
  intros [-> | (_ & _ & _ & [Hplay | Hover])]%orderly_invariant Htext;
    [done | |].
  - destruct Hplay as (Hno & _ & _ & Htext' & Hfg & Hphase).
    rewrite Htext' in Htext. by simplify_eq.
  - destruct Hover as (_ & _ & _ & _ & _ & [[Ht' _] | [Ht' _]]); congruence.
Qed.

Lemma game_waits_witness :
  let s := Game.step (Game.NewGame (0, 3)%nat []) Game.new_game in
  Game.orderly s
  ∧ Game.text s = Game.Playing 1 1
  ∧ 1 = Game.turn s ∧ 1 = Game.current_player s
  ∧ Game.fg s = Game.Black
  ∧ check_victory (Gui.grid (Game.world s)) = false
  ∧ (Game.awaiting_click s ∨ Game.searching s ∨ Game.move_found s).
Proof.
  split; [apply orderly_first_game |]. split; [reflexivity |].
  apply (game_waits (Game.step (Game.NewGame (0, 3)%nat []) Game.new_game)
           1 1); [apply orderly_first_game | reflexivity].
Defined.

(** X15. In a game where New game is only pressed when nothing is pending,
    the end of a game is announced rightly. A win is announced for the
    player of the last turn, who has four in a line while the other player
    has not; a draw is announced on a full board without a line; and a
    board with a line is never left unannounced. *)
Theorem end_message_right s :
  Game.orderly s →
  let g := Gui.grid (Game.world s) in
  (∀ k, Game.text s = Game.Wins k →
        k = Game.current_player s ∧ (k = 1 ∨ k = 2)
        ∧ line_of k g ∧ ∀ q, q ≠ 0 → q ≠ k → ¬ line_of q g)
  ∧ (Game.text s = Game.Draw →
     disks g = 42%nat ∧ check_victory g = false ∧ get_possible_moves g = [])
  ∧ (check_victory g = true → Game.text s = Game.Wins (Game.current_player s)).
Proof.
  intros [-> | (Hpos & _ & _ & Hphase)]%orderly_invariant; cbv zeta;
    [by split_and! |].
  destruct Hphase as [(Hno & _ & _ & Htext & _)
                     | (_ & _ & _ & Ht & Hd & Hend)].
  - split_and!; [intros k | |]; congruence.
  - destruct Hend as [(Htext & Hline & Hother) | (Htext & Hlast & Hno)].
    + split_and!; [| congruence | done].
      intros k Hk. assert (k = Game.current_player s) as -> by congruence.
      split_and!; try done. apply current_player_range.
    + split_and!; [intros k; congruence | | congruence].
      intros _.
      assert (disks (Gui.grid (Game.world s)) = 42%nat) as Hfull by lia.
      split_and!; [done | done |].
      apply full_no_move; [| done]. by destruct Hpos as (_ & ? & _).
Qed.

Lemma end_message_right_witness :
  let s := Game.play [Game.Click 50 []; Game.Click 150 []; Game.Click 50 [];
                      Game.Click 150 []; Game.Click 50 []; Game.Click 150 [];
                      Game.Click 50 []]
             (Game.step (Game.NewGame (0, 0)%nat []) Game.new_game) in
  let g := Gui.grid (Game.world s) in
  Game.orderly s
  ∧ Game.text s = Game.Wins 1
  ∧ (∀ k, Game.text s = Game.Wins k →
          k = Game.current_player s ∧ (k = 1 ∨ k = 2)
          ∧ line_of k g ∧ ∀ q, q ≠ 0 → q ≠ k → ¬ line_of q g)
  ∧ (Game.text s = Game.Draw →
     disks g = 42%nat ∧ check_victory g = false ∧ get_possible_moves g = [])
  ∧ (check_victory g = true → Game.text s = Game.Wins (Game.current_player s)).
Proof.
  split; [apply orderly_play; [apply orderly_first_game | by repeat constructor] |].
  split; [reflexivity |].
  apply (end_message_right
           (Game.play [Game.Click 50 []; Game.Click 150 []; Game.Click 50 [];
                       Game.Click 150 []; Game.Click 50 []; Game.Click 150 [];
                       Game.Click 50 []]
              (Game.step (Game.NewGame (0, 0)%nat []) Game.new_game))).
  apply orderly_play; [apply orderly_first_game | by repeat constructor].
Defined.

(** X16. In a game where New game is only pressed when nothing is pending,
    a game that is over stays as it is until New game is pressed: once the
    label announces a win or a draw, no click, timer or thread changes
    anything, and none raises. *)
Theorem game_over_final s :
  Game.orderly s →
  Game.text s = Game.Draw ∨ (∃ k, Game.text s = Game.Wins k) →
  (∀ x sched, Game.click x sched s = (s, None))
  ∧ (∀ sched, Game.timer sched s = (s, None))
  ∧ (∀ i a, Game.thread_done i a s = s).
Proof.
  intros [-> | (_ & _ & _ & [Hplay | Hover])]%orderly_invariant Htext.
  - destruct Htext as [? | [k ?]]; done.
  - destruct Hplay as (_ & _ & _ & Htext' & _).
    destruct Htext as [? | [k ?]]; congruence.
  - by apply over_final.
Qed.

Lemma game_over_final_witness :
  let s := Game.play [Game.Click 350 []; Game.Click 350 []; Game.Click 250 [];
                      Game.Click 250 []; Game.Click 450 []; Game.Click 450 [];
                      Game.Click 550 []]
             (Game.step (Game.NewGame (0, 0)%nat []) Game.new_game) in
  Game.orderly s
  ∧ (Game.text s = Game.Draw ∨ (∃ k, Game.text s = Game.Wins k))
  ∧ (∀ x sched, Game.click x sched s = (s, None))
  ∧ (∀ sched, Game.timer sched s = (s, None))
  ∧ (∀ i a, Game.thread_done i a s = s).
Proof.
  split; [apply orderly_play; [apply orderly_first_game | by repeat constructor] |].
  split; [right; by exists 1 |].
  apply (game_over_final
           (Game.play [Game.Click 350 []; Game.Click 350 []; Game.Click 250 [];
                       Game.Click 250 []; Game.Click 450 []; Game.Click 450 [];
                       Game.Click 550 []]
              (Game.step (Game.NewGame (0, 0)%nat []) Game.new_game)));
    [apply orderly_play; [apply orderly_first_game | by repeat constructor]
    | right; by exists 1].
Defined.

(** X17. In a game where New game is only pressed when nothing is
    pending, a click of the human whose turn it is, inside the canvas,
    plays the column under the pointer, 100 pixels a column. On a full
    column nothing changes. Otherwise nothing is raised and the disk of
    the current player is dropped there, one disk more; the disks on the
    board when the callback returns include it, and they are exactly these
    when the next player is a human or no search thread ends while the
    callback runs (else the callback goes on with the moves of the
    search). *)
Theorem click_plays s x :
  Game.orderly s → Game.human_turn s = true → 0 ≤ x < 700 →
  let g := Gui.grid (Game.world s) in
  let column := x `div` 100 in
  (cell g (Z.to_nat column) 5 ≠ 0 →
   ∀ sched, Game.click x sched s = (s, None))
  ∧ (cell g (Z.to_nat column) 5 = 0 →
     ∃ g1,
       add_disk g column (Game.current_player s) = Ok g1
       ∧ disks g1 = S (disks g)
       ∧ ∀ sched,
           (Game.click x sched s).2 = None
           ∧ kept g1 (Gui.grid (Game.world (Game.click x sched s).1))
           ∧ (sched = [] ∨ Game.human_next s →
              Gui.grid (Game.world (Game.click x sched s).1) = g1)).
Proof.
  intros Hinv%orderly_invariant Hht Hx. cbv zeta.
  assert (0 ≤ x `div` 100 < 7) as Hc by (Z.div_mod_to_equations; lia).
  unfold Game.click. rewrite Hht, row_width_100. cbv zeta. split.
  - intros Hfull sched. apply column_filled_true in Hfull; [| done].
    unfold Game.move, Game.move_in. by rewrite Hfull.
  - intros Hfree. apply column_filled_false in Hfree; [| done].
    destruct Hinv as [-> | Hstarted]; [done |].
    pose proof Hstarted as (_ & _ & _ & [Hplay | Hover]).
    2: { destruct Hover as (Hht' & _). congruence. }
    pose proof Hplay as (_ & _ & _ & _ & _ & Hphase).
    destruct Hphase as [(_ & _ & Hidle) | [(Hht' & _) | (Hht' & _)]];
      [| congruence..].
    assert (Game.to_move s) as Hmove by by apply (to_move_of s).
    destruct (move_plays (x `div` 100) [] s Hmove Hfree)
      as (_ & _ & _ & g1 & Hdrop & Hn & _).
    exists g1. split; [done |]. split; [done |]. intros sched.
    destruct (move_plays (x `div` 100) sched s Hmove Hfree)
      as (_ & Hnone & _ & g1' & Hdrop' & _ & Hkept & Hsame).
    assert (g1' = g1) as -> by congruence. done.
Qed.

Lemma click_plays_witness :
  let s := Game.step (Game.NewGame (0, 0)%nat []) Game.new_game in
  let g := Gui.grid (Game.world s) in
  Game.orderly s ∧ Game.human_turn s = true ∧ 0 ≤ 350 < 700
  ∧ (cell g (Z.to_nat (350 `div` 100)) 5 ≠ 0 →
     ∀ sched, Game.click 350 sched s = (s, None))
  ∧ (cell g (Z.to_nat (350 `div` 100)) 5 = 0 →
     ∃ g1,
       add_disk g (350 `div` 100) (Game.current_player s) = Ok g1
       ∧ disks g1 = S (disks g)
       ∧ ∀ sched,
           (Game.click 350 sched s).2 = None
           ∧ kept g1 (Gui.grid (Game.world (Game.click 350 sched s).1))
           ∧ (sched = [] ∨ Game.human_next s →
              Gui.grid (Game.world (Game.click 350 sched s).1) = g1)).
Proof.
  split; [apply orderly_first_game |]. split; [reflexivity |].
  split; [lia |].
  apply (click_plays (Game.step (Game.NewGame (0, 0)%nat []) Game.new_game)
           350); [apply orderly_first_game | reflexivity | lia].
Defined.

(** X18. A click does nothing while it is not a human's turn. On a human's
    turn a click at x = 700 or beyond, as on the right border of the
    canvas, or left of -700, raises IndexError and leaves the game as it
    was; a click at a negative x from -700 on is the click 700 pixels to
    the right. *)
Theorem click_bounds s x sched :
  (Game.human_turn s = false → Game.click x sched s = (s, None))
  ∧ (Game.human_turn s = true → ¬ (-700 ≤ x < 700) →
     Game.click x sched s = (s, Some IndexError))
  ∧ (Game.human_turn s = true → -700 ≤ x < 0 →
     Game.click x sched s = Game.click (x + 700) sched s).
Proof.
  unfold Game.click. rewrite row_width_100. split_and!; intros ->; [done | |].
  - intros Hx. cbv zeta. unfold Game.move, Game.move_in, column_filled.
    rewrite np_index_outside; [done |]. Z.div_mod_to_equations; lia.
  - intros Hx. cbv zeta.
    replace ((x + 700) `div` 100) with (x `div` 100 + 7)
      by (Z.div_mod_to_equations; lia).
    assert (-7 ≤ x `div` 100 < 0) as Hc by (Z.div_mod_to_equations; lia).
    unfold Game.move, Game.move_in, column_filled, Gui.add_disk, add_disk.
    by rewrite (np_index_wrap 7 (x `div` 100)).
Qed.

Lemma click_bounds_witness :
  let s := Game.step (Game.NewGame (0, 0)%nat []) Game.new_game in
  Game.human_turn s = true ∧ ¬ (-700 ≤ 702 < 700)
  ∧ Game.click 702 [] s = (s, Some IndexError).
Proof.
  split; [reflexivity |]. split; [lia |].
  apply (proj1 (proj2 (click_bounds
                         (Game.step (Game.NewGame (0, 0)%nat []) Game.new_game)
                         702 [])));
    [reflexivity | lia].
Defined.

(** X19. In a game where New game is only pressed when nothing is
    pending, while a search thread runs clicks do nothing, and the search
    returns a legal move for the turn, level and player of the label. Once
    the thread has ended that move is alone in the queue, and the timer
    that comes due next drops the disk of the current player in that
    column, raising nothing; the disks on the board then include it. A
    timer that comes due before sets itself again, unless the thread ends
    while it runs: then it drops that disk. *)
Theorem ai_plays s :
  Game.orderly s → Game.threads s ≠ [] →
  let g := Gui.grid (Game.world s) in
  (∀ x sched, Game.click x sched s = (s, None))
  ∧ ∃ m g1,
      alpha_beta_decision g (Game.turn s) (Game.player_kind s)
        (Game.current_player s) = Ok (Some m)
      ∧ m ∈ get_possible_moves g
      ∧ add_disk g m (Game.current_player s) = Ok g1
      ∧ disks g1 = S (disks g)
      ∧ (∀ a, Game.ai_move (Game.thread_done 0 a s) = [Some m])
      ∧ (∀ a sched,
           (Game.timer sched (Game.thread_done 0 a s)).2 = None
           ∧ kept g1
               (Gui.grid
                  (Game.world (Game.timer sched (Game.thread_done 0 a s)).1)))
      ∧ (∀ sched,
           Game.timer sched s = (s, None)
           ∨ ((Game.timer sched s).2 = None
              ∧ kept g1 (Gui.grid (Game.world (Game.timer sched s).1)))).
Proof.
  intros [-> | Hstarted]%orderly_invariant Hth; [done |]. cbv zeta.
  pose proof Hstarted as (Hpos & _ & _ & [Hplay | Hover]).
  2: { by destruct Hover as (_ & (? & _) & _). }
  pose proof Hplay as (Hno & Ht & Hdisks & _ & _ & Hphase).
  destruct Hphase as [(_ & _ & ? & _) | [Hsearch | (_ & _ & ? & _)]];
    [done | | done].
  pose proof Hsearch as (Hht & Hkind & Hthreads & Hq & Htm).
  split.
  { intros x sched. unfold Game.click. by rewrite Hht. }
  destruct (search_ends None s) as (m & Hrun & Hm & _ & _); try done; [lia |].
  assert (Game.to_move (Game.set_ai_move [] (Game.set_threads []
                          (Game.set_timers 0 s)))) as Hmove
    by by apply (to_move_of s).
  destruct (move_plays m [] _ Hmove (possible_move_free _ _ Hm))
    as (_ & _ & _ & g1 & Hdrop & Hn & _).
  change (add_disk (Gui.grid (Game.world s)) m (Game.current_player s)
          = Ok g1) in Hdrop.
  change (disks g1 = S (disks (Gui.grid (Game.world s)))) in Hn.
  exists m, g1. split; [done |]. split; [done |]. split; [done |].
  split; [done |]. split; [| split].
  - intros a. destruct (search_ends a s) as (m' & Hrun' & _ & -> & _);
      try done; [lia |].
    simpl. congruence.
  - intros a sched.
    destruct (search_ends a s) as (m' & Hrun' & Hm' & Hdone & _);
      try done; [lia |].
    assert (m' = m) as -> by congruence.
    assert (Game.started (Game.thread_done 0 a s)) as Hstarted'
      by (apply (started_step (Game.ThreadDone 0 a) s); done).
    assert (Game.move_found (Game.thread_done 0 a s)) as Hfound.
    { rewrite Hdone. unfold Game.move_found. split_and!; try done.
      by exists m. }
    destruct (timer_move_found sched _ Hfound)
      as (m' & s' & Hrun'' & _ & Hidle & Hw & Hturn & Hps & Hfg & ->).
    rewrite Hdone in Hrun'', Hw, Hturn, Hps, Hfg.
    cbn [Game.world Game.turn Game.players Game.fg Game.set_ai_move
         Game.set_threads] in Hw, Hturn, Hps, Hfg.
    assert (Ok (Some m') = Ok (Some m) :> result (option Z)) as [= ->]
      by (rewrite <- Hrun'; exact (eq_sym Hrun'')).
    assert (Game.to_move s') as Hmove' by by apply (to_move_of s).
    destruct (move_plays m (tail sched) s' Hmove')
      as (_ & Hnone & _ & g1' & Hdrop' & _ & Hkept & _).
    { rewrite Hw. by apply possible_move_free. }
    rewrite Hw, (current_player_ext s' s Hturn) in Hdrop'.
    assert (g1' = g1) as -> by congruence. done.
  - intros sched.
    destruct (timer_searching sched s Hstarted Hsearch)
      as [? | (m' & s' & Hrun' & _ & _ & Hidle & Hw & Hturn & Hps & Hfg & ->)];
      [by left | right].
    assert (m' = m) as -> by congruence.
    assert (Game.to_move s') as Hmove' by by apply (to_move_of s).
    destruct (move_plays m (tail sched) s' Hmove')
      as (_ & Hnone & _ & g1' & Hdrop' & _ & Hkept & _).
    { rewrite Hw. by apply possible_move_free. }
    rewrite Hw, (current_player_ext s' s Hturn) in Hdrop'.
    assert (g1' = g1) as -> by congruence. done.
Qed.

Lemma ai_plays_witness :
  let s := Game.play [Game.Click 350 []]
             (Game.step (Game.NewGame (1, 0)%nat [[(0%nat, None)]])
                Game.new_game) in
  let g := Gui.grid (Game.world s) in
  Game.orderly s ∧ Game.threads s ≠ []
  ∧ (∀ x sched, Game.click x sched s = (s, None))
  ∧ ∃ m g1,
      alpha_beta_decision g (Game.turn s) (Game.player_kind s)
        (Game.current_player s) = Ok (Some m)
      ∧ m ∈ get_possible_moves g
      ∧ add_disk g m (Game.current_player s) = Ok g1
      ∧ disks g1 = S (disks g)
      ∧ (∀ a, Game.ai_move (Game.thread_done 0 a s) = [Some m])
      ∧ (∀ a sched,
           (Game.timer sched (Game.thread_done 0 a s)).2 = None
           ∧ kept g1
               (Gui.grid
                  (Game.world (Game.timer sched (Game.thread_done 0 a s)).1)))
      ∧ (∀ sched,
           Game.timer sched s = (s, None)
           ∨ ((Game.timer sched s).2 = None
              ∧ kept g1 (Gui.grid (Game.world (Game.timer sched s).1)))).
Proof.
  assert (Game.orderly
            (Game.play [Game.Click 350 []]
               (Game.step (Game.NewGame (1, 0)%nat [[(0%nat, None)]])
                  Game.new_game))) as Horder.
  { apply orderly_play; [apply orderly_first_game | by repeat constructor]. }
  split; [exact Horder |]. split; [by vm_compute |].
  apply (ai_plays
           (Game.play [Game.Click 350 []]
              (Game.step (Game.NewGame (1, 0)%nat [[(0%nat, None)]])
                 Game.new_game))); [exact Horder | by vm_compute].
Defined.

(** X20. In a game where New game is only pressed when nothing is
    pending, a game that is on never gets stuck. While the label names a
    turn and a player, either a human is to click, some column is free and
    a click on a free column adds a disk; or the search thread, once
    ended, and the timer that comes due next add a disk, whatever the
    threads do meanwhile: the search never proposes a column that the game
    would refuse. *)
Theorem game_goes_on s t p :
  Game.orderly s → Game.text s = Game.Playing t p →
  let g := Gui.grid (Game.world s) in
  (Game.human_turn s = true
   ∧ get_possible_moves g ≠ []
   ∧ ∀ m sched, m ∈ get_possible_moves g →
       (disks g < disks (Gui.grid
                           (Game.world (Game.click (m * 100) sched s).1)))%nat)
  ∨ (Game.human_turn s = false
     ∧ ∀ a sched,
         (disks g < disks (Gui.grid
                             (Game.world
                                (Game.timer sched
                                   (Game.thread_done 0 a s)).1)))%nat).
Proof.
  intros [-> | Hstarted]%orderly_invariant Htext; [done |]. cbv zeta.
  pose proof Hstarted as (Hpos & _ & _ & [Hplay | Hover]).
  2: { destruct Hover as (_ & _ & _ & _ & _ & [[? _] | [? _]]); congruence. }
  pose proof Hplay as (Hno & Ht & Hdisks & _ & Hfg & Hphase).
  destruct Hphase as [(Hht & Hkind & Hidle) | [Hsearch | Hfound]].
  - left. split; [done |]. split.
    { apply not_full_has_move; [| lia]. by destruct Hpos as (_ & ? & _). }
    intros m sched Hm. unfold Game.click. rewrite Hht, row_width_100.
    cbv zeta. rewrite Z.div_mul by done.
    destruct (move_plays m sched s) as (_ & _ & _ & g1 & _ & Hn & Hkept & _);
      [by apply (to_move_of s) | by apply possible_move_free |].
    apply kept_disks in Hkept. lia.
  - right. pose proof Hsearch as (Hht & Hkind & Hthreads & Hq & Htm).
    split; [done |]. intros a sched.
    destruct (search_ends a s) as (m & Hrun & Hm & Hdone & _);
      try done; [lia |].
    assert (Game.move_found (Game.thread_done 0 a s)) as Hfound.
    { rewrite Hdone. unfold Game.move_found. split_and!; try done.
      by exists m. }
    destruct (timer_move_found sched _ Hfound)
      as (m' & s' & _ & Hm' & Hidle & Hw & Hturn & Hps & Hfg' & ->).
    rewrite Hdone in Hm', Hw, Hturn, Hps, Hfg'.
    cbn [Game.world Game.turn Game.players Game.fg Game.set_ai_move
         Game.set_threads] in Hm', Hw, Hturn, Hps, Hfg'.
    destruct (move_plays m' (tail sched) s')
      as (_ & _ & _ & g1 & _ & Hn & Hkept & _);
      [by apply (to_move_of s) | rewrite Hw; by apply possible_move_free |].
    apply kept_disks in Hkept. rewrite Hw in Hn. lia.
  - right. pose proof Hfound as (Hht & Hkind & Hthreads & _).
    split; [done |]. intros a sched. rewrite thread_done_none by done.
    destruct (timer_move_found sched _ Hfound)
      as (m' & s' & _ & Hm' & Hidle & Hw & Hturn & Hps & Hfg' & ->).
    destruct (move_plays m' (tail sched) s')
      as (_ & _ & _ & g1 & _ & Hn & Hkept & _);
      [by apply (to_move_of s) | rewrite Hw; by apply possible_move_free |].
    apply kept_disks in Hkept. rewrite Hw in Hn. lia.
Qed.

Lemma game_goes_on_witness :
  let s := Game.step (Game.NewGame (0, 2)%nat []) Game.new_game in
  let g := Gui.grid (Game.world s) in
  Game.orderly s ∧ Game.text s = Game.Playing 1 1
  ∧ ((Game.human_turn s = true
      ∧ get_possible_moves g ≠ []
      ∧ ∀ m sched, m ∈ get_possible_moves g →
          (disks g < disks (Gui.grid
                              (Game.world
                                 (Game.click (m * 100) sched s).1)))%nat)
     ∨ (Game.human_turn s = false
        ∧ ∀ a sched,
            (disks g < disks (Gui.grid
                                (Game.world
                                   (Game.timer sched
                                      (Game.thread_done 0 a s)).1)))%nat)).
Proof.
  split; [apply orderly_first_game |]. split; [reflexivity |].
  apply (game_goes_on (Game.step (Game.NewGame (0, 2)%nat []) Game.new_game)
           1 1); [apply orderly_first_game | reflexivity].
Defined.

(** X21. Whatever happens to the window, New game pressed at any moment
    included, and whatever the search threads answer: the grid stays 7 by
    6 under gravity with cells 0, 1 and 2, every oval has the colour of its
    cell, the turn stays from 0 to 42, the only exception that leaves a
    callback is IndexError, and no event but New game removes or changes a
    disk. *)
Theorem board_stays_well_formed s e :
  Game.reachable s →
  Game.well_formed (Game.world s)
  ∧ 0 ≤ Game.turn s ≤ 42
  ∧ ((Game.happens e s).2 = None ∨ (Game.happens e s).2 = Some IndexError)
  ∧ match e with
    | Game.NewGame _ _ => True
    | _ => kept (Gui.grid (Game.world s))
             (Gui.grid (Game.world (Game.step e s)))
    end.
Proof.
  intros [Hwf Ht]%reachable_safe. split; [done |]. split; [done |].
  destruct (happens_safe e s Hwf Ht) as (_ & _ & Herr & Hkept). done.
Qed.

Lemma board_stays_well_formed_witness :
  let s := Game.play [Game.NewGame (3, 0)%nat [];
                      Game.NewGame (0, 2)%nat [];
                      Game.ThreadDone 0 (Some (Some 3));
                      Game.Timer []]
             Game.new_game in
  Game.reachable s
  ∧ Gui.grid (Game.world s) = set_cell zeros 3 0 1
  ∧ Game.well_formed (Game.world s)
  ∧ 0 ≤ Game.turn s ≤ 42
  ∧ ((Game.happens (Game.Click 350 []) s).2 = None
     ∨ (Game.happens (Game.Click 350 []) s).2 = Some IndexError)
  ∧ kept (Gui.grid (Game.world s))
      (Gui.grid (Game.world (Game.step (Game.Click 350 []) s))).
Proof.
  split; [repeat apply Game.reachable_step; apply Game.reachable_new |].
  split; [reflexivity |].
  apply (board_stays_well_formed
           (Game.play [Game.NewGame (3, 0)%nat [];
                       Game.NewGame (0, 2)%nat [];
                       Game.ThreadDone 0 (Some (Some 3));
                       Game.Timer []]
              Game.new_game) (Game.Click 350 [])).
  repeat apply Game.reachable_step. apply Game.reachable_new.
Defined.

(** [launch] with an empty queue, when no thread ends while it runs. *)
Lemma launch_quiet ps s :
  shape_ok (Gui.grid (Game.world s)) →
  Gui.canvas_ok (Gui.canvas (Game.world s)) →
  Game.ai_move s = [] →
  Game.launch ps [] s
  = ({| Game.world := {| Gui.grid := zeros; Gui.canvas := Gui.blank |};
        Game.human_turn := bool_decide (ps.1 = 0%nat);
        Game.turn := 1;
        Game.players := ps;
        Game.ai_move := [];
        Game.threads :=
          (Game.spoil <$> Game.threads s)
          ++ (if bool_decide (ps.1 = 0%nat) then []
              else [Game.mkThread 1 ps.1 1 true]);
        Game.timers :=
          if bool_decide (ps.1 = 0%nat) then Game.timers s
          else S (Game.timers s);
        Game.fg := Game.Black;
        Game.text := Game.Playing 1 1 |}, None).
Proof.
  intros Hg Hcv Hq. unfold Game.launch. cbv zeta.
  rewrite reinit_world by done. rewrite handle_turn_unfold.
  destruct s as [w ht t pl q th tm f tx]. simpl in Hq. subst q.
  destruct ps as [[|level] second].
  - rewrite app_nil_r. reflexivity.
  - reflexivity.
Qed.

(** X22. New game does not stop a search. Pressed while a search thread
    runs, in a game that was in order so far and with no thread ending
    while the callback runs, it leaves that thread running on a board
    written under it, and its timer set. With an AI as first player a
    second thread and a second timer are started beside them; with a
    human as first player the human is to click while the old thread
    runs. Either way the game has left the states of a game in order. *)
Theorem new_game_during_search s ps :
  Game.orderly s → Game.threads s ≠ [] →
  let s' := Game.step (Game.NewGame ps []) s in
  let old :=
    Game.mkThread (Game.turn s) (Game.player_kind s) (Game.current_player s)
      false in
  Game.turn s' = 1
  ∧ (ps.1 ≠ 0%nat →
     Game.human_turn s' = false
     ∧ Game.threads s' = [old; Game.mkThread 1 ps.1 1 true]
     ∧ Game.timers s' = 2%nat)
  ∧ (ps.1 = 0%nat →
     Game.human_turn s' = true
     ∧ Game.threads s' = [old]
     ∧ Game.timers s' = 1%nat)
  ∧ ¬ Game.invariant s'.
Proof.
  intros [-> | Hstarted]%orderly_invariant Hth; [done |]. cbv zeta.
  pose proof Hstarted as ((Hshape & _) & Hcv & _ & [Hplay | Hover]).
  2: { by destruct Hover as (_ & (? & _) & _). }
  pose proof Hplay as (_ & _ & _ & _ & _ & Hphase).
  destruct Hphase as [(_ & _ & ? & _) | [Hsearch | (_ & _ & ? & _)]];
    [done | | done].
  destruct Hsearch as (Hht & Hkind & Hthreads & Hq & Htm).
  unfold Game.step, Game.happens. rewrite launch_quiet by done.
  cbn [fst Game.turn Game.human_turn Game.threads Game.timers].
  rewrite Hthreads, Htm. cbn [fmap list_fmap Game.spoil Game.t_turn
                              Game.t_level Game.t_player].
  split; [done |]. split; [| split].
  - intros Hai. by rewrite bool_decide_eq_false_2.
  - intros Hhuman. by rewrite bool_decide_eq_true_2.
  - intros [Heq | (_ & _ & _ & [Hplay' | Hover'])].
    + apply (f_equal Game.fg) in Heq. done.
    + destruct Hplay' as (_ & _ & _ & _ & _ & Hphase').
      destruct Hphase'
        as [(_ & _ & Hth' & _) | [(_ & _ & Hth' & _) | (_ & _ & Hth' & _)]];
        cbn [Game.threads] in Hth'; by case_bool_decide.
    + destruct Hover' as (_ & (Hth' & _) & _). cbn [Game.threads] in Hth'.
      by case_bool_decide.
Qed.

Lemma new_game_during_search_witness :
  let s := Game.play [Game.Click 350 []]
             (Game.step (Game.NewGame (0, 2)%nat []) Game.new_game) in
  let s' := Game.step (Game.NewGame (0, 2)%nat []) s in
  Game.orderly s ∧ Game.threads s ≠ []
  ∧ Game.turn s' = 1
  ∧ (0%nat ≠ 0%nat →
     Game.human_turn s' = false
     ∧ Game.threads s'
       = [Game.mkThread (Game.turn s) (Game.player_kind s)
            (Game.current_player s) false;
          Game.mkThread 1 0 1 true]
     ∧ Game.timers s' = 2%nat)
  ∧ (0%nat = 0%nat →
     Game.human_turn s' = true
     ∧ Game.threads s'
       = [Game.mkThread (Game.turn s) (Game.player_kind s)
            (Game.current_player s) false]
     ∧ Game.timers s' = 1%nat)
  ∧ ¬ Game.invariant s'.
Proof.
  assert (Game.orderly
            (Game.play [Game.Click 350 []]
               (Game.step (Game.NewGame (0, 2)%nat []) Game.new_game)))
    as Horder.
  { apply orderly_play; [apply orderly_first_game | by repeat constructor]. }
  split; [exact Horder |]. split; [by vm_compute |].
  apply (new_game_during_search
           (Game.play [Game.Click 350 []]
              (Game.step (Game.NewGame (0, 2)%nat []) Game.new_game))
           (0, 2)%nat); [exact Horder | by vm_compute].
Defined.
